(** * QTPFS path search: a shallow embedding of [PathSearch.cpp] and
    [PathThreads.h], and the properties of the search that follow from it;
    with them, the cache of build-square tests of [GameHelper.h]. *)

From Stdlib Require Import ZArith Lia Bool Floats.
From stdpp Require Import base option list relations.

Local Open Scope Z_scope.

(** ** Machine integers

    [int] is 32 bits, two's complement; [uint32_t] and [std::uint64_t] wrap. *)

Definition wrap_u32 (z : Z) : Z := z mod 2 ^ 32.
Definition wrap_u64 (z : Z) : Z := z mod 2 ^ 64.
Definition wrap_i32 (z : Z) : Z := (z + 2 ^ 31) mod 2 ^ 32 - 2 ^ 31.

(** ** PathThreads.h: [SparseData<T>]

    A reference [T&] into [denseData] is the number of the slot it points
    at; [None] stands for an access outside a vector (undefined in C++,
    rejected by the [assert]s of the header). *)

(* what the template asks of its element type *)
Class Element (T : Type) : Type := {
  T_default : T;      (* T()       *)
  T_of_id : Z -> T    (* T(nodeId) *)
}.

Module Sparse.

Record SparseData (T : Type) : Type := mkSparseData {
  sparseIndex : list Z;      (* std::vector<int> *)
  denseData : list T         (* std::vector<T>   *)
}.
Arguments mkSparseData {T} _ _.
Arguments sparseIndex {T} _.
Arguments denseData {T} _.

Section SparseData.
Context {T : Type} `{Element T}.
Local Abbreviation SparseData := (SparseData T).

(* sparseIndex[i], with the int index converted to size_t *)
Definition sparse_at (d : SparseData) (i : Z) : option Z :=
  if i <? 0 then None else sparseIndex d !! Z.to_nat i.

(* the slot a reference denseData[k] designates *)
Definition dense_ref (d : SparseData) (k : Z) : option nat :=
  if k <? 0 then None
  else if k <? Z.of_nat (length (denseData d)) then Some (Z.to_nat k)
  else None.

Definition Reset (sparseSize : nat) : SparseData :=
  {| sparseIndex := replicate sparseSize 0;
     denseData := [T_default] |}.

Definition InsertAtIndex (d : SparseData) (data : T) (index : Z)
  : option SparseData :=
  s ← sparse_at d index;
  if s =? 0 then
    let dense' := denseData d ++ [data] in
    Some {| sparseIndex :=
              <[Z.to_nat index := wrap_i32 (Z.of_nat (length dense') - 1)]>
                (sparseIndex d);
            denseData := dense' |}
  else
    k ← dense_ref d s;
    Some {| sparseIndex := sparseIndex d;
            denseData := <[k := data]> (denseData d) |}.

(* operator[] *)
Definition at_index (d : SparseData) (i : Z) : option nat :=
  s ← sparse_at d i; dense_ref d s.

Definition InsertINode (d : SparseData) (nodeId : Z)
  : option (SparseData * nat) :=
  if nodeId <? 0 then k ← dense_ref d 0; Some (d, k)
  else
    d' ← InsertAtIndex d (T_of_id nodeId) nodeId;
    k ← at_index d' nodeId;
    Some (d', k).

Definition InsertINodeIfNotPresent (d : SparseData) (nodeId : Z)
  : option (SparseData * nat) :=
  if nodeId <? 0 then k ← dense_ref d 0; Some (d, k)
  else
    s ← sparse_at d nodeId;
    d' ← (if s =? 0 then InsertAtIndex d (T_of_id nodeId) nodeId
          else Some d);
    k ← at_index d' nodeId;
    Some (d', k).

Definition isSet (d : SparseData) (i : Z) : option bool :=
  s ← sparse_at d i; Some (negb (s =? 0)).

(** The life of a registry between two resets: insertions, and writes
    through the references handed out for non-negative identifiers (none
    of which is slot zero). *)
Inductive step : SparseData -> SparseData -> Prop :=
| step_insert d id d' k : InsertINode d id = Some (d', k) -> step d d'
| step_fetch d id d' k :
    InsertINodeIfNotPresent d id = Some (d', k) -> step d d'
| step_write d (k : nat) v :
    (0 < k)%nat ->
    step d {| sparseIndex := sparseIndex d;
              denseData := <[k := v]> (denseData d) |}.

Definition evolves : SparseData -> SparseData -> Prop := rtc step.

Definition reached (cap : nat) (d : SparseData) : Prop :=
  evolves (Reset cap) d.

(* the number of identifiers that own a slot *)
Definition used (l : list Z) : nat := length (filter (fun s => s ≠ 0) l).

(** The invariant of a registry of capacity [cap] between two resets. *)
Definition inv (cap : nat) (d : SparseData) : Prop :=
  length (sparseIndex d) = cap /\
  length (denseData d) = S (used (sparseIndex d)) /\
  (forall i s, sparseIndex d !! i = Some s ->
               0 <= s < Z.of_nat (length (denseData d))).

End SparseData.
End Sparse.

(** ** Numbers and vectors

    The engine computes costs and coordinates in C++ [float].  The search
    is embedded over an interface of the operations it applies to them, so
    that every statement below holds for whatever these operations do
    (rounding, infinities and NaN included). *)

Class FloatOps : Type := {
  float : Type;
  f_of_Z : Z -> float;                    (* conversion from an integer *)
  f_lit : Z -> Z -> float;                (* the literal n/d, as in 0.995f *)
  f_inf : float;                          (* +infinity *)
  f_add : float -> float -> float;
  f_sub : float -> float -> float;
  f_mul : float -> float -> float;
  f_div : float -> float -> float;
  f_sqrt : float -> float;
  f_abs : float -> float;                 (* math::fabs *)
  f_lt : float -> float -> bool;          (* a <  b *)
  f_le : float -> float -> bool;          (* a <= b *)
  f_to_u32 : float -> Z                   (* conversion to uint32_t *)
}.

Section Vectors.
Context `{FloatOps}.

Definition f_gt (a b : float) : bool := f_lt b a.   (* a >  b *)
Definition f_ge (a b : float) : bool := f_le b a.   (* a >= b *)
Definition f_max (a b : float) : float := if f_lt a b then b else a.
Definition f_bool (b : bool) : float := f_of_Z (if b then 1 else 0).

Record float2 : Type := mkFloat2 { px : float; py : float }.
Record float3 : Type := mkFloat3 { vx : float; vy : float; vz : float }.

Definition ZeroVector : float3 := mkFloat3 (f_of_Z 0) (f_of_Z 0) (f_of_Z 0).

(* {p.x, 0.0f, p.y} *)
Definition lift (p : float2) : float3 := mkFloat3 (px p) (f_of_Z 0) (py p).

Definition v_sub (a b : float3) : float3 :=
  mkFloat3 (f_sub (vx a) (vx b)) (f_sub (vy a) (vy b)) (f_sub (vz a) (vz b)).

Definition v_dot (a b : float3) : float :=
  f_add (f_add (f_mul (vx a) (vx b)) (f_mul (vy a) (vy b)))
        (f_mul (vz a) (vz b)).

Definition SqLength2D (a : float3) : float :=
  f_add (f_mul (vx a) (vx a)) (f_mul (vz a) (vz a)).

Definition distance (a b : float3) : float :=
  let d := v_sub a b in f_sqrt (v_dot d d).

Definition Square (a : float) : float := f_mul a a.
End Vectors.

(** [float3.h] is not part of the sources at hand: the comparison of two
    points and the guarded normalisation are taken as given. *)
Class Float3Ops `{FloatOps} : Type := {
  float3_ne : float3 -> float3 -> bool;     (* operator!= *)
  SafeNormalize : float3 -> float3
}.

(** The compile-time configuration ([PathDefines.h], [GlobalConstants.h],
    [Node.h]), none of which is among the sources at hand. *)
Class Config `{FloatOps} : Type := {
  SQUARE_SIZE : Z;
  QTPFS_MAX_NETPOINTS_PER_NODE_EDGE : nat;
  QTPFS_MAX_SMOOTHING_ITERATIONS : nat;
  QTPFS_CLOSED_NODE_COST : float;
  QTPFS_SUPPORT_PARTIAL_SEARCHES : bool;    (* #ifdef *)
  QTPFS_SMOOTH_PATHS : bool;                (* #ifdef *)
  QTPFS_SHARE_PATH_MIN_SIZE : Z;
  QTPFS_SHARE_PATH_MAX_SIZE : Z;
  BAD_HASH : Z;
  REL_NGB_EDGE_T : Z;
  REL_NGB_EDGE_R : Z;
  REL_NGB_EDGE_B : Z;
  REL_NGB_EDGE_L : Z
}.

(** ** The spatial index, as the search reads it

    [Node.h] and [NodeLayer.h] are not among the sources at hand.  A node
    is the record of what the search asks of it, a layer the functions the
    search calls; nothing is assumed about how their values relate. *)

Section World.
Context `{FloatOps}.

Record INode : Type := mkINode {
  GetIndex : Z;
  GetNodeNumber : Z;
  xmin : Z; zmin : Z; xmax : Z; zmax : Z;
  xmid : Z; zmid : Z;
  xsize : Z;
  GetMoveCost : float;
  AllSquaresImpassable : bool;
  GetNeighbors : list Z;
  (* GetNeighborEdgeTransitionPoint(i) is the i-th entry *)
  netpoints : list float2;
  (* GetNeighborRelation, by the index of the other node *)
  GetNeighborRelation : Z -> Z
}.

Record SRectangle : Type := mkSRectangle { x1 : Z; z1 : Z; x2 : Z; z2 : Z }.

Record NodeLayer : Type := mkNodeLayer {
  GetNode : Z -> Z -> INode;
  GetPoolNode : Z -> INode;
  GetNearestNodeInArea : SRectangle -> Z * Z -> option INode;
  GetMaxNodesAlloced : nat;
  GetNumLeafNodes : nat;
  GetRootMask : Z;
  GetNodelayer : Z
}.

(** What the search reads outside the layer: the map dimensions, the
    best speed modifier of the layer, the footprint of the movement
    class and its straight-line probe. *)
Record Globals : Type := mkGlobals {
  mapx : Z; mapy : Z;
  maxRelSpeedMod : float;
  moveDef_xsize : Z;
  DoRawSearch : float3 -> float3 -> bool
}.

(** Modelled from the spec: [SearchNode] of [Node.h], the per-node search
    record: cost-so-far, heuristic cost, the priority under which the node
    was last pushed, a predecessor reference into the same registry, and
    the chosen crossing point.  A record created for an identifier starts
    with no predecessor and costs [f_inf]; the default-constructed record
    (the dummy of the registry) is taken to be the one of identifier 0. *)
Record SearchNode : Type := mkSearchNode {
  index : Z;
  fCost : float;
  gCost : float;
  hCost : float;
  prevNode : option nat;
  selectedNetpoint : float2
}.

Definition SearchNode_of_id (nodeId : Z) : SearchNode :=
  mkSearchNode nodeId f_inf f_inf f_inf None
               (mkFloat2 (f_of_Z 0) (f_of_Z 0)).

#[export] Instance SearchNode_Element : Element SearchNode :=
  {| T_default := SearchNode_of_id 0; T_of_id := SearchNode_of_id |}.

Definition GetHeapPriority (n : SearchNode) : float := fCost n.

Definition SetPrevNode (n : SearchNode) (p : option nat) : SearchNode :=
  mkSearchNode (index n) (fCost n) (gCost n) (hCost n) p
               (selectedNetpoint n).

Definition SetPathCosts (n : SearchNode) (g h : float) : SearchNode :=
  mkSearchNode (index n) (f_add g h) g h (prevNode n) (selectedNetpoint n).

Definition SetNeighborEdgeTransitionPoint (n : SearchNode) (p : float2)
  : SearchNode :=
  mkSearchNode (index n) (fCost n) (gCost n) (hCost n) (prevNode n) p.

(** *** PathThreads.h: the open list *)

Record SearchQueueNode : Type := mkSearchQueueNode {
  heapPriority : float;
  nodeIndex : Z
}.

(** [std::priority_queue] under [std::greater]: the entry on top is one of
    least priority.  The queue is kept as the list of its entries in the
    order they would be popped.  The standard leaves the order among
    entries of equal priority to the implementation; here the older entry
    comes first, and no statement below depends on it. *)
Definition SearchPriorityQueue : Type := list SearchQueueNode.

Fixpoint emplace (e : SearchQueueNode) (q : SearchPriorityQueue)
  : SearchPriorityQueue :=
  match q with
  | [] => [e]
  | e' :: q' =>
      if f_gt (heapPriority e') (heapPriority e) then e :: e' :: q'
      else e' :: emplace e q'
  end.

Inductive SearchType : Type := PATH_SEARCH_ASTAR | PATH_SEARCH_DIJKSTRA.

(** *** PathSearch.h: the members of a search

    Pointers to search records are slots of [allSearchedNodes]; the
    worker's thread data (registry and open list) is carried in the
    state.  [Init] reserves the backing store for every leaf node, so
    growing it moves no record. *)
Record PathSearch : Type := mkPathSearch {
  srcPoint : float3;
  tgtPoint : float3;
  rawPathCheck : bool;
  searchType : SearchType;
  badGoal : bool;
  haveFullPath : bool;
  havePartPath : bool;
  hCostMult : float;
  srcSearchNode : nat;
  tgtSearchNode : nat;
  curSearchNode : option nat;
  nextSearchNode : option nat;
  minSearchNode : nat;
  netPoints : list float2;
  gDists : list float;
  hDists : list float;
  gCosts : list float;
  hCosts : list float;
  allSearchedNodes : Sparse.SparseData SearchNode;
  openNodes : SearchPriorityQueue
}.

(** Modelled from the spec: [IPath] of [Path.h], the route output: an
    ordered sequence of points whose first and last entries are the
    literal source and target points, a bounding box and the two outcome
    flags; the identifier and the sharing hash stand for the rest of the
    object. *)
Record IPath : Type := mkIPath {
  pathID : Z;
  pathHash : Z;
  points : list float3;
  boundingBox : float3 * float3;
  hasFullPath : bool;
  hasPartialPath : bool
}.
End World.

(** How [IPath::SetBoundingBox] derives the box from the points, and what
    the accessors of [IPath] do with an index that is not one of its
    points: [Path.h] is not among the sources at hand and the spec is
    silent on such an index, so a route may refuse it ([None]: the access
    is an error) or answer in any way.  A negative index stands for the
    unsigned value it wraps to. *)
Class PathOps `{FloatOps} : Type := {
  bounds_of : list float3 -> float3 * float3;
  point_beyond : list float3 -> Z -> option float3;
  set_point_beyond : list float3 -> Z -> float3 -> option (list float3)
}.

(** ** PathSearch.cpp: the search *)

Section Search.
Context `{FloatOps} `{!Float3Ops} `{!Config} `{!PathOps}.

(* field updates of the search state *)
Definition with_flags (s : PathSearch) (full part : bool) : PathSearch :=
  mkPathSearch (srcPoint s) (tgtPoint s) (rawPathCheck s) (searchType s)
    (badGoal s) full part (hCostMult s) (srcSearchNode s)
    (tgtSearchNode s) (curSearchNode s) (nextSearchNode s)
    (minSearchNode s) (netPoints s) (gDists s) (hDists s) (gCosts s)
    (hCosts s) (allSearchedNodes s) (openNodes s).

Definition with_hCostMult (s : PathSearch) (m : float) : PathSearch :=
  mkPathSearch (srcPoint s) (tgtPoint s) (rawPathCheck s) (searchType s)
    (badGoal s) (haveFullPath s) (havePartPath s) m (srcSearchNode s)
    (tgtSearchNode s) (curSearchNode s) (nextSearchNode s)
    (minSearchNode s) (netPoints s) (gDists s) (hDists s) (gCosts s)
    (hCosts s) (allSearchedNodes s) (openNodes s).

Definition with_target (s : PathSearch) (p : float3) (t : nat)
  : PathSearch :=
  mkPathSearch (srcPoint s) p (rawPathCheck s) (searchType s)
    (badGoal s) (haveFullPath s) (havePartPath s) (hCostMult s)
    (srcSearchNode s) t (curSearchNode s) (nextSearchNode s)
    (minSearchNode s) (netPoints s) (gDists s) (hDists s) (gCosts s)
    (hCosts s) (allSearchedNodes s) (openNodes s).

Definition with_cursor (s : PathSearch) (cur nxt : option nat) (m : nat)
  : PathSearch :=
  mkPathSearch (srcPoint s) (tgtPoint s) (rawPathCheck s) (searchType s)
    (badGoal s) (haveFullPath s) (havePartPath s) (hCostMult s)
    (srcSearchNode s) (tgtSearchNode s) cur nxt m (netPoints s)
    (gDists s) (hDists s) (gCosts s) (hCosts s) (allSearchedNodes s)
    (openNodes s).

Definition with_scratch (s : PathSearch) (np : list float2)
  (gd hd gc hc : list float) : PathSearch :=
  mkPathSearch (srcPoint s) (tgtPoint s) (rawPathCheck s) (searchType s)
    (badGoal s) (haveFullPath s) (havePartPath s) (hCostMult s)
    (srcSearchNode s) (tgtSearchNode s) (curSearchNode s)
    (nextSearchNode s) (minSearchNode s) np gd hd gc hc
    (allSearchedNodes s) (openNodes s).

Definition with_nodes (s : PathSearch) (d : Sparse.SparseData SearchNode)
  : PathSearch :=
  mkPathSearch (srcPoint s) (tgtPoint s) (rawPathCheck s) (searchType s)
    (badGoal s) (haveFullPath s) (havePartPath s) (hCostMult s)
    (srcSearchNode s) (tgtSearchNode s) (curSearchNode s)
    (nextSearchNode s) (minSearchNode s) (netPoints s) (gDists s)
    (hDists s) (gCosts s) (hCosts s) d (openNodes s).

Definition with_queue (s : PathSearch) (q : SearchPriorityQueue)
  : PathSearch :=
  mkPathSearch (srcPoint s) (tgtPoint s) (rawPathCheck s) (searchType s)
    (badGoal s) (haveFullPath s) (havePartPath s) (hCostMult s)
    (srcSearchNode s) (tgtSearchNode s) (curSearchNode s)
    (nextSearchNode s) (minSearchNode s) (netPoints s) (gDists s)
    (hDists s) (gCosts s) (hCosts s) (allSearchedNodes s) q.

(* the record a pointer designates, and a write through a pointer *)
Definition node_at (s : PathSearch) (k : nat) : option SearchNode :=
  Sparse.denseData (allSearchedNodes s) !! k.

Definition write_node (s : PathSearch) (k : nat) (n : SearchNode)
  : PathSearch :=
  with_nodes s
    (Sparse.mkSparseData (Sparse.sparseIndex (allSearchedNodes s))
       (<[k := n]> (Sparse.denseData (allSearchedNodes s)))).

(* v / SQUARE_SIZE, converted to an integer *)
Definition square_of (v : float) : Z :=
  f_to_u32 (f_div v (f_of_Z SQUARE_SIZE)).

Definition ResetQueue (s : PathSearch) : PathSearch := with_queue s [].

Definition InitializeThread (G : Globals) (L : NodeLayer) (s : PathSearch)
  : option PathSearch :=
  (* searchThreadData->Init(...) *)
  let d0 := Sparse.Reset (T := SearchNode) (GetMaxNodesAlloced L) in
  let srcNode := GetNode L (square_of (vx (srcPoint s)))
                           (square_of (vz (srcPoint s))) in
  let tgtNode := GetNode L (square_of (vx (tgtPoint s)))
                           (square_of (vz (tgtPoint s))) in
  let alt :=
    if AllSquaresImpassable tgtNode then
      GetNearestNodeInArea L
        (mkSRectangle (Z.max (wrap_i32 (xmin tgtNode) - 16) 0)
                      (Z.max (wrap_i32 (zmin tgtNode) - 16) 0)
                      (Z.min (wrap_i32 (xmax tgtNode) + 16) (mapx G))
                      (Z.min (wrap_i32 (zmax tgtNode) + 16) (mapy G)))
        (square_of (vx (tgtPoint s)), square_of (vz (tgtPoint s)))
    else None in
  let tgtNode' := match alt with Some n => n | None => tgtNode end in
  let bad := match alt with Some _ => true | None => false end in
  '(d1, src) ← Sparse.InsertINode d0 (GetIndex srcNode);
  '(d2, tgt) ← Sparse.InsertINodeIfNotPresent d1 (GetIndex tgtNode');
  Some (mkPathSearch (srcPoint s) (tgtPoint s) (rawPathCheck s)
          (searchType s) bad (haveFullPath s) (havePartPath s)
          (hCostMult s) src tgt None None src (netPoints s) (gDists s)
          (hDists s) (gCosts s) (hCosts s) d2 []).

Definition ResetState (s : PathSearch) (node : nat) : option PathSearch :=
  let zero := f_of_Z 0 in
  let rest := replicate (QTPFS_MAX_NETPOINTS_PER_NODE_EDGE - 1) zero in
  let hd0 := distance (srcPoint s) (tgtPoint s) in
  let s1 :=
    with_scratch s
      (mkFloat2 (vx (srcPoint s)) (vz (srcPoint s))
         :: replicate (QTPFS_MAX_NETPOINTS_PER_NODE_EDGE - 1)
              (mkFloat2 zero zero))
      (zero :: rest) (hd0 :: rest) (zero :: rest)
      (f_mul hd0 (hCostMult s) :: rest) in
  n ← node_at s1 node;
  Some (with_queue s1 (emplace (mkSearchQueueNode zero (index n)) [])).

Definition UpdateNode (s : PathSearch) (nextNode : nat)
  (prev : option nat) (netPointIdx : nat) : option PathSearch :=
  n ← node_at s nextNode;
  g ← gCosts s !! netPointIdx;
  h ← hCosts s !! netPointIdx;
  p ← netPoints s !! netPointIdx;
  Some (write_node s nextNode
          (SetNeighborEdgeTransitionPoint
             (SetPathCosts (SetPrevNode n prev) g h) p)).

(** One candidate crossing point [j] of the edge to neighbour [i]: the
    body of the inner loop of [IterateNodeNeighbors], for more than one
    candidate per edge (the variant compiled for a single candidate reads
    the costs off the node itself and is left out). *)
Definition eval_netpoint (curNode : INode)
  (curPoint : float3) (isTarget : bool) (nxtNode : option INode)
  (i j : nat) (st : PathSearch * nat) : option (PathSearch * nat) :=
  let '(s, netPointIdx) := st in
  p ← netpoints curNode
        !! (1 + i * QTPFS_MAX_NETPOINTS_PER_NODE_EDGE + j)%nat;
  cur ← curSearchNode s;
  curRec ← node_at s cur;
  let gd := distance curPoint (lift p) in
  let hd := distance (tgtPoint s) (lift p) in
  let curNodeSanitizedCost :=
    if AllSquaresImpassable curNode then QTPFS_CLOSED_NODE_COST
    else GetMoveCost curNode in
  let g0 := f_add (gCost curRec) (f_mul curNodeSanitizedCost gd) in
  let h := f_mul (f_mul hd (hCostMult s)) (f_bool (negb isTarget)) in
  g ← (if isTarget then
         n ← nxtNode; Some (f_add g0 (f_mul (GetMoveCost n) hd))
       else Some g0);
  let s' :=
    with_scratch s (<[j := p]> (netPoints s)) (<[j := gd]> (gDists s))
      (<[j := hd]> (hDists s)) (<[j := g]> (gCosts s))
      (<[j := h]> (hCosts s)) in
  gi ← gCosts s' !! netPointIdx;
  hi ← hCosts s' !! netPointIdx;
  Some (s', if f_lt (f_add g h) (f_add gi hi) then j else netPointIdx).

Fixpoint eval_netpoints (curNode : INode)
  (curPoint : float3) (isTarget : bool) (nxtNode : option INode)
  (i : nat) (js : list nat) (st : PathSearch * nat)
  : option (PathSearch * nat) :=
  match js with
  | [] => Some st
  | j :: js' =>
      st' ← eval_netpoint curNode curPoint isTarget nxtNode i j st;
      eval_netpoints curNode curPoint isTarget nxtNode i js' st'
  end.

(** The body of the loop of [IterateNodeNeighbors] for neighbour [i], in
    its three parts: the record of the neighbour is fetched (or created),
    the candidate crossing points are evaluated and one is selected, and
    the selected candidate is accepted or not. *)
Definition fetch_neighbor (nxtNodesId : Z) (s : PathSearch)
  : option (PathSearch * nat) :=
  '(d, nxt) ← Sparse.InsertINodeIfNotPresent (allSearchedNodes s)
                nxtNodesId;
  Some (with_cursor (with_nodes s d) (curSearchNode s) (Some nxt)
          (minSearchNode s), nxt).

Definition select_netpoint (L : NodeLayer) (curNode : INode)
  (curPoint : float3) (i : nat) (nxtNodesId : Z) (nxt : nat)
  (s : PathSearch) : option (PathSearch * nat) :=
  let isTarget := Nat.eqb nxt (tgtSearchNode s) in
  let nxtNode := if isTarget then Some (GetPoolNode L nxtNodesId)
                 else None in
  eval_netpoints curNode curPoint isTarget nxtNode i
    (seq 0 QTPFS_MAX_NETPOINTS_PER_NODE_EDGE) (s, 0%nat).

Definition relax (nxt netPointIdx : nat) (s : PathSearch)
  : option PathSearch :=
  g ← gCosts s !! netPointIdx;
  nxtRec ← node_at s nxt;
  if f_ge g (gCost nxtRec) then Some s
  else
    s' ← UpdateNode s nxt (curSearchNode s) netPointIdx;
    n ← node_at s' nxt;
    Some (with_queue s'
            (emplace (mkSearchQueueNode (GetHeapPriority n) (index n))
               (openNodes s'))).

Definition relax_neighbor (L : NodeLayer) (curNode : INode)
  (curPoint : float3) (i : nat) (nxtNodesId : Z) (s : PathSearch)
  : option PathSearch :=
  '(s1, nxt) ← fetch_neighbor nxtNodesId s;
  '(s2, netPointIdx) ←
    select_netpoint L curNode curPoint i nxtNodesId nxt s1;
  relax nxt netPointIdx s2.

Fixpoint relax_neighbors (L : NodeLayer) (curNode : INode)
  (curPoint : float3) (i : nat) (nxtNodes : list Z) (s : PathSearch)
  : option PathSearch :=
  match nxtNodes with
  | [] => Some s
  | id :: rest =>
      s' ← relax_neighbor L curNode curPoint i id s;
      relax_neighbors L curNode curPoint (S i) rest s'
  end.

Definition IterateNodeNeighbors (L : NodeLayer) (curNode : INode)
  (s : PathSearch) : option PathSearch :=
  cur ← curSearchNode s;
  curRec ← node_at s cur;
  let curPoint := lift (selectedNetpoint curRec) in
  relax_neighbors L curNode curPoint 0 (GetNeighbors curNode) s.

Definition IterateNodes (L : NodeLayer) (s : PathSearch)
  : option PathSearch :=
  match openNodes s with
  | [] => None
  | curOpenNode :: rest =>
      cur ← Sparse.at_index (allSearchedNodes s) (nodeIndex curOpenNode);
      let s1 := with_queue
                  (with_cursor s (Some cur) (nextSearchNode s)
                     (minSearchNode s)) rest in
      if Nat.eqb cur (tgtSearchNode s1) then Some s1
      else
        let curNode := GetPoolNode L (nodeIndex curOpenNode) in
        curRec ← node_at s1 cur;
        if f_lt (GetHeapPriority curRec) (heapPriority curOpenNode)
        then Some s1
        else
          s2 ← (if QTPFS_SUPPORT_PARTIAL_SEARCHES then
                  minRec ← node_at s1 (minSearchNode s1);
                  Some (if f_lt (hCost curRec) (hCost minRec)
                        then with_cursor s1 (curSearchNode s1)
                               (nextSearchNode s1) cur
                        else s1)
                else Some s1);
          IterateNodeNeighbors L curNode s2
  end.

(** The [while] loop of [ExecutePathSearch]; [None] when the fuel does
    not suffice or an access leaves a vector. *)
Fixpoint search_loop (fuel : nat) (L : NodeLayer) (s : PathSearch)
  : option PathSearch :=
  match openNodes s with
  | [] => Some s
  | _ :: _ =>
      match fuel with
      | O => None
      | S fuel' =>
          s1 ← IterateNodes L s;
          let full :=
            bool_decide (curSearchNode s1 = Some (tgtSearchNode s1)) in
          let s2 := with_flags s1 full (havePartPath s1) in
          search_loop fuel' L (if full then ResetQueue s2 else s2)
      end
  end.

(** [ExecutePathSearch] up to its loop: the heuristic multiplier, the
    scratch arrays, the seed of the open list and the source record. *)
Definition seed (G : Globals) (s : PathSearch) : option PathSearch :=
  let s0 :=
    with_hCostMult s
      match searchType s with
      | PATH_SEARCH_ASTAR => f_div (f_of_Z 1) (maxRelSpeedMod G)
      | PATH_SEARCH_DIJKSTRA => f_of_Z 0
      end in
  s1 ← ResetState s0 (srcSearchNode s0);
  UpdateNode s1 (srcSearchNode s1) None 0.

(** [ExecutePathSearch] past its loop: the partial-path flag and the
    retargeting of a partial result. *)
Definition conclude (L : NodeLayer) (s3 : PathSearch)
  : option (bool * PathSearch) :=
  let part := negb (Nat.eqb (minSearchNode s3) (srcSearchNode s3)) in
  let s4 := with_flags s3 (haveFullPath s3) part in
  s5 ← (if QTPFS_SUPPORT_PARTIAL_SEARCHES
             && (negb (haveFullPath s4) && havePartPath s4)
        then
          minRec ← node_at s4 (minSearchNode s4);
          let minNode := GetPoolNode L (index minRec) in
          Some (with_target s4
                  (mkFloat3 (f_of_Z (wrap_u32 (xmid minNode * SQUARE_SIZE)))
                            (vy (tgtPoint s4))
                            (f_of_Z (wrap_u32 (zmid minNode * SQUARE_SIZE))))
                  (minSearchNode s4))
        else Some s4);
  Some (haveFullPath s5 || havePartPath s5, s5).

Definition ExecutePathSearch (fuel : nat) (G : Globals) (L : NodeLayer)
  (s : PathSearch) : option (bool * PathSearch) :=
  s2 ← seed G s;
  s3 ← search_loop fuel L s2;
  conclude L s3.

Definition ExecuteRawSearch (G : Globals) (s : PathSearch)
  : bool * PathSearch :=
  let full := DoRawSearch G (srcPoint s) (tgtPoint s) in
  (full, with_flags s full (havePartPath s)).

Definition Execute (fuel : nat) (G : Globals) (L : NodeLayer)
  (s : PathSearch) : option (bool * PathSearch) :=
  let s0 :=
    with_flags s (Nat.eqb (srcSearchNode s) (tgtSearchNode s)) false in
  if haveFullPath s0 then Some (true, s0)
  else if rawPathCheck s0 then Some (ExecuteRawSearch G s0)
  else ExecutePathSearch fuel G L s0.

(** *** The vocabulary of the search statements *)

(** What a search never changes once a worker is bound, short of
    retargeting a partial result. *)
Definition request_of (s : PathSearch)
  : float3 * float3 * bool * SearchType * bool * nat * nat :=
  (srcPoint s, tgtPoint s, rawPathCheck s, searchType s, badGoal s,
   srcSearchNode s, tgtSearchNode s).

(** Where a search stands: the record last popped, the lowest-heuristic
    record, and the two outcomes. *)
Definition cursor_of (s : PathSearch) : option nat * nat * bool * bool :=
  (curSearchNode s, minSearchNode s, haveFullPath s, havePartPath s).

(** The state of a search but for its scratch arrays. *)
Definition but_scratch (s : PathSearch) : PathSearch :=
  with_scratch s [] [] [] [] [].
End Search.

(** ** Route output, trace-back, smoothing and finalization *)

Section Route.
Context `{FloatOps} `{!Float3Ops} `{!Config} `{!PathOps}.

(** Modelled from the spec: the operations of [IPath] the search calls.
    The waypoints are a vector whose first and last entries are the source
    and target points; allocation gives null points; an index of the
    vector reads or writes that point, any other index is for the route
    to deal with ([point_beyond], [set_point_beyond]). *)
Definition NumPoints (p : IPath) : nat := length (points p).

Definition with_points (p : IPath) (ps : list float3) : IPath :=
  mkIPath (pathID p) (pathHash p) ps (boundingBox p) (hasFullPath p)
          (hasPartialPath p).

Definition AllocPoints (p : IPath) (n : nat) : IPath :=
  with_points p (replicate n ZeroVector).

Definition CopyPoints (p src : IPath) : IPath := with_points p (points src).

(* is i the index of a point? *)
Definition in_route (p : IPath) (i : Z) : bool :=
  (0 <=? i) && (i <? Z.of_nat (NumPoints p)).

(* points[i], i an unsigned value *)
Definition GetPoint (p : IPath) (i : Z) : option float3 :=
  if in_route p i then points p !! Z.to_nat i
  else point_beyond (points p) i.

Definition SetPoint (p : IPath) (i : Z) (v : float3) : option IPath :=
  if in_route p i
  then Some (with_points p (<[Z.to_nat i := v]> (points p)))
  else ps ← set_point_beyond (points p) i v; Some (with_points p ps).

Definition SetSourcePoint (p : IPath) (v : float3) : option IPath :=
  SetPoint p 0 v.

Definition SetTargetPoint (p : IPath) (v : float3) : option IPath :=
  SetPoint p (Z.of_nat (NumPoints p) - 1) v.

Definition SetBoundingBox (p : IPath) : IPath :=
  mkIPath (pathID p) (pathHash p) (points p) (bounds_of (points p))
          (hasFullPath p) (hasPartialPath p).

Definition SetHasFullPath (p : IPath) (b : bool) : IPath :=
  mkIPath (pathID p) (pathHash p) (points p) (boundingBox p) b
          (hasPartialPath p).

Definition SetHasPartialPath (p : IPath) (b : bool) : IPath :=
  mkIPath (pathID p) (pathHash p) (points p) (boundingBox p)
          (hasFullPath p) b.

(** The first loop of [TracePath]: from [tmpNode] along the predecessor
    links, pushing crossing points at the front of the deque. *)
Fixpoint trace_loop (fuel : nat) (s : PathSearch) (tmpNode : nat)
  (prvNode : option nat) (prvPoint : float3) (deque : list float3)
  : option (PathSearch * list float3) :=
  match prvNode with
  | None => Some (s, deque)
  | Some prv =>
      if Nat.eqb tmpNode (srcSearchNode s) then Some (s, deque)
      else
        match fuel with
        | O => None
        | S fuel' =>
            tmpRec ← node_at s tmpNode;
            let tmpPoint := lift (selectedNetpoint tmpRec) in
            let deque' := if float3_ne tmpPoint prvPoint
                          then tmpPoint :: deque else deque in
            let s' := if QTPFS_SMOOTH_PATHS then s
                      else write_node s tmpNode (SetPrevNode tmpRec None) in
            prvRec ← node_at s' prv;
            trace_loop fuel' s' prv (prevNode prvRec) tmpPoint deque'
        end
  end.

(** The second loop of [TracePath]: waypoints [1 .. N-2]. *)
Fixpoint set_waypoints (deque : list float3) (p : IPath) : option IPath :=
  match deque with
  | [] => Some p
  | front :: rest =>
      p' ← SetPoint p
             (Z.of_nat (NumPoints p) - Z.of_nat (length deque) - 1) front;
      set_waypoints rest p'
  end.

Definition TracePath (fuel : nat) (s : PathSearch) (path : IPath)
  : option (PathSearch * IPath) :=
  '(s1, deque) ←
    (if Nat.eqb (srcSearchNode s) (tgtSearchNode s) then Some (s, [])
     else
       tgtRec ← node_at s (tgtSearchNode s);
       trace_loop fuel s (tgtSearchNode s) (prevNode tgtRec) (tgtPoint s)
         []);
  let path1 := match deque with
               | [] => path
               | _ :: _ => AllocPoints path (length deque + 2)
               end in
  path2 ← set_waypoints deque path1;
  path3 ← SetSourcePoint path2 (srcPoint s1);
  path4 ← SetTargetPoint path3 (tgtPoint s1);
  Some (s1, path4).

(** *** The vocabulary of the trace-back statement *)

(** The records strictly between [n] (included) and the end of the
    predecessor links that start at [n]: the links end at the source
    record, or at a record without predecessor. *)
Inductive links (s : PathSearch) : nat -> list nat -> Prop :=
| links_source n r :
    n = srcSearchNode s -> node_at s n = Some r -> links s n []
| links_end n r :
    node_at s n = Some r -> prevNode r = None -> links s n []
| links_step n r m ns :
    n <> srcSearchNode s -> node_at s n = Some r ->
    prevNode r = Some m -> links s m ns -> links s n (n :: ns).

(** The crossing point chosen to reach each of these records. *)
Definition crossing_points (s : PathSearch) (ns : list nat)
  : list float3 :=
  omap (fun n => (fun r => lift (selectedNetpoint r)) <$> node_at s n) ns.

(** Dropping every point that equals the one before it, [prv] being the
    one before the first. *)
Fixpoint skip_repeats (prv : float3) (ps : list float3) : list float3 :=
  match ps with
  | [] => []
  | p :: ps' =>
      if float3_ne p prv then p :: skip_repeats p ps'
      else skip_repeats p ps'
  end.

(* n * SQUARE_SIZE for an unsigned n, as a float *)
Definition to_world (n : Z) : float := f_of_Z (wrap_u32 (n * SQUARE_SIZE)).

Definition with_x (v : float3) (a : float) : float3 :=
  mkFloat3 a (vy v) (vz v).
Definition with_z (v : float3) (a : float) : float3 :=
  mkFloat3 (vx v) (vy v) a.

(** The body of the loop of [SmoothPathIter] for the triplet ending at
    waypoint [ni]: the new position of the middle waypoint, if it moves. *)
Definition smooth_triplet (nn0 nn1 : INode) (p0 p1 p2 : float3)
  : option float3 :=
  let ngbRel := GetNeighborRelation nn0 (GetIndex nn1) in
  let p1p0 := SafeNormalize (v_sub p1 p0) in
  let p2p1 := SafeNormalize (v_sub p2 p1) in
  let p2p0 := SafeNormalize (v_sub p2 p0) in
  let dot := v_dot p1p0 p2p1 in
  if f_ge dot (f_lit 995 1000) then None
  else
    let hEdge := negb (Z.land ngbRel REL_NGB_EDGE_T =? 0)
                 || negb (Z.land ngbRel REL_NGB_EDGE_B =? 0) in
    let vEdge := negb (Z.land ngbRel REL_NGB_EDGE_L =? 0)
                 || negb (Z.land ngbRel REL_NGB_EDGE_R =? 0) in
    let xmin' := Z.max (xmin nn1) (xmin nn0) in
    let zmin' := Z.max (zmin nn1) (zmin nn0) in
    let xmax' := Z.min (xmax nn1) (xmax nn0) in
    let zmax' := Z.min (zmax nn1) (zmax nn0) in
    let zero := f_of_Z 0 in
    let eps := f_lit 1 1000 in
    let dfx := if f_gt (vx p2p0) zero
               then f_sub (to_world (xmax nn0)) (vx p0)
               else f_sub (to_world (xmin nn0)) (vx p0) in
    let dfz := if f_gt (vz p2p0) zero
               then f_sub (to_world (zmax nn0)) (vz p0)
               else f_sub (to_world (zmin nn0)) (vz p0) in
    let dx := if f_gt (f_abs (vx p2p0)) eps then vx p2p0 else eps in
    let dz := if f_gt (f_abs (vz p2p0)) eps then vz p2p0 else eps in
    let tx := f_div dfx dx in
    let tz := f_div dfz dz in
    let pi0 := ZeroVector in
    let pi1 := if hEdge
               then with_z (with_x pi0 (f_add (vx p0) (f_mul (vx p2p0) tz)))
                           (vz p1)
               else pi0 in
    let pi2 := if vEdge
               then with_z (with_x pi1 (vx p1))
                           (f_add (vz p0) (f_mul (vz p2p0) tx))
               else pi1 in
    let ok := (f_ge (vx pi2) (to_world xmin')
               && f_le (vx pi2) (to_world xmax'))
              && (f_ge (vz pi2) (to_world zmin')
                  && f_le (vz pi2) (to_world zmax')) in
    if ok then Some pi2
    else if negb (Bool.eqb hEdge vEdge) then
      let e0 := if hEdge then with_x p1 (to_world xmin') else p1 in
      let e1 := if hEdge then with_x p1 (to_world xmax') else p1 in
      let e0 := if vEdge then with_z e0 (to_world zmin') else e0 in
      let e1 := if vEdge then with_z e1 (to_world zmax') else e1 in
      let dot0 := v_dot (SafeNormalize (v_sub e0 p0))
                        (SafeNormalize (v_sub p2 e0)) in
      let dot1 := v_dot (SafeNormalize (v_sub e1 p0))
                        (SafeNormalize (v_sub p2 e1)) in
      if f_ge dot (f_max dot0 dot1) then None
      else
        let pi3 := if f_gt dot0 (f_max dot1 dot) then e0 else pi2 in
        let pi4 := if f_ge dot1 (f_max dot0 dot) then e1 else pi3 in
        Some pi4
    else None.

(** The loop of [SmoothPathIter]: [n1] walks from the target record to the
    source record, [ni] counts waypoints down, [nm] counts the moves. *)
Fixpoint smooth_loop (fuel : nat) (L : NodeLayer) (s : PathSearch)
  (n1 : nat) (ni : Z) (nm : nat) (path : IPath) : option (nat * IPath) :=
  if Nat.eqb n1 (srcSearchNode s) then Some (nm, path)
  else
    match fuel with
    | O => None
    | S fuel' =>
        let n0 := n1 in
        r0 ← node_at s n0;
        n1' ← prevNode r0;
        let ni' := ni - 1 in
        r1 ← node_at s n1';
        let nn0 := GetPoolNode L (index r0) in
        let nn1 := GetPoolNode L (index r1) in
        p0 ← GetPoint path ni';
        p1 ← GetPoint path (ni' - 1);
        p2 ← GetPoint path (ni' - 2);
        match smooth_triplet nn0 nn1 p0 p1 p2 with
        | None => smooth_loop fuel' L s n1' ni' nm path
        | Some pi =>
            let moved := f_gt (SqLength2D (v_sub pi p1))
                              (Square (f_lit 5 100)) in
            path' ← SetPoint path (ni' - 1) pi;
            smooth_loop fuel' L s n1' ni'
              (if moved then S nm else nm) path'
        end
    end.

Definition SmoothPathIter (fuel : nat) (L : NodeLayer) (s : PathSearch)
  (path : IPath) : option (bool * IPath) :=
  '(nm, path') ← smooth_loop fuel L s (tgtSearchNode s)
                   (Z.of_nat (NumPoints path)) 0 path;
  Some (negb (Nat.eqb nm 0), path').

Fixpoint smooth_passes (k : nat) (fuel : nat) (L : NodeLayer)
  (s : PathSearch) (path : IPath) : option IPath :=
  match k with
  | O => Some path
  | S k' =>
      match SmoothPathIter fuel L s path with
      | Some (moved, path') =>
          if moved then smooth_passes k' fuel L s path' else Some path'
      | None => None
      end
  end.

Definition SmoothPath (fuel : nat) (L : NodeLayer) (s : PathSearch)
  (path : IPath) : option IPath :=
  if Nat.eqb (NumPoints path) 2 then Some path
  else smooth_passes QTPFS_MAX_SMOOTHING_ITERATIONS fuel L s path.

Definition Finalize (fuel : nat) (L : NodeLayer) (s : PathSearch)
  (path : IPath) : option (PathSearch * IPath) :=
  '(s1, path1) ←
    (if rawPathCheck s then Some (s, path)
     else
       '(s', p') ← TracePath fuel s path;
       p'' ← (if QTPFS_SMOOTH_PATHS then SmoothPath fuel L s' p'
              else Some p');
       Some (s', p''));
  Some (s1,
        SetHasPartialPath
          (SetHasFullPath (SetBoundingBox path1)
             (haveFullPath s1 && negb (badGoal s1)))
          (havePartPath s1)).

Definition SharedFinalize (s : PathSearch) (srcPath dstPath : IPath)
  : option (bool * PathSearch * IPath) :=
  let d1 := CopyPoints dstPath srcPath in
  d2 ← SetSourcePoint d1 (srcPoint s);
  d3 ← SetTargetPoint d2 (tgtPoint s);
  let d4 := SetBoundingBox d3 in
  let d5 := SetHasFullPath d4 (hasFullPath srcPath) in
  Some (true,
        with_flags s (hasFullPath srcPath) (hasPartialPath srcPath),
        d5).
End Route.

(** ** The path-sharing hash *)

Section Hash.
Context `{FloatOps} `{!Config}.

(* while (n >>= 1) { c = c << 1; } *)
Fixpoint shift_loop (fuel : nat) (n c : Z) : option Z :=
  match fuel with
  | O => None
  | S fuel' =>
      let n' := Z.shiftr n 1 in
      if n' =? 0 then Some c
      else shift_loop fuel' n' (wrap_i32 (Z.shiftl c 1))
  end.

Definition GetNextBitShift (n : Z) : option Z :=
  let n0 := if 0 <? n then n - 1 else 0 in
  c ← shift_loop 32 n0 0;
  Some (c + 1).

Definition GetChildId (nodeNumber i rootMask : Z) : Z :=
  let rootId := Z.land rootMask nodeNumber in
  let nodeId := Z.land (wrap_u32 (Z.lnot rootMask)) nodeNumber in
  Z.lor rootId (wrap_u32 (wrap_u32 (Z.shiftl nodeId 2) + wrap_u32 (i + 1))).

Definition GenerateHash2 (G : Globals) (L : NodeLayer) (src dest : Z) : Z :=
  let N := wrap_u64 (wrap_i32 (mapx G * mapy G)) in
  let k := wrap_u32 (GetNodelayer L) in
  wrap_u64 (wrap_u64 (src + wrap_u64 (dest * N))
            + wrap_u64 (wrap_u64 (k * N) * N)).

(** One turn of the [while] loop of [GenerateHash]: the quadrant of the
    source square in the node at ([xoff], [zoff]) of size [nodeSize]. *)
Definition quadrant (srcX srcZ nodeSize xoff zoff : Z) : bool * bool :=
  (srcX >=? wrap_u32 (xoff + Z.shiftr nodeSize 1),
   srcZ >=? wrap_u32 (zoff + Z.shiftr nodeSize 1)).

Fixpoint descend (fuel : nat) (rootMask srcX srcZ : Z)
  (nodeSize srcNodeNumber xoff zoff : Z) : option Z :=
  if nodeSize >? wrap_u32 QTPFS_SHARE_PATH_MAX_SIZE then
    match fuel with
    | O => None
    | S fuel' =>
        let '(isRight, isDown) :=
          quadrant srcX srcZ nodeSize xoff zoff in
        let offset := 1 * Z.b2z isRight + 2 * Z.b2z isDown in
        let srcNodeNumber' := GetChildId srcNodeNumber offset rootMask in
        let nodeSize' := Z.shiftr nodeSize 1 in
        descend fuel' rootMask srcX srcZ nodeSize' srcNodeNumber'
          (wrap_u32 (xoff + nodeSize' * Z.b2z isRight))
          (wrap_u32 (zoff + nodeSize' * Z.b2z isDown))
    end
  else Some srcNodeNumber.

Definition GenerateHash (G : Globals) (L : NodeLayer) (s : PathSearch)
  (srcNode tgtNode : INode) : option Z :=
  let nodeSize := wrap_u32 (xsize srcNode) in
  if rawPathCheck s then Some BAD_HASH
  else if nodeSize <? wrap_u32 QTPFS_SHARE_PATH_MIN_SIZE then Some BAD_HASH
  else
    shift ← GetNextBitShift (moveDef_xsize G);
    let bucket := wrap_i32 (Z.shiftl 1 shift) in
    if nodeSize <? wrap_u32 bucket then Some BAD_HASH
    else if bucket >? QTPFS_SHARE_PATH_MAX_SIZE then Some BAD_HASH
    else
      srcNodeNumber ←
        descend 33 (wrap_u32 (GetRootMask L))
          (square_of (vx (srcPoint s))) (square_of (vz (srcPoint s)))
          nodeSize (wrap_u32 (GetNodeNumber srcNode))
          (wrap_u32 (xmin srcNode)) (wrap_u32 (zmin srcNode));
      Some (GenerateHash2 G L srcNodeNumber
              (wrap_u32 (GetNodeNumber tgtNode))).

(** *** The vocabulary of the sharing-key statements *)

(** The quadrant chosen at every step of the descent, first step first
    (0: top left, 1: top right, 2: bottom left, 3: bottom right). *)
Fixpoint quadrant_choices (fuel : nat) (srcX srcZ nodeSize xoff zoff : Z)
  : list Z :=
  match fuel with
  | O => []
  | S fuel' =>
      if nodeSize >? wrap_u32 QTPFS_SHARE_PATH_MAX_SIZE then
        let '(isRight, isDown) :=
          quadrant srcX srcZ nodeSize xoff zoff in
        let half := Z.shiftr nodeSize 1 in
        (1 * Z.b2z isRight + 2 * Z.b2z isDown)
          :: quadrant_choices fuel' srcX srcZ half
               (wrap_u32 (xoff + half * Z.b2z isRight))
               (wrap_u32 (zoff + half * Z.b2z isDown))
      else []
  end.

(** The quadrant choices of a request that starts in [srcNode]. *)
Definition request_choices (s : PathSearch) (srcNode : INode) : list Z :=
  quadrant_choices 33
    (square_of (vx (srcPoint s))) (square_of (vz (srcPoint s)))
    (wrap_u32 (xsize srcNode))
    (wrap_u32 (xmin srcNode)) (wrap_u32 (zmin srcNode)).

(** The node number of the virtual node the choices lead to. *)
Definition normalized_source (rootMask srcNodeNumber : Z)
  (choices : list Z) : Z :=
  fold_left (fun n o => GetChildId n o rootMask) choices srcNodeNumber.

(** A request none of the guards of [GenerateHash] turns away. *)
Definition shareable (G : Globals) (s : PathSearch) (srcNode : INode)
  : Prop :=
  rawPathCheck s = false /\
  wrap_u32 QTPFS_SHARE_PATH_MIN_SIZE <= wrap_u32 (xsize srcNode) /\
  exists shift,
    GetNextBitShift (moveDef_xsize G) = Some shift /\
    wrap_u32 (wrap_i32 (Z.shiftl 1 shift)) <= wrap_u32 (xsize srcNode) /\
    wrap_i32 (Z.shiftl 1 shift) <= QTPFS_SHARE_PATH_MAX_SIZE.

End Hash.

(** ** The descent of [GenerateHash], with all its loop variables

    The [while] loop of [GenerateHash] once more, returning the size and
    the offsets of the virtual node it ends in besides its number. *)

Section HashDescent.
Context `{FloatOps} `{!Config}.

Fixpoint descend_state (fuel : nat) (rootMask srcX srcZ : Z)
  (nodeSize srcNodeNumber xoff zoff : Z) : option (Z * Z * Z * Z) :=
  if nodeSize >? wrap_u32 QTPFS_SHARE_PATH_MAX_SIZE then
    match fuel with
    | O => None
    | S fuel' =>
        let '(isRight, isDown) :=
          quadrant srcX srcZ nodeSize xoff zoff in
        let offset := 1 * Z.b2z isRight + 2 * Z.b2z isDown in
        let srcNodeNumber' := GetChildId srcNodeNumber offset rootMask in
        let nodeSize' := Z.shiftr nodeSize 1 in
        descend_state fuel' rootMask srcX srcZ nodeSize' srcNodeNumber'
          (wrap_u32 (xoff + nodeSize' * Z.b2z isRight))
          (wrap_u32 (zoff + nodeSize' * Z.b2z isDown))
    end
  else Some (srcNodeNumber, nodeSize, xoff, zoff).
End HashDescent.

(** ** The vocabulary of the statements on a whole search *)

Section SearchVocabulary.
Context `{FloatOps} `{!Float3Ops} `{!Config} `{!PathOps}.

(** The node [InitializeThread] takes as the target: the node under the
    target point or, when that node is fully impassable and the layer
    finds one, the nearest node of its neighbourhood. *)
Definition resolved_target (G : Globals) (L : NodeLayer) (s : PathSearch)
  : INode :=
  let tgtNode := GetNode L (square_of (vx (tgtPoint s)))
                           (square_of (vz (tgtPoint s))) in
  if AllSquaresImpassable tgtNode then
    match GetNearestNodeInArea L
            (mkSRectangle (Z.max (wrap_i32 (xmin tgtNode) - 16) 0)
                          (Z.max (wrap_i32 (zmin tgtNode) - 16) 0)
                          (Z.min (wrap_i32 (xmax tgtNode) + 16) (mapx G))
                          (Z.min (wrap_i32 (zmax tgtNode) + 16) (mapy G)))
            (square_of (vx (tgtPoint s)), square_of (vz (tgtPoint s)))
    with
    | Some n => n
    | None => tgtNode
    end
  else tgtNode.

(** One turn of the [while] loop of [ExecutePathSearch]. *)
Definition loop_turn (L : NodeLayer) (s : PathSearch) : option PathSearch :=
  s1 ← IterateNodes L s;
  let full := bool_decide (curSearchNode s1 = Some (tgtSearchNode s1)) in
  let s2 := with_flags s1 full (havePartPath s1) in
  Some (if full then ResetQueue s2 else s2).

Definition turn (L : NodeLayer) (s s' : PathSearch) : Prop :=
  loop_turn L s = Some s'.

(** The registry and the open list of a search agree: the registry keeps
    its invariant, every identifier that owns a slot has there a record
    that carries this identifier, every entry of the open list is for an
    identifier that owns a slot, and the predecessor links, the cursor and
    the lowest-heuristic and target references designate records of the
    registry. *)
Definition consistent (cap : nat) (s : PathSearch) : Prop :=
  Sparse.inv cap (allSearchedNodes s) /\
  (forall id k, Sparse.sparse_at (allSearchedNodes s) id = Some k -> k <> 0 ->
      exists r, node_at s (Z.to_nat k) = Some r /\ index r = id) /\
  (forall e, e ∈ openNodes s ->
      Sparse.isSet (allSearchedNodes s) (nodeIndex e) = Some true) /\
  (forall k r m, node_at s k = Some r -> prevNode r = Some m ->
      is_Some (node_at s m)) /\
  (forall c, curSearchNode s = Some c -> is_Some (node_at s c)) /\
  is_Some (node_at s (minSearchNode s)) /\
  is_Some (node_at s (tgtSearchNode s)).

(** The predecessor links lead from record [n] to the source record;
    [ns] are the records on the way, [n] first, the source record left
    out. *)
Inductive trail (s : PathSearch) : nat -> list nat -> Prop :=
| trail_source r :
    node_at s (srcSearchNode s) = Some r -> trail s (srcSearchNode s) []
| trail_step n r m ns :
    n <> srcSearchNode s -> node_at s n = Some r ->
    prevNode r = Some m -> trail s m ns -> trail s n (n :: ns).

(** The same, as a test. *)
Fixpoint on_trail (s : PathSearch) (n : nat) (ns : list nat) : bool :=
  match ns with
  | [] =>
      Nat.eqb n (srcSearchNode s)
      && match node_at s n with Some _ => true | None => false end
  | n' :: ns' =>
      Nat.eqb n n' && negb (Nat.eqb n (srcSearchNode s))
      && match node_at s n with
         | Some r =>
             match prevNode r with
             | Some m => on_trail s m ns'
             | None => false
             end
         | None => false
         end
  end.

(** The crossing points [TracePath] keeps of the records [ns]. *)
Definition kept_points (s : PathSearch) (ns : list nat) : list float3 :=
  skip_repeats (tgtPoint s) (crossing_points s ns).

(** The route has the waypoints smoothing asks for along the records
    [ns]: its two ends and one point per record; or it has two points
    only, and is not smoothed. *)
Definition roomy (path : IPath) (ns : list nat) : Prop :=
  NumPoints path = 2%nat \/ (length ns + 2 <= NumPoints path)%nat.

(** [Finalize] stays inside the route: it is given a route of two points
    and, if the route is smoothed at all, [TracePath] keeps either every
    crossing point of the records [ns] or none. *)
Definition fits (s : PathSearch) (path : IPath) (ns : list nat) : Prop :=
  NumPoints path = 2%nat /\
  (QTPFS_SMOOTH_PATHS = false \/ kept_points s ns = [] \/
   length (kept_points s ns) = length ns).

(** A route that answers whatever index it is asked, as long as it has a
    point at all (and keeps having one). *)
Definition tolerant : Prop :=
  forall ps i, ps <> [] ->
    is_Some (point_beyond ps i) /\
    forall v, exists ps', set_point_beyond ps i v = Some ps' /\ ps' <> [].

(** Every neighbour a node of the layer lists is a node of the pool. *)
Definition neighbors_in_pool (L : NodeLayer) : Prop :=
  forall id,
    Forall (fun n => 0 <= n < Z.of_nat (GetMaxNodesAlloced L))
           (GetNeighbors (GetPoolNode L id)).
End SearchVocabulary.

(** ** GameHelper.h: the cache of build-square tests

    [TestUnitBuildSquareCache] keeps its items in a static vector.  The
    types of the key, of the feature reference, of the status and of the
    positions, and the comparison of two keys ([std::tuple]'s
    [operator==]), come from headers that are not among the sources at
    hand and are left open.  An iterator is the position it designates,
    the end of the vector being its length. *)

Module BuildSquareCache.
Section Cache.
Context {KeyT Feature Status Pos : Type} (key_eqb : KeyT -> KeyT -> bool).

Record Item : Type := mkItem {
  createFrame : Z;
  key : KeyT;
  feature : Feature;
  result : Status;
  canbuildpos : list Pos;
  featurepos : list Pos;
  nobuildpos : list Pos
}.

(* std::find_if *)
Fixpoint find_if (P : Item -> bool) (l : list Item) : nat :=
  match l with
  | [] => 0%nat
  | item :: l' => if P item then 0%nat else S (find_if P l')
  end.

Definition GetCacheItem (cache : list Item) (k : KeyT) : nat * bool :=
  let it := find_if (fun item => key_eqb (key item) k) cache in
  (it, negb (Nat.eqb it (length cache))).

(* the overload without positions leaves the three vectors empty *)
Definition SaveToCache (cache : list Item) (frame : Z) (k : KeyT)
  (f : Feature) (bss : Status) : list Item :=
  cache ++ [mkItem frame k f bss [] [] []].

Definition SaveToCache_positions (cache : list Item) (frame : Z) (k : KeyT)
  (f : Feature) (bss : Status) (canbuild featpos nobuild : list Pos)
  : list Item :=
  cache ++ [mkItem frame k f bss canbuild featpos nobuild].
End Cache.
End BuildSquareCache.

(** ** A concrete instance

    Binary floating point as Rocq computes it (IEEE 754 binary64), to run
    the search on given maps.  The maps below keep to small integers, on
    which binary64 and the engine's binary32 compute the same values. *)

Module Concrete.

Definition of_Z (z : Z) : PrimFloat.float :=
  match z with
  | Z0 => PrimFloat.zero
  | Zpos _ => PrimFloat.of_uint63 (Uint63.of_Z z)
  | Zneg _ => PrimFloat.opp (PrimFloat.of_uint63 (Uint63.of_Z (- z)))
  end.

(* truncation towards zero, then reduction to 32 bits *)
Definition to_u32 (f : PrimFloat.float) : Z :=
  match Prim2SF f with
  | S754_finite sign m e =>
      let a := Z.shiftl (Zpos m) e in
      wrap_u32 (if sign then - a else a)
  | _ => 0
  end.

#[export] Instance floats : FloatOps := {|
  float := PrimFloat.float;
  f_of_Z := of_Z;
  f_lit := fun n d => PrimFloat.div (of_Z n) (of_Z d);
  f_inf := PrimFloat.infinity;
  f_add := PrimFloat.add;
  f_sub := PrimFloat.sub;
  f_mul := PrimFloat.mul;
  f_div := PrimFloat.div;
  f_sqrt := PrimFloat.sqrt;
  f_abs := PrimFloat.abs;
  f_lt := PrimFloat.ltb;
  f_le := PrimFloat.leb;
  f_to_u32 := to_u32
|}.

(* exact comparison of the coordinates; normalisation unless the vector
   is (nearly) null *)
#[export] Instance vectors : Float3Ops := {|
  float3_ne := fun a b =>
    negb (PrimFloat.eqb (vx a) (vx b) && PrimFloat.eqb (vy a) (vy b)
          && PrimFloat.eqb (vz a) (vz b));
  SafeNormalize := fun v =>
    let sql := v_dot v v in
    if PrimFloat.ltb (f_lit 1 100000) sql then
      let l := PrimFloat.sqrt sql in
      mkFloat3 (PrimFloat.div (vx v) l) (PrimFloat.div (vy v) l)
               (PrimFloat.div (vz v) l)
    else v
|}.

Definition f_min (a b : PrimFloat.float) : PrimFloat.float :=
  if PrimFloat.ltb b a then b else a.

(* the box spanned by the points; a route that takes an index beyond its
   last point for its last point *)
#[export] Instance paths : PathOps := {|
  bounds_of := fun ps =>
    match ps with
    | [] => (ZeroVector, ZeroVector)
    | p :: rest =>
        fold_left
          (fun '(lo, hi) q =>
             (mkFloat3 (f_min (vx lo) (vx q)) (f_min (vy lo) (vy q))
                       (f_min (vz lo) (vz q)),
              mkFloat3 (f_max (vx hi) (vx q)) (f_max (vy hi) (vy q))
                       (f_max (vz hi) (vz q))))
          rest (p, p)
    end;
  point_beyond := fun ps _ => last ps;
  set_point_beyond := fun ps _ v =>
    match ps with
    | [] => None
    | _ :: _ => Some (<[Nat.pred (length ps) := v]> ps)
    end
|}.

(** A configuration: squares of 8 units, three candidate crossing points
    per edge, partial searches and smoothing compiled in, paths shared
    for nodes of 2 to 16 squares, the largest 64-bit value as the
    unshareable sentinel. *)
#[export] Instance config : Config := {|
  SQUARE_SIZE := 8;
  QTPFS_MAX_NETPOINTS_PER_NODE_EDGE := 3;
  QTPFS_MAX_SMOOTHING_ITERATIONS := 1;
  QTPFS_CLOSED_NODE_COST := of_Z 1000000;
  QTPFS_SUPPORT_PARTIAL_SEARCHES := true;
  QTPFS_SMOOTH_PATHS := true;
  QTPFS_SHARE_PATH_MIN_SIZE := 2;
  QTPFS_SHARE_PATH_MAX_SIZE := 16;
  BAD_HASH := 2 ^ 64 - 1;
  REL_NGB_EDGE_T := 1;
  REL_NGB_EDGE_R := 2;
  REL_NGB_EDGE_B := 4;
  REL_NGB_EDGE_L := 8
|}.

(** *** A corridor of three nodes

    Three nodes of 2 by 2 squares in a row, numbered 0, 1, 2 from west
    to east, all of move cost 1; the edges between them lie at x = 16 and
    x = 32 and carry the crossing points z = 8, 3 and 13. *)

Definition pt (x z : Z) : float2 := mkFloat2 (of_Z x) (of_Z z).
Definition pt3 (x z : Z) : float3 := mkFloat3 (of_Z x) (of_Z 0) (of_Z z).

Definition edge_points (x : Z) : list float2 := [pt x 8; pt x 3; pt x 13].

Definition corridor_node (i : Z) : INode :=
  let west := edge_points (16 * i) in
  let east := edge_points (16 * (i + 1)) in
  {| GetIndex := i; GetNodeNumber := i;
     xmin := 2 * i; zmin := 0; xmax := 2 * i + 2; zmax := 2;
     xmid := 2 * i + 1; zmid := 1; xsize := 2;
     GetMoveCost := of_Z 1;
     AllSquaresImpassable := false;
     GetNeighbors := if i =? 0 then [1] else if i =? 1 then [0; 2]
                     else [1];
     netpoints := pt (16 * i + 8) 8
                    :: (if i =? 0 then east else if i =? 1 then west ++ east
                        else west);
     GetNeighborRelation := fun j => if j <? i then 8 else 2 |}.

Definition corridor : NodeLayer :=
  {| GetNode := fun x z => corridor_node (Z.min (x / 2) 2);
     GetPoolNode := corridor_node;
     GetNearestNodeInArea := fun _ _ => None;
     GetMaxNodesAlloced := 8;
     GetNumLeafNodes := 3;
     GetRootMask := 0;
     GetNodelayer := 0 |}.

Definition corridor_globals : Globals :=
  {| mapx := 6; mapy := 2;
     maxRelSpeedMod := of_Z 1;
     moveDef_xsize := 2;
     DoRawSearch := fun _ _ => false |}.

(** A request as [Initialize] leaves it, from [src] to [tgt]. *)
Definition request (src tgt : float3) : PathSearch :=
  {| srcPoint := src; tgtPoint := tgt;
     rawPathCheck := false; searchType := PATH_SEARCH_ASTAR;
     badGoal := false; haveFullPath := false; havePartPath := false;
     hCostMult := of_Z 0;
     srcSearchNode := 0; tgtSearchNode := 0;
     curSearchNode := None; nextSearchNode := None; minSearchNode := 0;
     netPoints := []; gDists := []; hDists := []; gCosts := [];
     hCosts := [];
     allSearchedNodes := Sparse.Reset 0;
     openNodes := [] |}.

(** A fresh route of two points. *)
Definition fresh_path (id : Z) : IPath :=
  {| pathID := id; pathHash := 0;
     points := [ZeroVector; ZeroVector];
     boundingBox := (ZeroVector, ZeroVector);
     hasFullPath := false; hasPartialPath := false |}.

(** From the west node to the east node. *)
Definition across : PathSearch := request (pt3 4 8) (pt3 44 8).

(** The whole of a request: bind a worker, execute, finalize. *)
Definition run (fuel : nat) (G : Globals) (L : NodeLayer) (s : PathSearch)
  (path : IPath) : option (bool * PathSearch * IPath) :=
  s1 ← InitializeThread G L s;
  '(found, s2) ← Execute fuel G L s1;
  '(s3, path') ← Finalize fuel L s2 path;
  Some (found, s3, path').

(** *** The corridor with a blocked node

    The same corridor, node [k] fully impassable, and the nearest
    passable node in any area being node [alt]. *)
Definition blocked_node (k i : Z) : INode :=
  let n := corridor_node i in
  {| GetIndex := GetIndex n; GetNodeNumber := GetNodeNumber n;
     xmin := xmin n; zmin := zmin n; xmax := xmax n; zmax := zmax n;
     xmid := xmid n; zmid := zmid n; xsize := xsize n;
     GetMoveCost := if i =? k then PrimFloat.infinity else GetMoveCost n;
     AllSquaresImpassable := i =? k;
     GetNeighbors := GetNeighbors n;
     netpoints := netpoints n;
     GetNeighborRelation := GetNeighborRelation n |}.

Definition blocked_corridor (k alt : Z) : NodeLayer :=
  {| GetNode := fun x z => blocked_node k (Z.min (x / 2) 2);
     GetPoolNode := blocked_node k;
     GetNearestNodeInArea := fun _ _ => Some (blocked_node k alt);
     GetMaxNodesAlloced := 8;
     GetNumLeafNodes := 3;
     GetRootMask := 0;
     GetNodelayer := 0 |}.

(** From the west node to a point of the middle node. *)
Definition next_door : PathSearch := request (pt3 4 8) (pt3 20 8).

(** *** A large node and a large unit

    A source node of 16 by 16 squares and a movement class whose
    footprint is 64 squares wide. *)
Definition wide_node : INode :=
  {| GetIndex := 0; GetNodeNumber := 0;
     xmin := 0; zmin := 0; xmax := 16; zmax := 16;
     xmid := 8; zmid := 8; xsize := 16;
     GetMoveCost := of_Z 1;
     AllSquaresImpassable := false;
     GetNeighbors := [];
     netpoints := [pt 64 64];
     GetNeighborRelation := fun _ => 0 |}.

Definition wide_layer : NodeLayer :=
  {| GetNode := fun _ _ => wide_node;
     GetPoolNode := fun _ => wide_node;
     GetNearestNodeInArea := fun _ _ => None;
     GetMaxNodesAlloced := 1;
     GetNumLeafNodes := 1;
     GetRootMask := 0;
     GetNodelayer := 0 |}.

Definition wide_globals : Globals :=
  {| mapx := 16; mapy := 16;
     maxRelSpeedMod := of_Z 1;
     moveDef_xsize := 64;
     DoRawSearch := fun _ _ => false |}.

(** *** Two requests from one large node

    A source node of 64 by 64 squares, numbered 5 under the root mask
    [0xFF000000], on layer 1 of a map of 64 by 64 squares; the target
    node is numbered 7. *)
Definition large_node (number : Z) : INode :=
  {| GetIndex := number; GetNodeNumber := number;
     xmin := 0; zmin := 0; xmax := 64; zmax := 64;
     xmid := 32; zmid := 32; xsize := 64;
     GetMoveCost := of_Z 1;
     AllSquaresImpassable := false;
     GetNeighbors := [];
     netpoints := [pt 256 256];
     GetNeighborRelation := fun _ => 0 |}.

Definition large_layer : NodeLayer :=
  {| GetNode := fun _ _ => large_node 5;
     GetPoolNode := large_node;
     GetNearestNodeInArea := fun _ _ => None;
     GetMaxNodesAlloced := 8;
     GetNumLeafNodes := 2;
     GetRootMask := 0xFF000000;
     GetNodelayer := 1 |}.

Definition large_globals : Globals :=
  {| mapx := 64; mapy := 64;
     maxRelSpeedMod := of_Z 1;
     moveDef_xsize := 2;
     DoRawSearch := fun _ _ => false |}.

(** *** States of the requests above *)

(** The request once a worker is bound, once seeded, once executed. *)
Definition bound (G : Globals) (L : NodeLayer) (s : PathSearch)
  : PathSearch :=
  default s (InitializeThread G L s).

Definition seeded (G : Globals) (L : NodeLayer) (s : PathSearch)
  : PathSearch :=
  default s (seed G (with_flags (bound G L s) false false)).

Definition executed (fuel : nat) (G : Globals) (L : NodeLayer)
  (s : PathSearch) : PathSearch :=
  default s (snd <$> Execute fuel G L (bound G L s)).

Definition finalized (fuel : nat) (G : Globals) (L : NodeLayer)
  (s : PathSearch) (path : IPath) : IPath :=
  default path (snd <$> run fuel G L s path).

(** *** Reading results *)

Definition returns {A : Type} (o : option A) : bool :=
  match o with Some _ => true | None => false end.

Definition coords (v : float3)
  : PrimFloat.float * PrimFloat.float * PrimFloat.float :=
  (vx v, vy v, vz v).

Definition waypoints (p : IPath)
  : list (PrimFloat.float * PrimFloat.float * PrimFloat.float) :=
  coords <$> points p.

Definition entries (q : SearchPriorityQueue) : list (PrimFloat.float * Z) :=
  (fun e => (heapPriority e, nodeIndex e)) <$> q.

Definition costs (n : SearchNode)
  : Z * (PrimFloat.float * PrimFloat.float * PrimFloat.float)
    * option nat * (PrimFloat.float * PrimFloat.float) :=
  (index n, (fCost n, gCost n, hCost n), prevNode n,
   (px (selectedNetpoint n), py (selectedNetpoint n))).

(** The corridor request with the record of the middle node fetched, and
    with the candidates of the edge to it evaluated. *)
Definition fetched (s : PathSearch) : PathSearch * nat :=
  default (s, 0%nat) (fetch_neighbor 1 s).

Definition selected (s : PathSearch) : PathSearch * nat :=
  default (s, 0%nat)
    (select_netpoint corridor (corridor_node 0) (pt3 4 8) 0 1 3 s).

(** The corridor request while its source node is being expanded: the
    seed entry popped, the source record current. *)
Definition expanding : PathSearch :=
  let s := seeded corridor_globals corridor across in
  with_queue (with_cursor s (Some 1%nat) None 1) [].


(** *** A registry of plain records

    Records that are their identifier, the dummy being 0, and a registry
    of four identifiers in which identifier 2, then identifier 0, were
    touched. *)
Definition plain_records : Element Z :=
  {| T_default := 0; T_of_id := fun id => id |}.

Definition touched : Sparse.SparseData Z :=
  let d0 := @Sparse.Reset Z plain_records 4 in
  let d1 := default d0 (fst <$> @Sparse.InsertINode Z plain_records d0 2) in
  default d1 (fst <$> @Sparse.InsertINodeIfNotPresent Z plain_records d1 0).

(** *** A straight-line probe

    The corridor request as a raw probe, on a map where the probe
    succeeds. *)
Definition open_globals : Globals :=
  {| mapx := 6; mapy := 2;
     maxRelSpeedMod := of_Z 1;
     moveDef_xsize := 2;
     DoRawSearch := fun _ _ => true |}.

Definition probe : PathSearch :=
  let s := bound open_globals corridor across in
  mkPathSearch (srcPoint s) (tgtPoint s) true (searchType s)
    (badGoal s) (haveFullPath s) (havePartPath s) (hCostMult s)
    (srcSearchNode s) (tgtSearchNode s) (curSearchNode s) (nextSearchNode s)
    (minSearchNode s) (netPoints s) (gDists s) (hDists s) (gCosts s)
    (hCosts s) (allSearchedNodes s) (openNodes s).

(** From the west node to the west edge of the east node, where the
    middle crossing point of that edge lies. *)
Definition to_the_edge : PathSearch := request (pt3 4 8) (pt3 32 8).

(** *** The corridor request on arrival

    The seeded corridor request with the entry of the target node (node
    2) on top of the open list, before an entry for the source node. *)
Definition arrived : PathSearch :=
  with_queue (seeded corridor_globals corridor across)
    [mkSearchQueueNode (of_Z 0) 2; mkSearchQueueNode (of_Z 5) 0].

(** The route of the corridor search as [TracePath] writes it. *)
Definition traced : IPath :=
  default (fresh_path 1)
    (snd <$> TracePath 10 (executed 10 corridor_globals corridor across)
               (fresh_path 1)).

(** *** The corridor with its east node cut off

    The same three nodes, the middle node no longer listing the east
    node as a neighbour (nor the east node the middle one). *)
Definition severed_node (i : Z) : INode :=
  let n := corridor_node i in
  {| GetIndex := GetIndex n; GetNodeNumber := GetNodeNumber n;
     xmin := xmin n; zmin := zmin n; xmax := xmax n; zmax := zmax n;
     xmid := xmid n; zmid := zmid n; xsize := xsize n;
     GetMoveCost := GetMoveCost n;
     AllSquaresImpassable := false;
     GetNeighbors := if i =? 0 then [1] else if i =? 1 then [0] else [];
     netpoints := netpoints n;
     GetNeighborRelation := GetNeighborRelation n |}.

Definition severed : NodeLayer :=
  {| GetNode := fun x z => severed_node (Z.min (x / 2) 2);
     GetPoolNode := severed_node;
     GetNearestNodeInArea := fun _ _ => None;
     GetMaxNodesAlloced := 8;
     GetNumLeafNodes := 3;
     GetRootMask := 0;
     GetNodelayer := 0 |}.

(** *** A cache of build-square tests keyed by numbers *)
Definition cache_item (frame k : Z) : @BuildSquareCache.Item Z unit bool Z :=
  BuildSquareCache.mkItem frame k tt true [] [] [].

End Concrete.

(** * Properties *)

(** ** The sparse node registry *)

Section RegistryFacts.
Context {T : Type} `{Element T}.
Import Sparse.

Lemma used_le (l : list Z) : (used l <= length l)%nat.
Proof. apply length_filter. Qed.

Lemma used_insert_fresh (l : list Z) (i : nat) (v : Z) :
  l !! i = Some 0 -> v ≠ 0 -> used (<[i := v]> l) = S (used l).
Proof.
  unfold used. revert i. induction l as [|a l IH]; intros [|i] Hi Hv;
    simpl in *; try discriminate.
  - injection Hi as ->. rewrite filter_cons_True by done.
    rewrite filter_cons_False by (intros E; by apply E). done.
  - destruct (decide (a ≠ 0)).
    + rewrite !filter_cons_True by done. simpl. by rewrite IH.
    + rewrite !filter_cons_False by done. by apply IH.
Qed.

Lemma used_lt_fresh (l : list Z) (i : nat) :
  l !! i = Some 0 -> (used l < length l)%nat.
Proof.
  unfold used. revert i. induction l as [|a l IH]; intros [|i] Hi;
    simpl in *; try discriminate.
  - injection Hi as ->.
    rewrite filter_cons_False by (intros E; by apply E).
    pose proof (length_filter (fun s => s ≠ 0) l). lia.
  - specialize (IH _ Hi). destruct (decide (a ≠ 0)).
    + rewrite filter_cons_True by done. simpl. lia.
    + rewrite filter_cons_False by done. lia.
Qed.

Lemma used_replicate_zero (n : nat) : used (replicate n 0) = 0%nat.
Proof.
  unfold used. induction n as [|n IH]; simpl; [done|].
  rewrite filter_cons_False by (intros E; by apply E). done.
Qed.

Lemma wrap_i32_small (z : Z) : -2 ^ 31 <= z < 2 ^ 31 -> wrap_i32 z = z.
Proof. intros Hz. unfold wrap_i32. rewrite Z.mod_small; lia. Qed.

Lemma sparse_at_Some (d : SparseData T) (id s : Z) :
  sparse_at d id = Some s ->
  0 <= id /\ sparseIndex d !! Z.to_nat id = Some s.
Proof.
  unfold sparse_at. destruct (Z.ltb_spec id 0); [done|]. auto.
Qed.

Lemma sparse_at_in_range (d : SparseData T) (cap : nat) (id : Z) :
  length (sparseIndex d) = cap -> 0 <= id < Z.of_nat cap ->
  exists s, sparse_at d id = Some s.
Proof.
  intros Hlen Hid. unfold sparse_at.
  destruct (Z.ltb_spec id 0); [lia|].
  apply lookup_lt_is_Some. lia.
Qed.

Lemma dense_ref_in_range (d : SparseData T) (s : Z) :
  0 <= s < Z.of_nat (length (denseData d)) ->
  dense_ref d s = Some (Z.to_nat s).
Proof.
  intros Hs. unfold dense_ref.
  destruct (Z.ltb_spec s 0); [lia|].
  destruct (Z.ltb_spec s (Z.of_nat (length (denseData d)))); [done|lia].
Qed.

(** First touch: a zero entry of the index table. *)
Lemma InsertAtIndex_fresh (cap : nat) (d : SparseData T) (id : Z) (v : T) :
  Z.of_nat cap < 2 ^ 31 -> inv cap d -> sparse_at d id = Some 0 ->
  let d' := mkSparseData
              (<[Z.to_nat id := Z.of_nat (length (denseData d))]>
                 (sparseIndex d))
              (denseData d ++ [v]) in
  InsertAtIndex d v id = Some d' /\ inv cap d' /\
  at_index d' id = Some (length (denseData d)).
Proof.
  intros Hcap (Hlen & Hused & Hrange) Hs. simpl.
  destruct (sparse_at_Some _ _ _ Hs) as [Hid Hlk].
  pose proof (used_lt_fresh _ _ Hlk) as Hlt.
  assert (Hw : wrap_i32 (Z.of_nat (length (denseData d ++ [v])) - 1)
               = Z.of_nat (length (denseData d))).
  { rewrite length_app. simpl. rewrite wrap_i32_small; lia. }
  unfold InsertAtIndex. rewrite Hs. simpl. rewrite Hw.
  split; [done|]. split.
  - split; [|split]; simpl.
    + by rewrite length_insert.
    + rewrite length_app. simpl.
      rewrite used_insert_fresh by (done || lia). lia.
    + intros i s Hi. rewrite length_app. simpl.
      destruct (decide (Z.to_nat id = i)) as [<-|Hne].
      * rewrite list_lookup_insert_eq in Hi
          by (by apply lookup_lt_Some in Hlk).
        injection Hi as <-. lia.
      * rewrite list_lookup_insert_ne in Hi by done.
        specialize (Hrange _ _ Hi). lia.
  - unfold at_index, sparse_at. simpl.
    destruct (Z.ltb_spec id 0); [lia|].
    rewrite list_lookup_insert_eq by (by apply lookup_lt_Some in Hlk).
    simpl. unfold dense_ref. simpl.
    destruct (Z.ltb_spec (Z.of_nat (length (denseData d))) 0); [lia|].
    rewrite length_app. simpl.
    destruct (Z.ltb_spec (Z.of_nat (length (denseData d)))
                (Z.of_nat (length (denseData d) + 1))); [|lia].
    by rewrite Nat2Z.id.
Qed.

(** Later touches: a non-zero entry of the index table. *)
Lemma InsertINodeIfNotPresent_present (cap : nat) (d : SparseData T)
  (id s : Z) :
  inv cap d -> sparse_at d id = Some s -> s ≠ 0 ->
  InsertINodeIfNotPresent d id = Some (d, Z.to_nat s) /\ (0 < Z.to_nat s)%nat.
Proof.
  intros (Hlen & Hused & Hrange) Hs Hne.
  destruct (sparse_at_Some _ _ _ Hs) as [Hid Hlk].
  specialize (Hrange _ _ Hlk).
  unfold InsertINodeIfNotPresent.
  destruct (Z.ltb_spec id 0); [lia|].
  rewrite Hs. simpl.
  destruct (Z.eqb_spec s 0); [done|]. simpl.
  unfold at_index. rewrite Hs. simpl.
  rewrite dense_ref_in_range by done. simpl. split; [done|lia].
Qed.

Lemma InsertINodeIfNotPresent_fresh (cap : nat) (d : SparseData T)
  (id : Z) :
  Z.of_nat cap < 2 ^ 31 -> inv cap d -> sparse_at d id = Some 0 ->
  InsertINodeIfNotPresent d id =
    Some (mkSparseData
            (<[Z.to_nat id := Z.of_nat (length (denseData d))]>
               (sparseIndex d))
            (denseData d ++ [T_of_id id]),
          length (denseData d)).
Proof.
  intros Hcap Hinv Hs.
  destruct (InsertAtIndex_fresh cap d id (T_of_id id) Hcap Hinv Hs)
    as (Hins & _ & Hat).
  destruct (sparse_at_Some _ _ _ Hs) as [Hid _].
  unfold InsertINodeIfNotPresent.
  destruct (Z.ltb_spec id 0); [lia|].
  rewrite Hs. simpl. rewrite Hins. simpl. rewrite Hat. done.
Qed.

Lemma inv_Reset (cap : nat) : inv cap (Reset cap).
Proof.
  split; [|split]; simpl.
  - apply length_replicate.
  - by rewrite used_replicate_zero.
  - intros i s Hi. apply lookup_replicate in Hi as [-> _]. lia.
Qed.

Lemma InsertAtIndex_present (cap : nat) (d : SparseData T) (id s : Z)
  (v : T) :
  inv cap d -> sparse_at d id = Some s -> s ≠ 0 ->
  InsertAtIndex d v id =
    Some (mkSparseData (sparseIndex d) (<[Z.to_nat s := v]> (denseData d)))
  /\ (0 < Z.to_nat s)%nat.
Proof.
  intros (Hlen & Hused & Hrange) Hs Hne.
  destruct (sparse_at_Some _ _ _ Hs) as [Hid Hlk].
  specialize (Hrange _ _ Hlk).
  unfold InsertAtIndex. rewrite Hs. simpl.
  destruct (Z.eqb_spec s 0); [done|].
  rewrite dense_ref_in_range by done. simpl. split; [done|lia].
Qed.

Lemma inv_overwrite (cap : nat) (d : SparseData T) (k : nat) (v : T) :
  inv cap d ->
  inv cap (mkSparseData (sparseIndex d) (<[k := v]> (denseData d))).
Proof.
  intros (Hlen & Hused & Hrange). split; [|split]; simpl; try done.
  - by rewrite length_insert.
  - intros i s Hi. rewrite length_insert. eauto.
Qed.

Lemma sparse_at_insert_other (d : SparseData T) (id id' v s : Z)
  (dense' : list T) :
  sparse_at d id = Some 0 -> sparse_at d id' = Some s -> s ≠ 0 ->
  sparse_at (mkSparseData (<[Z.to_nat id := v]> (sparseIndex d)) dense')
    id' = Some s.
Proof.
  intros H0 Hs Hne.
  destruct (sparse_at_Some _ _ _ H0) as [Hid Hlk0].
  destruct (sparse_at_Some _ _ _ Hs) as [Hid' Hlk].
  unfold sparse_at. simpl. destruct (Z.ltb_spec id' 0); [lia|].
  rewrite list_lookup_insert_ne; [done|].
  intros E. rewrite E in Hlk0. congruence.
Qed.

(** What a step preserves: the invariant, the slot of every identifier
    that owns one, and the record at slot zero. *)
Lemma step_preserves (cap : nat) (d d' : SparseData T) :
  Z.of_nat cap < 2 ^ 31 -> inv cap d -> step d d' ->
  inv cap d' /\
  (forall id s, sparse_at d id = Some s -> s ≠ 0 ->
                sparse_at d' id = Some s) /\
  (forall x, denseData d !! 0%nat = Some x ->
             denseData d' !! 0%nat = Some x).
Proof.
  intros Hcap Hinv Hstep.
  assert (Hlen1 : (1 <= length (denseData d))%nat)
    by (destruct Hinv as (_ & -> & _); lia).
  destruct Hstep as [d0 id d1 k Hop | d0 id d1 k Hop | d0 k v Hk].
  - unfold InsertINode in Hop. destruct (Z.ltb_spec id 0).
    { destruct (dense_ref d0 0); simplify_eq/=. done. }
    destruct (InsertAtIndex d0 (T_of_id id) id) as [d2|] eqn:Hins;
      simplify_eq/=.
    destruct (at_index d2 id) eqn:Hat; simplify_eq/=.
    destruct (sparse_at d0 id) as [s0|] eqn:Hs0;
      [|unfold InsertAtIndex in Hins; rewrite Hs0 in Hins; done].
    destruct (decide (s0 = 0)) as [->|Hne].
    + destruct (InsertAtIndex_fresh cap d0 id (T_of_id id) Hcap Hinv Hs0)
        as (Hins' & Hinv' & _). simpl in *.
      rewrite Hins in Hins'. injection Hins' as ->.
      split; [done|]. split.
      * intros. by eapply sparse_at_insert_other.
      * intros x Hx. simpl. by apply lookup_app_l_Some.
    + destruct (InsertAtIndex_present cap d0 id s0 (T_of_id id) Hinv Hs0
                  Hne) as [Hins' Hpos].
      rewrite Hins in Hins'. injection Hins' as ->.
      split; [by apply inv_overwrite|]. split; [done|].
      intros x Hx. simpl. rewrite list_lookup_insert_ne; [done|lia].
  - unfold InsertINodeIfNotPresent in Hop. destruct (Z.ltb_spec id 0).
    { destruct (dense_ref d0 0); simplify_eq/=. done. }
    destruct (sparse_at d0 id) as [s0|] eqn:Hs0; simplify_eq/=.
    destruct (Z.eqb_spec s0 0) as [->|Hne].
    + destruct (InsertAtIndex_fresh cap d0 id (T_of_id id) Hcap Hinv Hs0)
        as (Hins' & Hinv' & _). simpl in *.
      rewrite Hins' in Hop. simpl in Hop.
      match type of Hop with
      | context [at_index ?d2 id] =>
          destruct (at_index d2 id); simplify_eq/=
      end.
      split; [done|]. split.
      * intros. by eapply sparse_at_insert_other.
      * intros x Hx. by apply lookup_app_l_Some.
    + simpl in Hop. destruct (at_index d0 id); simplify_eq/=. done.
  - split; [by apply inv_overwrite|]. split; [done|].
    intros x Hx. simpl. rewrite list_lookup_insert_ne; [done|lia].
Qed.

Lemma evolves_preserves (cap : nat) (d d' : SparseData T) :
  Z.of_nat cap < 2 ^ 31 -> inv cap d -> evolves d d' ->
  inv cap d' /\
  (forall id s, sparse_at d id = Some s -> s ≠ 0 ->
                sparse_at d' id = Some s) /\
  (forall x, denseData d !! 0%nat = Some x ->
             denseData d' !! 0%nat = Some x).
Proof.
  intros Hcap Hinv Hev. induction Hev as [d|d d1 d2 Hstep Hrest IH].
  - done.
  - destruct (step_preserves cap d d1 Hcap Hinv Hstep) as (Hi1 & Hk1 & Hz1).
    destruct (IH Hi1) as (Hi2 & Hk2 & Hz2).
    split; [done|]. split; eauto.
Qed.

Lemma InsertINodeIfNotPresent_negative (d : SparseData T) (id : Z) :
  (1 <= length (denseData d))%nat -> id < 0 ->
  InsertINodeIfNotPresent d id = Some (d, 0%nat).
Proof.
  intros Hlen Hid. unfold InsertINodeIfNotPresent.
  destruct (Z.ltb_spec id 0); [|lia].
  rewrite dense_ref_in_range by lia. done.
Qed.

(** C7. After [Reset(capacity)] every identifier of the index table maps
    to the unset sentinel 0 and the backing store is the single dummy
    record; from then on slot zero keeps that record and is what a
    negative identifier gets, while insert-or-fetch on an identifier of
    the table takes a new slot at the end of the backing store on the
    first touch and returns that same slot, changing nothing, on every
    later touch. *)
Theorem registry_reset_insert_or_fetch (cap : nat) :
  Z.of_nat cap < 2 ^ 31 ->
  (forall id, 0 <= id < Z.of_nat cap -> sparse_at (Reset cap) id = Some 0)
  /\ denseData (Reset (T := T) cap) = [T_default]
  /\ forall d, reached cap d ->
       denseData d !! 0%nat = Some T_default
       /\ (forall id, id < 0 ->
             InsertINodeIfNotPresent d id = Some (d, 0%nat))
       /\ (forall id, 0 <= id < Z.of_nat cap ->
             exists d' k,
               InsertINodeIfNotPresent d id = Some (d', k)
               /\ (0 < k)%nat
               /\ (isSet d id = Some false ->
                     k = length (denseData d)
                     /\ denseData d' = denseData d ++ [T_of_id id])
               /\ (isSet d id = Some true -> d' = d)
               /\ (forall d'', evolves d' d'' ->
                     InsertINodeIfNotPresent d'' id = Some (d'', k))).
Proof.
  intros Hcap. split; [|split].
  - intros id Hid. unfold sparse_at. destruct (Z.ltb_spec id 0); [lia|].
    simpl. apply lookup_replicate. split; [done|lia].
  - done.
  - intros d Hreach.
    destruct (evolves_preserves cap _ d Hcap (inv_Reset cap) Hreach)
      as (Hinv & _ & Hzero).
    assert (Hlen1 : (1 <= length (denseData d))%nat)
      by (destruct Hinv as (_ & -> & _); lia).
    split; [by apply Hzero|]. split.
    { intros id Hid. by apply InsertINodeIfNotPresent_negative. }
    intros id Hid.
    destruct (sparse_at_in_range d cap id) as [s Hs];
      [by destruct Hinv|done|].
    assert (Hlater : forall d1 k, inv cap d1 ->
              sparse_at d1 id = Some (Z.of_nat k) -> (0 < k)%nat ->
              forall d'', evolves d1 d'' ->
                InsertINodeIfNotPresent d'' id = Some (d'', k)).
    { intros d1 k Hinv1 Hs1 Hk d'' Hev.
      destruct (evolves_preserves cap d1 d'' Hcap Hinv1 Hev)
        as (Hinv2 & Hkeep & _).
      destruct (InsertINodeIfNotPresent_present cap d'' id (Z.of_nat k))
        as [Hop _]; [done|apply Hkeep; [done|lia]|lia|].
      by rewrite Nat2Z.id in Hop. }
    destruct (decide (s = 0)) as [->|Hne].
    + destruct (InsertAtIndex_fresh cap d id (T_of_id id) Hcap Hinv Hs)
        as (_ & Hinv' & Hat). simpl in *.
      eexists _, _. split;
        [by apply (InsertINodeIfNotPresent_fresh cap)|].
      split; [lia|]. split; [done|]. split.
      * unfold isSet. rewrite Hs. done.
      * apply Hlater; [done| |lia].
        destruct (sparse_at_Some _ _ _ Hs) as [Hid0 Hlk].
        unfold sparse_at. simpl. destruct (Z.ltb_spec id 0); [lia|].
        apply list_lookup_insert_eq. by apply lookup_lt_Some in Hlk.
    + destruct (InsertINodeIfNotPresent_present cap d id s Hinv Hs Hne)
        as [Hop Hpos].
      eexists _, _. split; [exact Hop|]. split; [done|]. split.
      * unfold isSet. rewrite Hs. simpl.
        destruct (Z.eqb_spec s 0); [done|]. done.
      * split; [done|]. apply Hlater; [done| |done].
        rewrite Z2Nat.id; [done|]. destruct Hinv as (_ & _ & Hr).
        destruct (sparse_at_Some _ _ _ Hs) as [_ Hlk].
        specialize (Hr _ _ Hlk). lia.
Qed.
End RegistryFacts.

(** ** The path-sharing hash *)

Section HashFacts.
Context `{FloatOps} `{!Config}.

Lemma shift_loop_zero (fuel : nat) (n : Z) :
  0 <= n < 2 ^ Z.of_nat (S fuel) -> shift_loop (S fuel) n 0 = Some 0.
Proof.
  revert n. induction fuel as [|fuel IH]; intros n Hn.
  - simpl. replace (Z.shiftr n 1) with 0; [done|].
    rewrite Z.shiftr_div_pow2 by lia. change (2 ^ Z.of_nat 1) with 2 in Hn.
    symmetry. apply Z.div_small. lia.
  - cbn [shift_loop]. destruct (Z.eqb_spec (Z.shiftr n 1) 0); [done|].
    change (wrap_i32 (Z.shiftl 0 1)) with 0. apply IH.
    rewrite Z.shiftr_div_pow2 by lia. change (2 ^ 1) with 2.
    split; [apply Z.div_pos; lia|].
    apply Z.div_lt_upper_bound; [lia|].
    rewrite <- Z.pow_succ_r by lia. rewrite <- Nat2Z.inj_succ. lia.
Qed.

(** The loop of [GetNextBitShift] shifts a counter that starts at zero:
    the function is constant. *)
Lemma GetNextBitShift_constant (n : Z) :
  n < 2 ^ 32 -> GetNextBitShift n = Some 1.
Proof.
  intros Hn. unfold GetNextBitShift.
  rewrite (shift_loop_zero 31); [done|].
  change (2 ^ Z.of_nat 32) with (2 ^ 32).
  destruct (Z.ltb_spec 0 n); lia.
Qed.

Lemma descend_choices (fuel : nat) (rootMask srcX srcZ : Z) :
  forall nodeSize num xoff zoff r,
    descend fuel rootMask srcX srcZ nodeSize num xoff zoff = Some r ->
    r = normalized_source rootMask num
          (quadrant_choices fuel srcX srcZ nodeSize xoff zoff).
Proof.
  induction fuel as [|fuel IH]; intros nodeSize num xoff zoff r Hd.
  - simpl in *. destruct (nodeSize >? _); congruence.
  - cbn [descend quadrant_choices] in *.
    destruct (nodeSize >? wrap_u32 QTPFS_SHARE_PATH_MAX_SIZE);
      [|simpl; congruence].
    destruct (quadrant srcX srcZ nodeSize xoff zoff) as [isRight isDown].
    apply IH in Hd. exact Hd.
Qed.

Lemma descend_total (fuel : nat) (rootMask srcX srcZ : Z) :
  forall nodeSize num xoff zoff,
    0 <= nodeSize < 2 ^ Z.of_nat fuel ->
    is_Some (descend fuel rootMask srcX srcZ nodeSize num xoff zoff).
Proof.
  assert (Hmax : 0 <= wrap_u32 QTPFS_SHARE_PATH_MAX_SIZE)
    by (apply Z.mod_pos_bound; lia).
  induction fuel as [|fuel IH]; intros nodeSize num xoff zoff Hn.
  - simpl in *. destruct (Z.gtb_spec nodeSize
                            (wrap_u32 QTPFS_SHARE_PATH_MAX_SIZE)); [lia|].
    done.
  - cbn [descend].
    destruct (nodeSize >? wrap_u32 QTPFS_SHARE_PATH_MAX_SIZE); [|done].
    destruct (quadrant srcX srcZ nodeSize xoff zoff) as [isRight isDown].
    apply IH. rewrite Z.shiftr_div_pow2 by lia. change (2 ^ 1) with 2.
    split; [apply Z.div_pos; lia|].
    apply Z.div_lt_upper_bound; [lia|].
    rewrite <- Z.pow_succ_r by lia. rewrite <- Nat2Z.inj_succ. lia.
Qed.

Lemma wrap_u32_range (z : Z) : 0 <= wrap_u32 z < 2 ^ 32.
Proof. apply Z.mod_pos_bound. lia. Qed.

(** Past the guards, the hash is the key of the normalized source. *)
Lemma GenerateHash_shareable (G : Globals) (L : NodeLayer)
  (s : PathSearch) (srcNode tgtNode : INode) :
  shareable G s srcNode ->
  GenerateHash G L s srcNode tgtNode =
    Some (GenerateHash2 G L
            (normalized_source (wrap_u32 (GetRootMask L))
               (wrap_u32 (GetNodeNumber srcNode))
               (request_choices s srcNode))
            (wrap_u32 (GetNodeNumber tgtNode))).
Proof.
  intros (Hraw & Hmin & shift & Hshift & Hbucket & Hmax).
  unfold GenerateHash. rewrite Hraw.
  destruct (Z.ltb_spec (wrap_u32 (xsize srcNode))
              (wrap_u32 QTPFS_SHARE_PATH_MIN_SIZE)); [lia|].
  rewrite Hshift. cbn [mbind option_bind].
  destruct (Z.ltb_spec (wrap_u32 (xsize srcNode))
              (wrap_u32 (wrap_i32 (Z.shiftl 1 shift)))); [lia|].
  destruct (Z.gtb_spec (wrap_i32 (Z.shiftl 1 shift))
              QTPFS_SHARE_PATH_MAX_SIZE); [lia|].
  match goal with
  | |- context [descend ?f ?m ?x ?z ?n ?k ?a ?b] =>
      destruct (descend_total f m x z n k a b) as [r Hr]
  end.
  { pose proof (wrap_u32_range (xsize srcNode)).
    change (2 ^ Z.of_nat 33) with (2 ^ 33). lia. }
  rewrite Hr. cbn [mbind option_bind]. apply descend_choices in Hr.
  unfold request_choices. by rewrite Hr.
Qed.

Lemma GenerateHash2_mod (G : Globals) (L : NodeLayer) (src dest : Z) :
  0 <= mapx G * mapy G < 2 ^ 31 -> 0 <= GetNodelayer L < 2 ^ 32 ->
  GenerateHash2 G L src dest =
    (src + dest * (mapx G * mapy G)
     + GetNodelayer L * (mapx G * mapy G) * (mapx G * mapy G)) mod 2 ^ 64.
Proof.
  intros HN Hk. unfold GenerateHash2.
  rewrite (wrap_i32_small (mapx G * mapy G)) by lia.
  unfold wrap_u32, wrap_u64.
  rewrite (Z.mod_small (GetNodelayer L)) by lia.
  rewrite (Z.mod_small (mapx G * mapy G) (2 ^ 64)) by lia.
  set (N := mapx G * mapy G). set (M := 2 ^ 64).
  rewrite Zmult_mod_idemp_l, <- Zplus_mod.
  replace (src + (dest * N) mod M + GetNodelayer L * N * N)
    with ((dest * N) mod M + (src + GetNodelayer L * N * N)) by ring.
  rewrite Zplus_mod_idemp_l. f_equal. ring.
Qed.

(** C6. Two shareable requests on one layer, with the same target node,
    the same coarse source node and the same quadrant choice at every
    step of the descent, get the same key: the normalized source number
    plus the target number times the map area plus the layer index times
    the square of the map area, in 64 bits (so reduced modulo 2^64, and
    that very number when it fits). *)
Theorem sharing_key_stable (G : Globals) (L : NodeLayer)
  (s1 s2 : PathSearch) (srcNode tgtNode : INode) :
  shareable G s1 srcNode -> shareable G s2 srcNode ->
  request_choices s1 srcNode = request_choices s2 srcNode ->
  0 <= mapx G * mapy G < 2 ^ 31 ->
  0 <= GetNodelayer L < 2 ^ 32 ->
  0 <= GetNodeNumber tgtNode < 2 ^ 32 ->
  let area := mapx G * mapy G in
  let key :=
    normalized_source (wrap_u32 (GetRootMask L))
      (wrap_u32 (GetNodeNumber srcNode)) (request_choices s1 srcNode)
    + GetNodeNumber tgtNode * area + GetNodelayer L * area * area in
  GenerateHash G L s1 srcNode tgtNode = Some (key mod 2 ^ 64) /\
  GenerateHash G L s2 srcNode tgtNode = Some (key mod 2 ^ 64) /\
  (0 <= key < 2 ^ 64 -> GenerateHash G L s1 srcNode tgtNode = Some key).
Proof.
  intros Hs1 Hs2 Hch HN Hk Ht area key.
  assert (H1 : GenerateHash G L s1 srcNode tgtNode = Some (key mod 2 ^ 64)).
  { rewrite GenerateHash_shareable by done.
    rewrite GenerateHash2_mod by done.
    unfold wrap_u32 at 3. rewrite (Z.mod_small (GetNodeNumber tgtNode)) by lia.
    done. }
  split; [done|]. split.
  - rewrite GenerateHash_shareable by done. rewrite <- Hch.
    rewrite <- GenerateHash_shareable by done. done.
  - intros Hkey. rewrite H1. by rewrite Z.mod_small.
Qed.

(** The sentinel is what a raw probe gets, and what a source node below
    the minimum shareable size gets. *)
Lemma GenerateHash_unshareable (G : Globals) (L : NodeLayer)
  (s : PathSearch) (srcNode tgtNode : INode) :
  rawPathCheck s = true \/
  wrap_u32 (xsize srcNode) < wrap_u32 QTPFS_SHARE_PATH_MIN_SIZE ->
  GenerateHash G L s srcNode tgtNode = Some BAD_HASH.
Proof.
  intros [Hraw | Hsmall]; unfold GenerateHash.
  - by rewrite Hraw.
  - destruct (rawPathCheck s); [done|].
    destruct (Z.ltb_spec (wrap_u32 (xsize srcNode))
                (wrap_u32 QTPFS_SHARE_PATH_MIN_SIZE)); [done|lia].
Qed.

(** C5. The guard on the footprint of the movement class never fires:
    whatever the footprint, above the maximum shareable size included, a
    request that is not a raw probe, from a source node of at least the
    minimum shareable size and at least 2, gets a key, not by way of the
    sentinel. *)
Theorem GenerateHash_footprint_guard_inert (G : Globals) (L : NodeLayer)
  (s : PathSearch) (srcNode tgtNode : INode) :
  moveDef_xsize G < 2 ^ 31 ->
  2 <= QTPFS_SHARE_PATH_MAX_SIZE ->
  rawPathCheck s = false ->
  wrap_u32 QTPFS_SHARE_PATH_MIN_SIZE <= wrap_u32 (xsize srcNode) ->
  2 <= wrap_u32 (xsize srcNode) ->
  GenerateHash G L s srcNode tgtNode =
    Some (GenerateHash2 G L
            (normalized_source (wrap_u32 (GetRootMask L))
               (wrap_u32 (GetNodeNumber srcNode))
               (request_choices s srcNode))
            (wrap_u32 (GetNodeNumber tgtNode))).
Proof.
  intros Hfoot Hmax Hraw Hmin Hsize. apply GenerateHash_shareable.
  split; [done|]. split; [done|]. exists 1.
  split; [apply GetNextBitShift_constant; lia|].
  change (wrap_i32 (Z.shiftl 1 1)) with 2. change (wrap_u32 2) with 2.
  lia.
Qed.
End HashFacts.

(** ** The expansion loop *)

Ltac inv_bind :=
  repeat match goal with
  | H : mbind _ _ = Some _ |- _ =>
      apply bind_Some in H; destruct H as (? & ? & H)
  | H : (let '(_, _) := ?x in _) = Some _ |- _ => destruct x
  | H : Some _ = Some _ |- _ => injection H as H
  | H : None = Some _ |- _ => discriminate H
  end.

Section SearchFacts.
Context `{FloatOps} `{!Float3Ops} `{!Config} `{!PathOps}.

Lemma emplace_perm (e : SearchQueueNode) (q : SearchPriorityQueue) :
  emplace e q ≡ₚ e :: q.
Proof.
  induction q as [|e' q IH]; simpl; [done|].
  destruct (f_gt _ _); [done|]. rewrite IH. apply Permutation_swap.
Qed.

(** Evaluating candidates writes to the scratch arrays only. *)
Lemma eval_netpoint_frame curNode curPoint isTarget nxtNode i j s k s' k' :
  eval_netpoint curNode curPoint isTarget nxtNode i j (s, k)
    = Some (s', k') ->
  but_scratch s' = but_scratch s.
Proof.
  unfold eval_netpoint. intros Hev. inv_bind. by subst.
Qed.

Lemma eval_netpoints_frame curNode curPoint isTarget nxtNode i js :
  forall s k s' k',
    eval_netpoints curNode curPoint isTarget nxtNode i js (s, k)
      = Some (s', k') ->
    but_scratch s' = but_scratch s.
Proof.
  induction js as [|j js IH]; intros s k s' k' Hev;
    cbn [eval_netpoints] in Hev.
  - injection Hev as <- <-. done.
  - apply bind_Some in Hev as ([s1 k1] & Hj & Hrest).
    apply eval_netpoint_frame in Hj. apply IH in Hrest. congruence.
Qed.

Lemma but_scratch_fields (s s' : PathSearch) :
  but_scratch s' = but_scratch s ->
  request_of s' = request_of s /\
  allSearchedNodes s' = allSearchedNodes s /\
  openNodes s' = openNodes s /\
  curSearchNode s' = curSearchNode s /\
  nextSearchNode s' = nextSearchNode s /\
  minSearchNode s' = minSearchNode s /\
  haveFullPath s' = haveFullPath s /\
  havePartPath s' = havePartPath s.
Proof.
  destruct s, s'. unfold but_scratch, with_scratch, request_of. simpl.
  intros E. injection E as -> -> -> -> -> -> -> -> -> -> -> -> -> -> ->.
  done.
Qed.

Lemma select_netpoint_frame L curNode curPoint i id nxt s s' k :
  select_netpoint L curNode curPoint i id nxt s = Some (s', k) ->
  but_scratch s' = but_scratch s.
Proof. unfold select_netpoint. apply eval_netpoints_frame. Qed.

Lemma fetch_neighbor_fields id s s1 nxt :
  fetch_neighbor id s = Some (s1, nxt) ->
  request_of s1 = request_of s /\
  openNodes s1 = openNodes s /\
  curSearchNode s1 = curSearchNode s /\
  minSearchNode s1 = minSearchNode s /\
  haveFullPath s1 = haveFullPath s /\
  havePartPath s1 = havePartPath s.
Proof.
  unfold fetch_neighbor. intros Hf. apply bind_Some in Hf as ([d n] & _ & Hf).
  injection Hf as <- <-. done.
Qed.

(** C2. For a neighbour and its selected candidate crossing point, of
    tentative cost [g] (and heuristic cost [h], at point [p]) against the
    cost [gCost old] recorded for the neighbour: if [g] is strictly less,
    the record gets the current node as predecessor, the costs [g] and [h]
    and the point [p], no other record changes, and one entry for the
    neighbour is added to the open list, every entry already there
    staying; if not, no record changes and nothing is pushed. *)
Theorem relaxation_strict_improvement (L : NodeLayer) (curNode : INode)
  (curPoint : float3) (i : nat) (id : Z) (s s1 s2 : PathSearch)
  (nxt k : nat) (g h : float) (p : float2) (old : SearchNode) :
  fetch_neighbor id s = Some (s1, nxt) ->
  select_netpoint L curNode curPoint i id nxt s1 = Some (s2, k) ->
  gCosts s2 !! k = Some g -> hCosts s2 !! k = Some h ->
  netPoints s2 !! k = Some p ->
  node_at s1 nxt = Some old ->
  f_ge g (gCost old) = negb (f_lt g (gCost old)) ->
  exists s',
    relax_neighbor L curNode curPoint i id s = Some s' /\
    if f_lt g (gCost old) then
      node_at s' nxt =
        Some (mkSearchNode (index old) (f_add g h) g h (curSearchNode s) p)
      /\ (forall j, j <> nxt -> node_at s' j = node_at s1 j)
      /\ openNodes s' =
           emplace (mkSearchQueueNode (f_add g h) (index old)) (openNodes s)
      /\ openNodes s' ≡ₚ
           mkSearchQueueNode (f_add g h) (index old) :: openNodes s
    else
      allSearchedNodes s' = allSearchedNodes s1
      /\ openNodes s' = openNodes s.
Proof.
  intros Hfetch Hsel Hg Hh Hp Hold Hcmp.
  destruct (but_scratch_fields _ _ (select_netpoint_frame _ _ _ _ _ _ _ _ _
                                      Hsel))
    as (_ & Hnodes & Hq & Hcur & _).
  destruct (fetch_neighbor_fields _ _ _ _ Hfetch) as (_ & Hq1 & Hcur1 & _).
  assert (Hold2 : node_at s2 nxt = Some old)
    by (unfold node_at; by rewrite Hnodes).
  unfold relax_neighbor. rewrite Hfetch. cbn [mbind option_bind].
  rewrite Hsel. cbn [mbind option_bind].
  unfold relax. rewrite Hg. cbn [mbind option_bind].
  rewrite Hold2. cbn [mbind option_bind]. rewrite Hcmp.
  destruct (f_lt g (gCost old)); cbn [negb].
  - unfold UpdateNode. rewrite Hold2, Hg, Hh, Hp. cbn [mbind option_bind].
    assert (Hlt : (nxt < length (Sparse.denseData (allSearchedNodes s2)))%nat)
      by (by apply lookup_lt_Some in Hold2).
    assert (Hnew : forall v, node_at (write_node s2 nxt v) nxt = Some v).
    { intros v. unfold node_at, write_node. simpl.
      by apply list_lookup_insert_eq. }
    rewrite Hnew. cbn [mbind option_bind]. eexists. split; [done|].
    split; [|split; [|split]].
    + unfold node_at. simpl. rewrite list_lookup_insert_eq by done.
      rewrite Hcur, Hcur1. done.
    + intros j Hj. unfold node_at. simpl.
      rewrite list_lookup_insert_ne by done. by rewrite Hnodes.
    + simpl. by rewrite Hq, Hq1.
    + simpl. rewrite Hq, Hq1. apply emplace_perm.
  - eexists. split; [done|]. split; [done|]. by rewrite Hq, Hq1.
Qed.


(** *** What the loop leaves alone *)

Lemma UpdateNode_fields s nxt prev k s' :
  UpdateNode s nxt prev k = Some s' ->
  request_of s' = request_of s /\ cursor_of s' = cursor_of s /\
  openNodes s' = openNodes s.
Proof. unfold UpdateNode. intros Hu. inv_bind. by subst. Qed.

Lemma relax_fields nxt k s s' :
  relax nxt k s = Some s' ->
  request_of s' = request_of s /\ cursor_of s' = cursor_of s.
Proof.
  unfold relax. intros Hr. inv_bind. destruct (f_ge _ _).
  - by inv_bind; subst.
  - inv_bind. subst.
    match goal with
    | Hu : UpdateNode _ _ _ _ = Some _ |- _ =>
        apply UpdateNode_fields in Hu as (? & ? & _)
    end.
    done.
Qed.

Lemma relax_neighbor_fields L curNode curPoint i id s s' :
  relax_neighbor L curNode curPoint i id s = Some s' ->
  request_of s' = request_of s /\ cursor_of s' = cursor_of s.
Proof.
  unfold relax_neighbor. intros Hr.
  apply bind_Some in Hr as ([s1 nxt] & Hfetch & Hr).
  apply bind_Some in Hr as ([s2 k] & Hsel & Hr).
  apply relax_fields in Hr as [Hr1 Hr2].
  apply select_netpoint_frame, but_scratch_fields in Hsel
    as (Hs1 & _ & _ & Hs2 & _ & Hs3 & Hs4 & Hs5).
  apply fetch_neighbor_fields in Hfetch as (Hf1 & _ & Hf2 & Hf3 & Hf4 & Hf5).
  split; [congruence|].
  unfold cursor_of in *. congruence.
Qed.

Lemma relax_neighbors_fields L curNode curPoint ids :
  forall i s s',
    relax_neighbors L curNode curPoint i ids s = Some s' ->
    request_of s' = request_of s /\ cursor_of s' = cursor_of s.
Proof.
  induction ids as [|id ids IH]; intros i s s' Hr;
    cbn [relax_neighbors] in Hr.
  - by injection Hr as <-.
  - apply bind_Some in Hr as (s1 & H1' & Hr).
    apply relax_neighbor_fields in H1' as [? ?].
    apply IH in Hr as [? ?]. split; congruence.
Qed.

Lemma IterateNodes_fields L s s' :
  IterateNodes L s = Some s' ->
  request_of s' = request_of s /\
  haveFullPath s' = haveFullPath s /\ havePartPath s' = havePartPath s /\
  is_Some (curSearchNode s').
Proof.
  unfold IterateNodes. intros Hi.
  destruct (openNodes s) as [|e q]; [done|].
  apply bind_Some in Hi as (cur & _ & Hi).
  destruct (Nat.eqb _ _); [by injection Hi as <-|].
  apply bind_Some in Hi as (curRec & _ & Hi).
  destruct (f_lt _ _); [by injection Hi as <-|].
  apply bind_Some in Hi as (s2 & Hmin & Hi).
  assert (Hs2 : request_of s2 = request_of s /\
                haveFullPath s2 = haveFullPath s /\
                havePartPath s2 = havePartPath s /\
                curSearchNode s2 = Some cur).
  { destruct QTPFS_SUPPORT_PARTIAL_SEARCHES.
    - apply bind_Some in Hmin as (minRec & _ & Hmin).
      destruct (f_lt _ _); by injection Hmin as <-.
    - by injection Hmin as <-. }
  destruct Hs2 as (? & ? & ? & Hc).
  unfold IterateNodeNeighbors in Hi.
  apply bind_Some in Hi as (c & _ & Hi).
  apply bind_Some in Hi as (r & _ & Hi).
  apply relax_neighbors_fields in Hi as [? Hcur].
  unfold cursor_of in Hcur. injection Hcur as Hc1 _ Hf Hp.
  repeat split; try congruence. rewrite Hc1, Hc. by eexists.
Qed.

Lemma search_loop_outcome (fuel : nat) (L : NodeLayer) :
  forall s s',
    search_loop fuel L s = Some s' ->
    request_of s' = request_of s /\
    openNodes s' = [] /\
    havePartPath s' = havePartPath s /\
    (openNodes s <> [] ->
     haveFullPath s' =
       bool_decide (curSearchNode s' = Some (tgtSearchNode s'))).
Proof.
  induction fuel as [|fuel IH]; intros s s' Hl; cbn [search_loop] in Hl.
  - destruct (openNodes s) eqn:Hq; [|done]. by injection Hl as <-.
  - destruct (openNodes s) as [|e q] eqn:Hq; [by injection Hl as <-|].
    apply bind_Some in Hl as (s1 & Hit & Hl).
    apply IterateNodes_fields in Hit as (Hreq & _ & Hpart & _).
    set (full := bool_decide (curSearchNode s1 = Some (tgtSearchNode s1)))
      in *.
    set (sn := if full then ResetQueue (with_flags s1 full (havePartPath s1))
               else with_flags s1 full (havePartPath s1)) in *.
    assert (Hsn : request_of sn = request_of s1 /\
                  havePartPath sn = havePartPath s1 /\
                  haveFullPath sn = full /\
                  curSearchNode sn = curSearchNode s1)
      by (subst sn; by destruct full).
    destruct Hsn as (Hr1 & Hp1 & Hf1 & Hc1).
    pose proof (IH _ _ Hl) as (Hr2 & Hq2 & Hp2 & Hfull).
    split; [congruence|]. split; [done|]. split; [congruence|].
    intros _. destruct (openNodes sn) eqn:Hqn.
    + destruct fuel; cbn [search_loop] in Hl; rewrite Hqn in Hl;
        injection Hl as <-; rewrite Hf1; subst full;
        unfold request_of in Hr1; injection Hr1 as _ _ _ _ _ _ Ht;
        by rewrite Hc1, Ht.
    + by apply Hfull.
Qed.

Lemma seed_fields G s s' :
  seed G s = Some s' ->
  request_of s' = request_of s /\ cursor_of s' = cursor_of s /\
  openNodes s' <> [].
Proof.
  unfold seed. intros Hs. apply bind_Some in Hs as (s1 & Hreset & Hs).
  apply UpdateNode_fields in Hs as (Hr & Hc & Hq).
  unfold ResetState in Hreset. apply bind_Some in Hreset as (n & _ & Hre).
  injection Hre as <-. split; [done|]. split; [done|].
  rewrite Hq. done.
Qed.

Lemma conclude_outcome L s found s' :
  conclude L s = Some (found, s') ->
  found = haveFullPath s' || havePartPath s' /\
  haveFullPath s' = haveFullPath s /\
  havePartPath s' = negb (Nat.eqb (minSearchNode s) (srcSearchNode s)) /\
  curSearchNode s' = curSearchNode s /\
  minSearchNode s' = minSearchNode s /\
  srcSearchNode s' = srcSearchNode s /\
  badGoal s' = badGoal s /\ rawPathCheck s' = rawPathCheck s.
Proof.
  unfold conclude. intros Hc. apply bind_Some in Hc as (s5 & Hs5 & Hc).
  injection Hc as <- <-.
  destruct (_ && _).
  - apply bind_Some in Hs5 as (r & _ & Hs5). by injection Hs5 as <-.
  - by injection Hs5 as <-.
Qed.
End SearchFacts.

(** ** Finalization *)

Section RouteFacts.
Context `{FloatOps} `{!Float3Ops} `{!Config} `{!PathOps}.

Lemma trace_loop_fields (fuel : nat) :
  forall s tmp prv prvPoint deque s' deque',
    trace_loop fuel s tmp prv prvPoint deque = Some (s', deque') ->
    request_of s' = request_of s /\ cursor_of s' = cursor_of s.
Proof.
  induction fuel as [|fuel IH]; intros s tmp prv prvPoint deque s' deque' Ht;
    cbn [trace_loop] in Ht; destruct prv as [prv|];
    try (by injection Ht as <- <-);
    destruct (Nat.eqb _ _); try (by injection Ht as <- <-); [done|].
  apply bind_Some in Ht as (tmpRec & _ & Ht).
  apply bind_Some in Ht as (prvRec & _ & Ht).
  apply IH in Ht as [Hr Hc]. rewrite Hr, Hc.
  by destruct QTPFS_SMOOTH_PATHS.
Qed.

Lemma TracePath_fields fuel s path s' p' :
  TracePath fuel s path = Some (s', p') ->
  request_of s' = request_of s /\ cursor_of s' = cursor_of s.
Proof.
  unfold TracePath. intros Ht.
  apply bind_Some in Ht as ([s1 deque] & Hloop & Ht).
  inv_bind. subst. destruct (Nat.eqb _ _).
  - by injection Hloop as <- _.
  - apply bind_Some in Hloop as (r & _ & Hloop).
    by apply trace_loop_fields in Hloop.
Qed.

(** The flags [Finalize] writes on the route. *)
Lemma Finalize_flags fuel L s path s' p' :
  Finalize fuel L s path = Some (s', p') ->
  hasFullPath p' = haveFullPath s && negb (badGoal s) /\
  hasPartialPath p' = havePartPath s.
Proof.
  unfold Finalize. intros Hf.
  apply bind_Some in Hf as ([s1 path1] & Hbody & Hf).
  injection Hf as <- <-. simpl.
  assert (Hs1 : request_of s1 = request_of s /\ cursor_of s1 = cursor_of s).
  { destruct (rawPathCheck s); [by injection Hbody as <- _|].
    apply bind_Some in Hbody as ([s2 p2] & Ht & Hbody).
    apply TracePath_fields in Ht. inv_bind. by subst. }
  destruct Hs1 as [Hr Hc]. unfold request_of, cursor_of in *.
  injection Hr as _ _ _ _ -> _ _. injection Hc as _ _ -> ->. done.
Qed.

(** [InitializeThread] flags the goal as degraded exactly when the target
    node is fully impassable and a substitute was found. *)
Lemma InitializeThread_badGoal G L s s1 :
  InitializeThread G L s = Some s1 ->
  let tgtNode := GetNode L (square_of (vx (tgtPoint s)))
                           (square_of (vz (tgtPoint s))) in
  badGoal s1 = true <->
  AllSquaresImpassable tgtNode = true /\
  is_Some (GetNearestNodeInArea L
             (mkSRectangle (Z.max (wrap_i32 (xmin tgtNode) - 16) 0)
                           (Z.max (wrap_i32 (zmin tgtNode) - 16) 0)
                           (Z.min (wrap_i32 (xmax tgtNode) + 16) (mapx G))
                           (Z.min (wrap_i32 (zmax tgtNode) + 16) (mapy G)))
             (square_of (vx (tgtPoint s)), square_of (vz (tgtPoint s)))).
Proof.
  unfold InitializeThread. intros Hi.
  apply bind_Some in Hi as ([d1 src] & _ & Hi).
  apply bind_Some in Hi as ([d2 tgt] & _ & Hi).
  injection Hi as <-. simpl.
  destruct (AllSquaresImpassable _).
  - destruct (GetNearestNodeInArea _ _ _).
    + split; [by eauto|done].
    + split; [done|]. intros [_ [? ?]]. done.
  - split; [done|]. intros [? _]. done.
Qed.

(** C1. When an executed graph search completes, its two flags are set
    independently of each other: for distinct source and target records
    the full-path flag tells whether the last entry popped was the
    target's, the partial-path flag whether the lowest-heuristic record
    differs from the source record (for equal records: full path, no
    partial path); the value returned is their disjunction, and
    [Finalize] writes them on the route, the first masked by a degraded
    goal. *)
Theorem search_outcome (fuel : nat) (G : Globals) (L : NodeLayer)
  (s s' : PathSearch) (found : bool) :
  rawPathCheck s = false ->
  Execute fuel G L s = Some (found, s') ->
  found = haveFullPath s' || havePartPath s'
  /\ (if Nat.eqb (srcSearchNode s) (tgtSearchNode s)
      then haveFullPath s' = true /\ havePartPath s' = false
      else haveFullPath s' =
             bool_decide (curSearchNode s' = Some (tgtSearchNode s))
           /\ havePartPath s' =
                negb (Nat.eqb (minSearchNode s') (srcSearchNode s)))
  /\ forall fuel' path s'' p',
       Finalize fuel' L s' path = Some (s'', p') ->
       hasFullPath p' = haveFullPath s' && negb (badGoal s)
       /\ hasPartialPath p' = havePartPath s'.
Proof.
  intros Hraw He. unfold Execute in He. simpl in He.
  destruct (Nat.eqb (srcSearchNode s) (tgtSearchNode s)) eqn:Hst.
  - injection He as <- <-. split; [done|]. split; [done|].
    intros fuel' path s'' p' Hf. by apply Finalize_flags in Hf.
  - rewrite Hraw in He. unfold ExecutePathSearch in He.
    apply bind_Some in He as (s2 & Hseed & He).
    apply bind_Some in He as (s3 & Hloop & He).
    apply seed_fields in Hseed as (Hr2 & Hc2 & Hq2).
    apply search_loop_outcome in Hloop as (Hr3 & _ & Hp3 & Hfull).
    apply conclude_outcome in He
      as (-> & Hf5 & Hp5 & Hc5 & Hm5 & Hs5 & Hb5 & _).
    specialize (Hfull Hq2).
    unfold request_of in Hr2, Hr3. simpl in Hr2.
    injection Hr2 as _ _ _ _ Hb2 Hsrc2 Htgt2.
    injection Hr3 as _ _ _ _ Hb3 Hsrc3 Htgt3.
    split; [done|]. split; [split|].
    + rewrite Hf5, Hfull, Hc5. by rewrite Htgt3, Htgt2.
    + rewrite Hp5, Hm5. by rewrite Hsrc3, Hsrc2.
    + intros fuel' path s'' p' Hf. apply Finalize_flags in Hf as [-> ->].
      by rewrite Hb5, Hb3, Hb2.
Qed.

Lemma SetPoint_Some (p : IPath) (i : nat) (v : float3) :
  (i < NumPoints p)%nat ->
  SetPoint p (Z.of_nat i) v = Some (with_points p (<[i := v]> (points p))).
Proof.
  intros Hi. unfold SetPoint, in_route.
  destruct (Z.leb_spec 0 (Z.of_nat i)); [|lia].
  destruct (Z.ltb_spec (Z.of_nat i) (Z.of_nat (NumPoints p))); [|lia].
  by rewrite Nat2Z.id.
Qed.

(** C4. When the source and target records are the same, [Execute]
    returns at once, the loop having no fuel to turn even once and the
    state keeping all but its flags; finalized (raw-probe flag unset)
    into a route of two points, the route is the literal source point
    followed by the literal target point, without partial path, and with
    full path unless the goal is degraded. *)
Theorem trivial_path (fuel : nat) (G : Globals) (L : NodeLayer)
  (s : PathSearch) (path : IPath) :
  srcSearchNode s = tgtSearchNode s ->
  rawPathCheck s = false ->
  NumPoints path = 2%nat ->
  let s' := with_flags s true false in
  Execute 0 G L s = Some (true, s') /\
  Execute fuel G L s = Some (true, s') /\
  exists p',
    Finalize fuel L s' path = Some (s', p') /\
    points p' = [srcPoint s; tgtPoint s] /\
    hasFullPath p' = negb (badGoal s) /\
    hasPartialPath p' = false.
Proof.
  intros Hst Hraw Hn s'.
  assert (He : forall f, Execute f G L s = Some (true, s')).
  { intros f. unfold Execute. simpl. rewrite Hst, Nat.eqb_refl. done. }
  split; [done|]. split; [done|].
  destruct path as [pid ph pts bb pf pp]. unfold NumPoints in Hn.
  simpl in Hn. destruct pts as [|a [|b [|c pts]]]; try done.
  unfold Finalize, TracePath. subst s'. simpl. rewrite Hraw, Hst.
  rewrite Nat.eqb_refl. simpl.
  destruct QTPFS_SMOOTH_PATHS; simpl; eexists; (split; [done|]); done.
Qed.

(** C9. What [SharedFinalize] does to the destination route: the points
    are those of the cached route with the first replaced by the literal
    source point and the last by the literal target point, the bounding
    box is that of these points, the full-path flag is the cached
    route's; the identifier, the hash and the partial-path flag of the
    destination stay as they were.  The flags of the cached route go to
    the search itself. *)
Theorem SharedFinalize_effect (s : PathSearch) (srcPath dstPath : IPath) :
  points srcPath <> [] ->
  let pts := <[Nat.pred (NumPoints srcPath) := tgtPoint s]>
               (<[0%nat := srcPoint s]> (points srcPath)) in
  SharedFinalize s srcPath dstPath =
    Some (true,
          with_flags s (hasFullPath srcPath) (hasPartialPath srcPath),
          mkIPath (pathID dstPath) (pathHash dstPath) pts (bounds_of pts)
                  (hasFullPath srcPath) (hasPartialPath dstPath)).
Proof.
  intros Hne pts. unfold SharedFinalize, SetSourcePoint, SetTargetPoint.
  assert (Hlen : (0 < length (points srcPath))%nat)
    by (destruct (points srcPath); [done|simpl; lia]).
  rewrite (SetPoint_Some _ 0) by done. cbn [mbind option_bind].
  replace (Z.of_nat (NumPoints _) - 1)
    with (Z.of_nat (Nat.pred (NumPoints srcPath))).
  2:{ unfold NumPoints, CopyPoints, with_points. simpl.
      rewrite length_insert. lia. }
  rewrite SetPoint_Some.
  2:{ unfold NumPoints, CopyPoints, with_points. simpl.
      rewrite length_insert. lia. }
  done.
Qed.
End RouteFacts.

(** ** Trace-back *)

Section TraceFacts.
Context `{FloatOps} `{!Float3Ops} `{!Config} `{!PathOps}.

(** The predecessor links determine the records they visit. *)
Lemma links_unique (s : PathSearch) (n : nat) (ns1 : list nat) :
  links s n ns1 -> forall ns2, links s n ns2 -> ns1 = ns2.
Proof.
  induction 1 as [n r Hsrc Hn | n r Hn Hprev | n r m ns Hsrc Hn Hprev _ IH];
    intros ns2 Hl2; inversion Hl2; subst; try done; try congruence.
  f_equal. apply IH. congruence.
Qed.

Lemma links_node (s : PathSearch) (n : nat) (ns : list nat) :
  links s n ns -> is_Some (node_at s n).
Proof. destruct 1; by eexists. Qed.

(** A record is not met again further along its own links. *)
Lemma links_shorter (s : PathSearch) (n m : nat) (ns ns' : list nat) :
  links s n (n :: ns) -> links s m ns' ->
  (length ns' <= length ns)%nat -> m <> n.
Proof.
  intros Hn Hm Hlen ->.
  pose proof (links_unique _ _ _ Hn _ Hm) as <-. simpl in Hlen. lia.
Qed.

Lemma node_at_write_ne (s : PathSearch) (n m : nat) (v : SearchNode) :
  m <> n -> node_at (write_node s n v) m = node_at s m.
Proof.
  intros Hne. unfold node_at, write_node. simpl.
  by apply list_lookup_insert_ne.
Qed.

(** The first loop of [TracePath], against the links of the state [s0]
    it starts from; [s] is the state the loop has reached, which differs
    from [s0] at most at records the links no longer lead to. *)
Lemma trace_loop_links (s0 : PathSearch) (n : nat) (ns : list nat) :
  links s0 n ns ->
  forall fuel s r prvPoint deque,
    (length ns <= fuel)%nat ->
    srcSearchNode s = srcSearchNode s0 ->
    (forall m ns', links s0 m ns' -> (length ns' <= length ns)%nat ->
                   node_at s m = node_at s0 m) ->
    node_at s0 n = Some r ->
    exists s',
      trace_loop fuel s n (prevNode r) prvPoint deque =
        Some (s', rev (skip_repeats prvPoint (crossing_points s0 ns))
                    ++ deque).
Proof.
  induction 1 as [n r0 Hsrc Hn | n r0 Hn Hprev
                 | n r0 m ns Hsrc Hn Hprev Hlinks IH];
    intros fuel s r prvPoint deque Hfuel Hs Hagree Hr;
    rewrite Hn in Hr; injection Hr as <-.
  - exists s. destruct fuel; cbn [trace_loop];
      (destruct (prevNode r0); [|done]);
      rewrite Hs, Hsrc, Nat.eqb_refl; done.
  - exists s. rewrite Hprev. by destruct fuel.
  - destruct fuel as [|fuel]; [simpl in Hfuel; lia|].
    assert (Hstep : links s0 n (n :: ns)) by (by eapply links_step).
    rewrite Hprev. cbn [trace_loop]. rewrite Hs.
    destruct (Nat.eqb_spec n (srcSearchNode s0)); [done|].
    rewrite (Hagree n (n :: ns)), Hn by done. cbn [mbind option_bind].
    destruct (links_node _ _ _ Hlinks) as [rm Hrm].
    set (s1 := if QTPFS_SMOOTH_PATHS then s
               else write_node s n (SetPrevNode r0 None)).
    assert (Hs1 : srcSearchNode s1 = srcSearchNode s0)
      by (subst s1; by destruct QTPFS_SMOOTH_PATHS).
    assert (Hagree1 : forall k ns', links s0 k ns' ->
              (length ns' <= length ns)%nat -> node_at s1 k = node_at s0 k).
    { intros k ns' Hk Hlen. subst s1.
      rewrite <- (Hagree k ns') by (done || simpl; lia).
      destruct QTPFS_SMOOTH_PATHS; [done|].
      apply node_at_write_ne. by eapply links_shorter. }
    rewrite (Hagree1 m ns), Hrm by done. cbn [mbind option_bind].
    destruct (IH fuel s1 rm (lift (selectedNetpoint r0))
                (if float3_ne (lift (selectedNetpoint r0)) prvPoint
                 then lift (selectedNetpoint r0) :: deque else deque))
      as [s' Hs']; [simpl in Hfuel; lia|done|done|done|].
    exists s'. rewrite Hs'. f_equal. f_equal.
    unfold crossing_points. cbn [omap list_omap]. rewrite Hn.
    cbn [fmap option_fmap option_map skip_repeats].
    destruct (float3_ne _ _); [|done].
    cbn [rev]. by rewrite <- app_assoc.
Qed.

(** The second loop of [TracePath] fills the slots after [pre]. *)
Lemma set_waypoints_fill (deque : list float3) :
  forall (p : IPath) (pre fill : list float3) (last : float3),
    points p = pre ++ fill ++ [last] -> length fill = length deque ->
    set_waypoints deque p = Some (with_points p (pre ++ deque ++ [last])).
Proof.
  induction deque as [|front rest IH]; intros p pre fill lst Hp Hlen.
  - destruct fill; [|done]. simpl. destruct p; simpl in *. by subst.
  - destruct fill as [|f fill]; [done|]. cbn [set_waypoints].
    assert (Hidx : Z.of_nat (NumPoints p) - Z.of_nat (length (front :: rest))
                   - 1 = Z.of_nat (length pre)).
    { unfold NumPoints. rewrite Hp, !length_app. simpl in *. lia. }
    rewrite Hidx, SetPoint_Some.
    2:{ unfold NumPoints. rewrite Hp, !length_app. simpl. lia. }
    cbn [mbind option_bind].
    rewrite (IH _ (pre ++ [front]) fill lst).
    + f_equal. unfold with_points. simpl. f_equal.
      by rewrite <- app_assoc.
    + simpl. rewrite Hp.
      rewrite insert_app_r_alt by lia. rewrite Nat.sub_diag. simpl.
      by rewrite <- app_assoc.
    + simpl in Hlen. lia.
Qed.

(** The route [TracePath] writes for distinct source and target records. *)
Lemma TracePath_points (fuel : nat) (s : PathSearch) (path : IPath)
  (ns : list nat) :
  srcSearchNode s <> tgtSearchNode s ->
  links s (tgtSearchNode s) ns ->
  (length ns <= fuel)%nat ->
  NumPoints path = 2%nat ->
  let collected := skip_repeats (tgtPoint s) (crossing_points s ns) in
  exists s' p',
    TracePath fuel s path = Some (s', p') /\
    points p' = srcPoint s :: rev collected ++ [tgtPoint s] /\
    with_points p' [] = with_points path [].
Proof.
  intros Hst Hlinks Hfuel Hn collected.
  destruct (links_node _ _ _ Hlinks) as [r Hr].
  destruct (trace_loop_links s _ _ Hlinks fuel s r (tgtPoint s) [])
    as [s' Hloop]; [done|done|done|done|].
  rewrite app_nil_r in Hloop. fold collected in Hloop.
  pose proof (trace_loop_fields _ _ _ _ _ _ _ _ Hloop) as [Hreq _].
  unfold request_of in Hreq. injection Hreq as Hsp Htp _ _ _ _ _.
  unfold TracePath.
  destruct (Nat.eqb_spec (srcSearchNode s) (tgtSearchNode s)); [done|].
  rewrite Hr. cbn [mbind option_bind]. rewrite Hloop.
  cbn [mbind option_bind]. rewrite Hsp, Htp.
  destruct path as [pid ph pts bb pf pp]. unfold NumPoints in Hn.
  simpl in Hn. destruct pts as [|a [|b [|c pts]]]; try done.
  destruct (rev collected) as [|p0 deque] eqn:Hrev.
  - simpl. by eexists _, _.
  - set (p1 := AllocPoints _ _).
    rewrite (set_waypoints_fill (p0 :: deque) p1 [ZeroVector]
               (replicate (length (p0 :: deque)) ZeroVector) ZeroVector).
    + cbn [mbind option_bind]. unfold SetSourcePoint.
      rewrite (SetPoint_Some _ 0) by (unfold NumPoints; simpl; lia).
      cbn [mbind option_bind]. unfold SetTargetPoint.
      set (p2 := with_points _ _).
      replace (Z.of_nat (NumPoints p2) - 1)
        with (Z.of_nat (S (length (p0 :: deque)))).
      2:{ subst p2. unfold NumPoints. simpl. rewrite length_app. simpl.
          lia. }
      rewrite SetPoint_Some.
      2:{ subst p2. unfold NumPoints. simpl. rewrite length_app. simpl.
          lia. }
      eexists _, _. split; [done|]. split; [|done]. subst p2. simpl.
      f_equal. rewrite insert_app_r_alt by (simpl; lia).
      by rewrite Nat.sub_diag.
    + subst p1. unfold AllocPoints. simpl. f_equal.
      replace (length deque + 2)%nat with (S (S (length deque))) by lia.
      simpl. f_equal. by rewrite <- replicate_S_end.
    + by rewrite length_replicate.
Qed.

(** C8. With distinct source and target records, [TracePath] follows
    the predecessor links from the target record until the source record
    (or a record without predecessor), takes the crossing point of each
    record on the way unless it equals the point of the hop before (at
    the first hop: unless it equals the literal target point), and writes
    the route: the literal source point, the points taken in
    source-to-target order, the literal target point.  Nothing else of
    the route changes. *)
Theorem TracePath_waypoints (fuel : nat) (s : PathSearch) (path : IPath)
  (ns : list nat) :
  srcSearchNode s <> tgtSearchNode s ->
  links s (tgtSearchNode s) ns ->
  (length ns <= fuel)%nat ->
  NumPoints path = 2%nat ->
  let collected := skip_repeats (tgtPoint s) (crossing_points s ns) in
  exists s' p',
    TracePath fuel s path = Some (s', p') /\
    points p' = srcPoint s :: rev collected ++ [tgtPoint s] /\
    with_points p' [] = with_points path [].
Proof.
  intros Hst Hlinks Hfuel Hn collected.
  by apply TracePath_points.
Qed.
End TraceFacts.

(** ** Finalization: when it returns

    [Finalize] reads the registry along the predecessor links and indexes
    the route; the lemmas below say when all of this stays inside the
    registry and the route, and what the route then is, whatever the
    route does with other indices. *)

Section FinalizeFacts.
Context `{FloatOps} `{!Float3Ops} `{!Config} `{!PathOps}.

Lemma trail_links (s : PathSearch) (n : nat) (ns : list nat) :
  trail s n ns -> links s n ns.
Proof.
  induction 1 as [r Hr | n r m ns Hne Hn Hprev _ IH];
    [by eapply links_source | by eapply links_step].
Qed.

Lemma trail_node (s : PathSearch) (n : nat) (ns : list nat) :
  trail s n ns -> is_Some (node_at s n).
Proof. destruct 1; by eexists. Qed.

Lemma on_trail_sound (s : PathSearch) (ns : list nat) :
  forall n, on_trail s n ns = true -> trail s n ns.
Proof.
  induction ns as [|n' ns IH]; intros n Hn; cbn [on_trail] in Hn.
  - apply andb_true_iff in Hn as [Heq Hrec].
    apply Nat.eqb_eq in Heq as ->.
    destruct (node_at s (srcSearchNode s)) as [r|] eqn:Hr; [|done].
    by eapply trail_source.
  - apply andb_true_iff in Hn as [Hn Hrec].
    apply andb_true_iff in Hn as [Heq Hne].
    apply Nat.eqb_eq in Heq as <-.
    apply negb_true_iff, Nat.eqb_neq in Hne.
    destruct (node_at s n) as [r|] eqn:Hr; [|done].
    destruct (prevNode r) as [m|] eqn:Hm; [|done].
    eapply trail_step; eauto.
Qed.

Lemma trail_at_source (s : PathSearch) (ns : list nat) :
  trail s (srcSearchNode s) ns -> ns = [].
Proof. by inversion 1. Qed.

Lemma in_route_spec (p : IPath) (i : Z) :
  in_route p i = true <-> 0 <= i < Z.of_nat (NumPoints p).
Proof. unfold in_route. rewrite andb_true_iff, Z.leb_le, Z.ltb_lt. done. Qed.

Lemma GetPoint_inside (p : IPath) (i : Z) :
  0 <= i < Z.of_nat (NumPoints p) -> is_Some (GetPoint p i).
Proof.
  intros Hi. unfold GetPoint. rewrite (proj2 (in_route_spec p i) Hi).
  apply lookup_lt_is_Some. unfold NumPoints in Hi. lia.
Qed.

Lemma SetPoint_inside (p : IPath) (i : Z) (v : float3) :
  0 <= i < Z.of_nat (NumPoints p) ->
  SetPoint p i v = Some (with_points p (<[Z.to_nat i := v]> (points p))).
Proof.
  intros Hi. unfold SetPoint. by rewrite (proj2 (in_route_spec p i) Hi).
Qed.

Lemma GetPoint_tolerant (p : IPath) (i : Z) :
  tolerant -> points p <> [] -> is_Some (GetPoint p i).
Proof.
  intros Htol Hne. unfold GetPoint. destruct (in_route p i) eqn:E.
  - apply in_route_spec in E. apply lookup_lt_is_Some.
    unfold NumPoints in E. lia.
  - by apply Htol.
Qed.

Lemma SetPoint_tolerant (p : IPath) (i : Z) (v : float3) :
  tolerant -> points p <> [] ->
  exists p', SetPoint p i v = Some p' /\ points p' <> [].
Proof.
  intros Htol Hne. unfold SetPoint. destruct (in_route p i) eqn:E.
  - eexists. split; [done|]. simpl. intros Hnil.
    apply (f_equal length) in Hnil. rewrite length_insert in Hnil.
    by destruct (points p).
  - destruct (Htol (points p) i Hne) as [_ Hset].
    destruct (Hset v) as (ps & -> & Hps). by eexists.
Qed.

(** *** Smoothing *)

(** The loop of [SmoothPathIter] on a route that has a point for every
    hop left: it reads and writes points of the route only, and writes
    none but inner ones. *)
Lemma smooth_loop_inside (L : NodeLayer) (s : PathSearch) (n1 : nat)
  (ns : list nat) :
  trail s n1 ns ->
  forall fuel ni nm path,
    (length ns <= fuel)%nat ->
    Z.of_nat (length ns) + 2 <= ni <= Z.of_nat (NumPoints path) ->
    exists nm' path',
      smooth_loop fuel L s n1 ni nm path = Some (nm', path') /\
      NumPoints path' = NumPoints path /\
      with_points path' [] = with_points path [] /\
      points path' !! 0%nat = points path !! 0%nat /\
      last (points path') = last (points path).
Proof.
  induction 1 as [r Hr | n r m ns Hne Hn Hprev Htrail IH];
    intros fuel ni nm path Hfuel Hni.
  - exists nm, path. destruct fuel; cbn [smooth_loop];
      rewrite Nat.eqb_refl; done.
  - destruct fuel as [|fuel]; [simpl in Hfuel; lia|]. cbn [smooth_loop].
    destruct (Nat.eqb_spec n (srcSearchNode s)); [done|].
    rewrite Hn. cbn [mbind option_bind]. rewrite Hprev.
    cbn [mbind option_bind].
    destruct (trail_node _ _ _ Htrail) as [r1 Hr1]. rewrite Hr1.
    cbn [mbind option_bind]. cbn [length] in Hni, Hfuel.
    destruct (GetPoint_inside path (ni - 1)) as [p0 ->]; [lia|].
    destruct (GetPoint_inside path (ni - 1 - 1)) as [p1 ->]; [lia|].
    destruct (GetPoint_inside path (ni - 1 - 2)) as [p2 ->]; [lia|].
    cbn [mbind option_bind].
    destruct (smooth_triplet _ _ _ _ _) as [pi|].
    + rewrite (SetPoint_inside path (ni - 1 - 1) pi) by lia.
      cbn [mbind option_bind].
      match goal with
      | |- context [smooth_loop fuel L s m (ni - 1) ?c ?p] =>
          destruct (IH fuel (ni - 1) c p)
            as (nm' & path' & Hl & Hlen & Hrest & Hfirst & Hlast);
            [lia
            | unfold NumPoints in *; simpl; rewrite length_insert; lia |]
      end.
      exists nm', path'. split; [exact Hl|].
      unfold NumPoints in *. simpl in *. rewrite length_insert in Hlen.
      split; [done|]. split; [done|]. split.
      * rewrite Hfirst. apply list_lookup_insert_ne. lia.
      * rewrite Hlast, !last_lookup, length_insert.
        apply list_lookup_insert_ne. lia.
    + apply IH; lia.
Qed.

Lemma smooth_loop_tolerant (L : NodeLayer) (s : PathSearch) (n1 : nat)
  (ns : list nat) :
  tolerant -> trail s n1 ns ->
  forall fuel ni nm path,
    (length ns <= fuel)%nat -> points path <> [] ->
    exists nm' path',
      smooth_loop fuel L s n1 ni nm path = Some (nm', path') /\
      points path' <> [].
Proof.
  intros Htol. induction 1 as [r Hr | n r m ns Hne Hn Hprev Htrail IH];
    intros fuel ni nm path Hfuel Hpts.
  - exists nm, path. destruct fuel; cbn [smooth_loop];
      rewrite Nat.eqb_refl; done.
  - destruct fuel as [|fuel]; [simpl in Hfuel; lia|]. cbn [smooth_loop].
    destruct (Nat.eqb_spec n (srcSearchNode s)); [done|].
    rewrite Hn. cbn [mbind option_bind]. rewrite Hprev.
    cbn [mbind option_bind].
    destruct (trail_node _ _ _ Htrail) as [r1 Hr1]. rewrite Hr1.
    cbn [mbind option_bind]. cbn [length] in Hfuel.
    destruct (GetPoint_tolerant path (ni - 1) Htol Hpts) as [p0 ->].
    destruct (GetPoint_tolerant path (ni - 1 - 1) Htol Hpts) as [p1 ->].
    destruct (GetPoint_tolerant path (ni - 1 - 2) Htol Hpts) as [p2 ->].
    cbn [mbind option_bind].
    destruct (smooth_triplet _ _ _ _ _) as [pi|].
    + destruct (SetPoint_tolerant path (ni - 1 - 1) pi Htol Hpts)
        as (path1 & -> & Hpts1).
      cbn [mbind option_bind]. apply IH; [lia|done].
    + apply IH; [lia|done].
Qed.

Lemma smooth_passes_inside (k fuel : nat) (L : NodeLayer) (s : PathSearch)
  (ns : list nat) :
  trail s (tgtSearchNode s) ns -> (length ns <= fuel)%nat ->
  forall path,
    (length ns + 2 <= NumPoints path)%nat ->
    exists path',
      smooth_passes k fuel L s path = Some path' /\
      NumPoints path' = NumPoints path /\
      with_points path' [] = with_points path [] /\
      points path' !! 0%nat = points path !! 0%nat /\
      last (points path') = last (points path).
Proof.
  intros Htrail Hfuel. induction k as [|k IH]; intros path Hn;
    cbn [smooth_passes].
  - by exists path.
  - unfold SmoothPathIter.
    destruct (smooth_loop_inside L s _ _ Htrail fuel
                (Z.of_nat (NumPoints path)) 0%nat path)
      as (nm & p1 & -> & Hlen & Hrest & Hfirst & Hlast); [done|lia|].
    cbn [mbind option_bind]. destruct (negb (Nat.eqb nm 0)).
    + destruct (IH p1) as (path' & Hp & Hlen' & Hrest' & Hfirst' & Hlast');
        [lia|].
      exists path'. split; [exact Hp|]. split; [congruence|].
      split; [congruence|]. split; congruence.
    + by exists p1.
Qed.

Lemma smooth_passes_tolerant (k fuel : nat) (L : NodeLayer) (s : PathSearch)
  (ns : list nat) :
  tolerant -> trail s (tgtSearchNode s) ns -> (length ns <= fuel)%nat ->
  forall path, points path <> [] ->
    is_Some (smooth_passes k fuel L s path).
Proof.
  intros Htol Htrail Hfuel. induction k as [|k IH]; intros path Hpts;
    cbn [smooth_passes]; [by eexists|].
  unfold SmoothPathIter.
  destruct (smooth_loop_tolerant L s _ _ Htol Htrail fuel
              (Z.of_nat (NumPoints path)) 0%nat path)
    as (nm & p1 & -> & Hpts1); [done|done|].
  cbn [mbind option_bind]. destruct (negb (Nat.eqb nm 0)); [by apply IH|].
  by eexists.
Qed.

Lemma SmoothPath_roomy (fuel : nat) (L : NodeLayer) (s : PathSearch)
  (path : IPath) (ns : list nat) :
  trail s (tgtSearchNode s) ns -> (length ns <= fuel)%nat ->
  roomy path ns ->
  exists path',
    SmoothPath fuel L s path = Some path' /\
    NumPoints path' = NumPoints path /\
    with_points path' [] = with_points path [] /\
    points path' !! 0%nat = points path !! 0%nat /\
    last (points path') = last (points path).
Proof.
  intros Htrail Hfuel Hroomy. unfold SmoothPath.
  destruct (Nat.eqb_spec (NumPoints path) 2) as [E|E]; [by exists path|].
  destruct Hroomy as [E2|Hn]; [done|].
  by apply (smooth_passes_inside _ _ _ _ ns).
Qed.

Lemma SmoothPath_tolerant (fuel : nat) (L : NodeLayer) (s : PathSearch)
  (path : IPath) (ns : list nat) :
  tolerant -> trail s (tgtSearchNode s) ns -> (length ns <= fuel)%nat ->
  points path <> [] -> is_Some (SmoothPath fuel L s path).
Proof.
  intros Htol Htrail Hfuel Hpts. unfold SmoothPath.
  destruct (Nat.eqb (NumPoints path) 2); [by eexists|].
  by apply (smooth_passes_tolerant _ _ _ _ ns).
Qed.

(** *** Trace-back *)

(** With smoothing compiled in, the trace-back leaves the registry as it
    is. *)
Lemma trace_loop_same (fuel : nat) :
  QTPFS_SMOOTH_PATHS = true ->
  forall s tmp prv prvPoint deque s' deque',
    trace_loop fuel s tmp prv prvPoint deque = Some (s', deque') -> s' = s.
Proof.
  intros Hsmooth.
  induction fuel as [|fuel IH]; intros s tmp prv prvPoint deque s' deque' Ht;
    cbn [trace_loop] in Ht; destruct prv as [prv|];
    try (by injection Ht as <- _);
    destruct (Nat.eqb _ _); try (by injection Ht as <- _); [done|].
  apply bind_Some in Ht as (tmpRec & _ & Ht).
  apply bind_Some in Ht as (prvRec & _ & Ht).
  rewrite Hsmooth in Ht. by apply IH in Ht.
Qed.

Lemma TracePath_same (fuel : nat) (s s' : PathSearch) (path p' : IPath) :
  QTPFS_SMOOTH_PATHS = true ->
  TracePath fuel s path = Some (s', p') -> s' = s.
Proof.
  intros Hsmooth Ht. unfold TracePath in Ht.
  apply bind_Some in Ht as ([s1 deque] & Hloop & Ht).
  apply bind_Some in Ht as (p2 & _ & Ht).
  apply bind_Some in Ht as (p3 & _ & Ht).
  apply bind_Some in Ht as (p4 & _ & Ht). injection Ht as <- _.
  destruct (Nat.eqb _ _); [by injection Hloop as <- _|].
  apply bind_Some in Hloop as (r & _ & Hloop).
  by apply (trace_loop_same fuel Hsmooth) in Hloop.
Qed.

(** The route [TracePath] writes along a trail, given a route of two
    points. *)
Lemma TracePath_trail (fuel : nat) (s : PathSearch) (path : IPath)
  (ns : list nat) :
  trail s (tgtSearchNode s) ns -> (length ns <= fuel)%nat ->
  NumPoints path = 2%nat ->
  exists s' p',
    TracePath fuel s path = Some (s', p') /\
    points p' = srcPoint s :: rev (kept_points s ns) ++ [tgtPoint s] /\
    with_points p' [] = with_points path [].
Proof.
  intros Htrail Hfuel Hn.
  destruct (decide (srcSearchNode s = tgtSearchNode s)) as [Hst|Hst].
  - rewrite <- Hst in Htrail. apply trail_at_source in Htrail as ->.
    destruct path as [pid ph pts bb pf pp]. unfold NumPoints in Hn.
    simpl in Hn. destruct pts as [|a [|b [|c pts]]]; try done.
    unfold TracePath. rewrite Hst, Nat.eqb_refl. cbn [mbind option_bind].
    cbn [set_waypoints mbind option_bind]. unfold SetSourcePoint.
    rewrite (SetPoint_Some _ 0) by (unfold NumPoints; simpl; lia).
    cbn [mbind option_bind]. unfold SetTargetPoint.
    change (Z.of_nat (NumPoints _) - 1) with (Z.of_nat 1).
    rewrite SetPoint_Some by (unfold NumPoints; simpl; lia).
    by eexists _, _.
  - by apply TracePath_points; [|apply trail_links| |].
Qed.

Lemma set_waypoints_tolerant (deque : list float3) :
  tolerant ->
  forall p, points p <> [] ->
    exists p', set_waypoints deque p = Some p' /\ points p' <> [].
Proof.
  intros Htol. induction deque as [|front rest IH]; intros p Hpts;
    cbn [set_waypoints]; [by exists p|].
  destruct (SetPoint_tolerant p
              (Z.of_nat (NumPoints p) - Z.of_nat (length (front :: rest)) - 1)
              front Htol Hpts) as (p1 & -> & Hpts1).
  cbn [mbind option_bind]. by apply IH.
Qed.

Lemma TracePath_tolerant (fuel : nat) (s : PathSearch) (path : IPath)
  (ns : list nat) :
  tolerant -> trail s (tgtSearchNode s) ns -> (length ns <= fuel)%nat ->
  points path <> [] ->
  exists s' p', TracePath fuel s path = Some (s', p') /\ points p' <> [].
Proof.
  intros Htol Htrail Hfuel Hpts. unfold TracePath.
  assert (Hloop : exists s1 deque,
            (if Nat.eqb (srcSearchNode s) (tgtSearchNode s)
             then Some (s, [])
             else
               tgtRec ← node_at s (tgtSearchNode s);
               trace_loop fuel s (tgtSearchNode s) (prevNode tgtRec)
                 (tgtPoint s) []) = Some (s1, deque)).
  { destruct (Nat.eqb _ _); [by eexists _, _|].
    destruct (trail_node _ _ _ Htrail) as [r Hr]. rewrite Hr.
    cbn [mbind option_bind].
    destruct (trace_loop_links s _ _ (trail_links _ _ _ Htrail) fuel s r
                (tgtPoint s) []) as [s1 Hs1]; [done..|].
    by eexists _, _. }
  destruct Hloop as (s1 & deque & ->). cbn [mbind option_bind].
  set (path1 := match deque with [] => path | _ :: _ => _ end).
  assert (Hpts1 : points path1 <> []).
  { subst path1. destruct deque; [done|]. unfold AllocPoints. simpl.
    rewrite Nat.add_comm. done. }
  destruct (set_waypoints_tolerant deque Htol path1 Hpts1)
    as (p2 & -> & Hpts2). cbn [mbind option_bind].
  destruct (SetPoint_tolerant p2 0 (srcPoint s1) Htol Hpts2)
    as (p3 & Hp3 & Hpts3).
  unfold SetSourcePoint. rewrite Hp3. cbn [mbind option_bind].
  destruct (SetPoint_tolerant p3 (Z.of_nat (NumPoints p3) - 1) (tgtPoint s1)
              Htol Hpts3) as (p4 & Hp4 & Hpts4).
  unfold SetTargetPoint. rewrite Hp4. cbn [mbind option_bind].
  by eexists _, _.
Qed.

(** *** Finalization *)

(** [Finalize] on a route it stays inside of. *)
Lemma Finalize_fits (fuel : nat) (L : NodeLayer) (s : PathSearch)
  (path : IPath) (ns : list nat) :
  rawPathCheck s = false ->
  trail s (tgtSearchNode s) ns -> (length ns <= fuel)%nat ->
  fits s path ns ->
  exists s' p',
    Finalize fuel L s path = Some (s', p')
    /\ NumPoints p' = (length (kept_points s ns) + 2)%nat
    /\ points p' !! 0%nat = Some (srcPoint s)
    /\ last (points p') = Some (tgtPoint s)
    /\ (QTPFS_SMOOTH_PATHS = false ->
        points p' = srcPoint s :: rev (kept_points s ns) ++ [tgtPoint s])
    /\ boundingBox p' = bounds_of (points p')
    /\ pathID p' = pathID path /\ pathHash p' = pathHash path
    /\ request_of s' = request_of s /\ cursor_of s' = cursor_of s.
Proof.
  intros Hraw Htrail Hfuel [Hn Hfit].
  destruct (TracePath_trail fuel s path ns Htrail Hfuel Hn)
    as (s1 & p1 & Ht & Hpts & Hrest).
  pose proof (TracePath_fields _ _ _ _ _ Ht) as [Hreq Hcur].
  assert (Hids : pathID p1 = pathID path /\ pathHash p1 = pathHash path).
  { destruct p1, path. unfold with_points in Hrest. simpl in *.
    by injection Hrest as -> -> _ _ _. }
  destruct Hids as [Hid Hhash].
  assert (Hlen1 : NumPoints p1 = (length (kept_points s ns) + 2)%nat).
  { unfold NumPoints. rewrite Hpts. simpl.
    rewrite length_app, length_rev. simpl. lia. }
  assert (Hfirst1 : points p1 !! 0%nat = Some (srcPoint s))
    by (by rewrite Hpts).
  assert (Hlast1 : last (points p1) = Some (tgtPoint s)).
  { rewrite Hpts. change (srcPoint s :: ?l ++ [?x]) with ((srcPoint s :: l) ++ [x]).
    apply last_snoc. }
  unfold Finalize. rewrite Hraw, Ht. cbn [mbind option_bind].
  destruct QTPFS_SMOOTH_PATHS eqn:Hsmooth.
  - pose proof (TracePath_same _ _ _ _ _ Hsmooth Ht) as ->.
    destruct (SmoothPath_roomy fuel L s p1 ns Htrail Hfuel)
      as (p2 & -> & Hlen2 & Hrest2 & Hfirst2 & Hlast2).
    { unfold roomy. rewrite Hlen1.
      destruct Hfit as [?|[->| ->]]; [done|by left|by right]. }
    cbn [mbind option_bind]. eexists _, _. split; [done|]. simpl.
    assert (Hids2 : pathID p2 = pathID p1 /\ pathHash p2 = pathHash p1).
    { destruct p1, p2. unfold with_points in Hrest2. simpl in *.
      by injection Hrest2 as -> -> _ _ _. }
    destruct Hids2 as [Hid2 Hhash2]. unfold NumPoints in *.
    split; [simpl; congruence|]. split; [congruence|]. split; [congruence|].
    split; [done|]. split; [done|]. split; [congruence|].
    split; [congruence|]. done.
  - cbn [mbind option_bind]. eexists _, _. split; [done|]. simpl.
    unfold NumPoints in *. done.
Qed.

(** [Finalize] on a route that answers whatever index it is asked. *)
Lemma Finalize_tolerant (fuel : nat) (L : NodeLayer) (s : PathSearch)
  (path : IPath) (ns : list nat) :
  tolerant -> points path <> [] ->
  trail s (tgtSearchNode s) ns -> (length ns <= fuel)%nat ->
  is_Some (Finalize fuel L s path).
Proof.
  intros Htol Hpts Htrail Hfuel. unfold Finalize.
  destruct (rawPathCheck s); [by eexists|].
  destruct (TracePath_tolerant fuel s path ns Htol Htrail Hfuel Hpts)
    as (s1 & p1 & Ht & Hpts1).
  rewrite Ht. cbn [mbind option_bind].
  destruct QTPFS_SMOOTH_PATHS eqn:Hsmooth; [|by eexists].
  pose proof (TracePath_same _ _ _ _ _ Hsmooth Ht) as ->.
  destruct (SmoothPath_tolerant fuel L s p1 ns Htol Htrail Hfuel Hpts1)
    as [p2 ->].
  by eexists.
Qed.

(** C10. With a degraded goal, whatever [Finalize] returns reports no
    full path, even when the loop reached the substituted target, and
    reports the partial-path flag the search computed; and [Finalize]
    does return: always for a raw probe, and for a graph search whose
    predecessor links lead from the target record to the source record
    within the fuel given, on a route that answers whatever index it is
    asked or on a route of two points that [Finalize] stays inside of. *)
Theorem degraded_goal_masks_full_path (fuel : nat) (L : NodeLayer)
  (s : PathSearch) (path : IPath) (ns : list nat) :
  badGoal s = true ->
  (forall s' p',
     Finalize fuel L s path = Some (s', p') ->
     hasFullPath p' = false /\ hasPartialPath p' = havePartPath s)
  /\ (rawPathCheck s = true \/
      trail s (tgtSearchNode s) ns /\ (length ns <= fuel)%nat /\
      (tolerant /\ points path <> [] \/ fits s path ns) ->
      exists s' p',
        Finalize fuel L s path = Some (s', p')
        /\ hasFullPath p' = false /\ hasPartialPath p' = havePartPath s).
Proof.
  intros Hbad.
  assert (Hflags : forall s' p',
            Finalize fuel L s path = Some (s', p') ->
            hasFullPath p' = false /\ hasPartialPath p' = havePartPath s).
  { intros s' p' Hf. apply Finalize_flags in Hf as [-> ->].
    rewrite Hbad. by rewrite andb_false_r. }
  split; [exact Hflags|]. intros Hcase.
  assert (Hret : is_Some (Finalize fuel L s path)).
  { destruct Hcase as [Hraw | (Htrail & Hfuel & [[Htol Hpts] | Hfits])].
    - unfold Finalize. rewrite Hraw. by eexists.
    - by apply (Finalize_tolerant fuel L s path ns).
    - destruct (rawPathCheck s) eqn:Hraw.
      + unfold Finalize. rewrite Hraw. by eexists.
      + destruct (Finalize_fits fuel L s path ns Hraw Htrail Hfuel Hfits)
          as (s' & p' & -> & _). by eexists. }
  destruct Hret as [[s' p'] Hf]. exists s', p'. split; [exact Hf|].
  exact (Hflags s' p' Hf).
Qed.
End FinalizeFacts.

(** ** The statements at work on the maps of [Concrete] *)

Section Instances.
Import Concrete.

(** A registry of four identifiers: the first touch of identifier 2
    takes slot 1, and so does every later touch. *)
Lemma registry_witness :
  exists d' k,
    Sparse.InsertINodeIfNotPresent (Sparse.Reset (T := SearchNode) 4) 2
      = Some (d', k)
    /\ (0 < k)%nat
    /\ Sparse.InsertINodeIfNotPresent d' 2 = Some (d', k).
Proof.
  destruct (registry_reset_insert_or_fetch (T := SearchNode) 4 ltac:(lia))
    as (_ & _ & Hreached).
  destruct (Hreached (Sparse.Reset 4) (rtc_refl _ _)) as (_ & _ & Hid).
  destruct (Hid 2 ltac:(lia)) as (d' & k & Hop & Hk & _ & _ & Hlater).
  exists d', k. split; [exact Hop|]. split; [exact Hk|].
  apply Hlater. apply rtc_refl.
Defined.

(** Two requests from squares (5, 5) and (12, 7) of the large node fall
    in the same quadrants and get the same key. *)
Lemma sharing_key_witness :
  let s1 := request (pt3 40 40) (pt3 400 400) in
  let s2 := request (pt3 100 60) (pt3 400 400) in
  request_choices s1 (large_node 5) = [0; 0] /\
  request_choices s2 (large_node 5) = [0; 0] /\
  GenerateHash large_globals large_layer s1 (large_node 5) (large_node 7)
    = Some (85 + 7 * 4096 + 1 * 4096 * 4096) /\
  GenerateHash large_globals large_layer s2 (large_node 5) (large_node 7)
    = Some (85 + 7 * 4096 + 1 * 4096 * 4096).
Proof.
  intros s1 s2.
  assert (Hsh : forall s, rawPathCheck s = false ->
                          shareable large_globals s (large_node 5)).
  { intros s Hraw. split; [exact Hraw|]. split; [vm_compute; discriminate|].
    exists 1. split; [reflexivity|]. split; vm_compute; discriminate. }
  assert (Hc1 : request_choices s1 (large_node 5) = [0; 0])
    by (vm_compute; reflexivity).
  assert (Hc2 : request_choices s2 (large_node 5) = [0; 0])
    by (vm_compute; reflexivity).
  destruct (sharing_key_stable large_globals large_layer s1 s2
              (large_node 5) (large_node 7)
              (Hsh s1 eq_refl) (Hsh s2 eq_refl)
              (eq_trans Hc1 (eq_sym Hc2)))
    as (Hk1 & Hk2 & _); [simpl; lia..|].
  split; [exact Hc1|]. split; [exact Hc2|].
  rewrite Hk1, Hk2. split; vm_compute; reflexivity.
Defined.

(** A movement class 64 squares wide, four times the maximum shareable
    size, from a node of 16 squares: the hash is the key 0, not the
    sentinel. *)
Lemma big_footprint_gets_a_key :
  QTPFS_SHARE_PATH_MAX_SIZE < moveDef_xsize wide_globals /\
  GenerateHash wide_globals wide_layer (request (pt3 4 8) (pt3 100 100))
    wide_node wide_node = Some 0 /\
  0 <> BAD_HASH.
Proof.
  split; [vm_compute; reflexivity|]. split; [|vm_compute; discriminate].
  rewrite (GenerateHash_footprint_guard_inert wide_globals wide_layer);
    [vm_compute; reflexivity | vm_compute; reflexivity
     | vm_compute; discriminate | reflexivity
     | vm_compute; discriminate | vm_compute; discriminate].
Defined.

Lemma returns_Some {A : Type} (d : A) (o : option A) :
  returns o = true -> o = Some (default d o).
Proof. destruct o; [reflexivity|discriminate]. Qed.

Lemma returns_pair {A B : Type} (d : A * B) (o : option (A * B)) (b : B) :
  snd <$> o = Some b -> o = Some ((default d o).1, b).
Proof. destruct o as [[x y]|]; simpl; intros E; by simplify_eq. Qed.

(** Across the corridor: the middle record, nearer to the target than
    the source record, is expanded before the target is popped, and the
    route comes out with both flags set. *)
Lemma full_and_partial_path :
  (fun r : bool * PathSearch * IPath =>
     (r.1.1, rawPathCheck r.1.2, hasFullPath r.2, hasPartialPath r.2))
    <$> run 10 corridor_globals corridor across (fresh_path 1)
  = Some (true, false, true, true).
Proof. vm_compute. reflexivity. Defined.

Lemma search_outcome_witness :
  let s := bound corridor_globals corridor across in
  exists s',
    Execute 10 corridor_globals corridor s = Some (true, s')
    /\ haveFullPath s' =
         bool_decide (curSearchNode s' = Some (tgtSearchNode s))
    /\ havePartPath s' =
         negb (Nat.eqb (minSearchNode s') (srcSearchNode s)).
Proof.
  intros s.
  assert (Hraw : rawPathCheck s = false) by (vm_compute; reflexivity).
  assert (Hne : Nat.eqb (srcSearchNode s) (tgtSearchNode s) = false)
    by (vm_compute; reflexivity).
  assert (Hb : fst <$> Execute 10 corridor_globals corridor s = Some true)
    by (vm_compute; reflexivity).
  destruct (Execute 10 corridor_globals corridor s) as [[b s']|] eqn:He;
    [|discriminate Hb].
  injection Hb as ->. exists s'. split; [reflexivity|].
  destruct (search_outcome 10 corridor_globals corridor s s' true Hraw He)
    as (_ & Hflags & _).
  rewrite Hne in Hflags. exact Hflags.
Defined.

(** The source node of the corridor is being expanded; its neighbour,
    the middle node, has no cost yet: the candidate (16, 8), of cost 12
    and heuristic cost 28, is accepted. *)
Lemma relaxation_witness :
  exists s',
    relax_neighbor corridor (corridor_node 0) (pt3 4 8) 0 1 expanding
      = Some s'
    /\ costs <$> node_at s' 3 =
         Some (1, (of_Z 40, of_Z 12, of_Z 28), Some 1%nat,
               (of_Z 16, of_Z 8))
    /\ entries (openNodes s') = [(of_Z 40, 1)].
Proof.
  set (s1 := (fetched expanding).1).
  set (s2 := (selected s1).1).
  set (old := default (SearchNode_of_id 0) (node_at s1 3)).
  set (p := default (pt 0 0) (netPoints s2 !! 0%nat)).
  assert (Hfetch : fetch_neighbor 1 expanding = Some (s1, 3%nat))
    by (apply returns_pair; vm_compute; reflexivity).
  assert (Hsel : select_netpoint corridor (corridor_node 0) (pt3 4 8) 0 1 3
                   s1 = Some (s2, 0%nat))
    by (apply returns_pair; vm_compute; reflexivity).
  assert (Hold : node_at s1 3 = Some old)
    by (apply returns_Some; vm_compute; reflexivity).
  assert (Hp : netPoints s2 !! 0%nat = Some p)
    by (apply returns_Some; vm_compute; reflexivity).
  assert (Hg : gCosts s2 !! 0%nat = Some (of_Z 12))
    by (vm_compute; reflexivity).
  assert (Hh : hCosts s2 !! 0%nat = Some (of_Z 28))
    by (vm_compute; reflexivity).
  assert (Hcmp : f_ge (of_Z 12) (gCost old)
                 = negb (f_lt (of_Z 12) (gCost old)))
    by (vm_compute; reflexivity).
  assert (Hlt : f_lt (of_Z 12) (gCost old) = true)
    by (vm_compute; reflexivity).
  destruct (relaxation_strict_improvement corridor (corridor_node 0)
              (pt3 4 8) 0 1 expanding s1 s2 3 0 (of_Z 12) (of_Z 28) p old
              Hfetch Hsel Hg Hh Hp Hold Hcmp)
    as (s' & Hs' & Hcase).
  rewrite Hlt in Hcase. destruct Hcase as (Hrec & _ & Hq & _).
  exists s'. split; [exact Hs'|]. split.
  - rewrite Hrec. vm_compute. reflexivity.
  - rewrite Hq. vm_compute. reflexivity.
Defined.



(** The target lies in the blocked middle node and the west node is
    substituted for it: source and target records are the same, the
    route has its two points, and no full path is reported. *)
Lemma trivial_path_degraded_goal :
  (fun r : bool * PathSearch * IPath =>
     (r.1.1, Nat.eqb (srcSearchNode r.1.2) (tgtSearchNode r.1.2),
      badGoal r.1.2, rawPathCheck r.1.2, waypoints r.2, hasFullPath r.2))
    <$> run 10 corridor_globals (blocked_corridor 1 0) next_door
          (fresh_path 1)
  = Some (true, true, true, false,
          [(of_Z 4, of_Z 0, of_Z 8); (of_Z 20, of_Z 0, of_Z 8)], false).
Proof. vm_compute. reflexivity. Defined.

(** Source and target in the west node of the corridor. *)
Lemma trivial_path_witness :
  let s := bound corridor_globals corridor (request (pt3 4 8) (pt3 12 8)) in
  exists p',
    Execute 0 corridor_globals corridor s
      = Some (true, with_flags s true false)
    /\ Finalize 0 corridor (with_flags s true false) (fresh_path 1)
         = Some (with_flags s true false, p')
    /\ waypoints p' = [(of_Z 4, of_Z 0, of_Z 8); (of_Z 12, of_Z 0, of_Z 8)]
    /\ hasFullPath p' = true /\ hasPartialPath p' = false.
Proof.
  intros s.
  assert (Hst : srcSearchNode s = tgtSearchNode s)
    by (vm_compute; reflexivity).
  assert (Hraw : rawPathCheck s = false) by (vm_compute; reflexivity).
  assert (Hbad : badGoal s = false) by (vm_compute; reflexivity).
  destruct (trivial_path 0 corridor_globals corridor s (fresh_path 1)
              Hst Hraw eq_refl)
    as (He & _ & p' & Hf & Hpts & Hfull & Hpart).
  exists p'. split; [exact He|]. split; [exact Hf|].
  split; [unfold waypoints; rewrite Hpts; vm_compute; reflexivity|].
  split; [by rewrite Hfull, Hbad|exact Hpart].
Defined.

Lemma paths_tolerant : tolerant.
Proof.
  intros ps i Hne. split.
  - by apply last_is_Some.
  - intros v. destruct ps as [|p ps]; [done|]. eexists. split; [done|].
    intros E. apply (f_equal length) in E. rewrite length_insert in E.
    discriminate E.
Qed.

(** Two degraded goals whose substituted target the loop reaches, each
    finalized into a route flagged, on entry, as a full path.  The east
    node is blocked and the middle node substituted for it: the route has
    its three points.  The east node is blocked and the layer finds no
    other node than the east node itself, the target lying on its west
    edge: the first crossing point is the target point and is skipped, so
    that smoothing asks the route for a point it does not have.  In both
    cases [Finalize] returns and the route reports no full path. *)
Lemma degraded_goal_witness :
  let s := executed 10 corridor_globals (blocked_corridor 2 1) across in
  let t := executed 10 corridor_globals (blocked_corridor 2 2) to_the_edge in
  let path := SetHasFullPath (fresh_path 1) true in
  (badGoal s = true /\ haveFullPath s = true
   /\ curSearchNode s = Some (tgtSearchNode s)
   /\ hasFullPath path = true
   /\ exists s' p',
        Finalize 10 (blocked_corridor 2 1) s path = Some (s', p')
        /\ hasFullPath p' = false
        /\ hasPartialPath p' = havePartPath s)
  /\ (badGoal t = true /\ haveFullPath t = true
      /\ curSearchNode t = Some (tgtSearchNode t)
      /\ length (kept_points t [2; 3]%nat) = 1%nat
      /\ exists t' p',
           Finalize 10 (blocked_corridor 2 2) t path = Some (t', p')
           /\ hasFullPath p' = false
           /\ hasPartialPath p' = havePartPath t).
Proof.
  intros s t path. split.
  - assert (Hbad : badGoal s = true) by (vm_compute; reflexivity).
    split; [exact Hbad|]. split; [vm_compute; reflexivity|].
    split; [vm_compute; reflexivity|]. split; [reflexivity|].
    destruct (degraded_goal_masks_full_path 10 (blocked_corridor 2 1) s path
                [2%nat] Hbad) as [_ Hret].
    apply Hret. right.
    split; [apply on_trail_sound; vm_compute; reflexivity|].
    split; [simpl; lia|]. right.
    split; [reflexivity|]. right. right. vm_compute. reflexivity.
  - assert (Hbad : badGoal t = true) by (vm_compute; reflexivity).
    split; [exact Hbad|]. split; [vm_compute; reflexivity|].
    split; [vm_compute; reflexivity|]. split; [vm_compute; reflexivity|].
    destruct (degraded_goal_masks_full_path 10 (blocked_corridor 2 2) t path
                [2; 3]%nat Hbad) as [_ Hret].
    apply Hret. right.
    split; [apply on_trail_sound; vm_compute; reflexivity|].
    split; [simpl; lia|]. left.
    split; [exact paths_tolerant|]. discriminate.
Defined.

(** The request to the west edge of the east node: the crossing point
    chosen to reach the target record is the literal target point, and
    the route has three points, the crossing point into the middle node
    being the only inner one. *)
Lemma first_point_on_target_is_skipped :
  let s := executed 10 corridor_globals corridor to_the_edge in
  Nat.eqb (srcSearchNode s) (tgtSearchNode s) = false
  /\ on_trail s (tgtSearchNode s) [2; 3]%nat = true
  /\ coords (tgtPoint s) = (of_Z 32, of_Z 0, of_Z 8)
  /\ (fun r => coords (lift (selectedNetpoint r)))
       <$> node_at s (tgtSearchNode s)
     = Some (of_Z 32, of_Z 0, of_Z 8)
  /\ (fun r : PathSearch * IPath => waypoints r.2)
       <$> TracePath 10 s (fresh_path 1)
     = Some [(of_Z 4, of_Z 0, of_Z 8); (of_Z 16, of_Z 0, of_Z 8);
             (of_Z 32, of_Z 0, of_Z 8)].
Proof.
  intros s. split; [vm_compute; reflexivity|].
  split; [vm_compute; reflexivity|]. split; [vm_compute; reflexivity|].
  split; vm_compute; reflexivity.
Defined.

(** The trace-back of the corridor search, from the target record 2
    over the middle record 3 to the source record 1: across the corridor
    both crossing points are kept; to the west edge of the east node the
    first one, which is the target point, is skipped. *)
Lemma TracePath_witness :
  let s := executed 10 corridor_globals corridor across in
  let t := executed 10 corridor_globals corridor to_the_edge in
  (exists s' p',
     links s 2 [2; 3]%nat
     /\ TracePath 2 s (fresh_path 1) = Some (s', p')
     /\ waypoints p' =
          [(of_Z 4, of_Z 0, of_Z 8); (of_Z 16, of_Z 0, of_Z 8);
           (of_Z 32, of_Z 0, of_Z 8); (of_Z 44, of_Z 0, of_Z 8)])
  /\ (exists t' p',
        links t 2 [2; 3]%nat
        /\ TracePath 2 t (fresh_path 1) = Some (t', p')
        /\ waypoints p' =
             [(of_Z 4, of_Z 0, of_Z 8); (of_Z 16, of_Z 0, of_Z 8);
              (of_Z 32, of_Z 0, of_Z 8)]).
Proof.
  intros s t.
  assert (Hrun : forall u : PathSearch,
            srcSearchNode u = 1%nat -> tgtSearchNode u = 2%nat ->
            on_trail u 2 [2; 3]%nat = true ->
            exists u' p',
              links u 2 [2; 3]%nat
              /\ TracePath 2 u (fresh_path 1) = Some (u', p')
              /\ points p'
                 = srcPoint u
                   :: rev (skip_repeats (tgtPoint u)
                             (crossing_points u [2; 3]%nat))
                   ++ [tgtPoint u]).
  { intros u Hsrc Htgt Htrail.
    assert (Hl : links u 2 [2; 3]%nat)
      by (apply trail_links, on_trail_sound; exact Htrail).
    pose proof (TracePath_waypoints 2 u (fresh_path 1) [2; 3]%nat) as Ht.
    rewrite Hsrc, Htgt in Ht.
    destruct (Ht ltac:(discriminate) Hl ltac:(simpl; lia) eq_refl)
      as (u' & p' & Htrace & Hpts & _).
    exists u', p'. split; [exact Hl|]. split; [exact Htrace|exact Hpts]. }
  split.
  - destruct (Hrun s) as (s' & p' & Hl & Htrace & Hpts);
      [vm_compute; reflexivity..|].
    exists s', p'. split; [exact Hl|]. split; [exact Htrace|].
    unfold waypoints. rewrite Hpts. vm_compute. reflexivity.
  - destruct (Hrun t) as (t' & p' & Hl & Htrace & Hpts);
      [vm_compute; reflexivity..|].
    exists t', p'. split; [exact Hl|]. split; [exact Htrace|].
    unfold waypoints. rewrite Hpts. vm_compute. reflexivity.
Defined.

(** The route of the corridor search, with both flags set, reused for a
    fresh route: the full-path flag comes along, the partial-path flag of
    the fresh route stays unset. *)
Lemma SharedFinalize_witness :
  let s := bound corridor_globals corridor (request (pt3 5 8) (pt3 43 8)) in
  let cached :=
    finalized 10 corridor_globals corridor across (fresh_path 1) in
  exists s' p',
    hasFullPath cached = true /\ hasPartialPath cached = true
    /\ hasPartialPath (fresh_path 2) = false
    /\ SharedFinalize s cached (fresh_path 2) = Some (true, s', p')
    /\ waypoints p' =
         [(of_Z 5, of_Z 0, of_Z 8); (of_Z 16, of_Z 0, of_Z 8);
          (of_Z 32, of_Z 0, of_Z 8); (of_Z 43, of_Z 0, of_Z 8)]
    /\ hasFullPath p' = true
    /\ hasPartialPath p' = false
    /\ havePartPath s' = true.
Proof.
  intros s cached.
  assert (Hfull : hasFullPath cached = true) by (vm_compute; reflexivity).
  assert (Hpart : hasPartialPath cached = true) by (vm_compute; reflexivity).
  assert (Hne : points cached <> []).
  { intros E. apply (f_equal length) in E. vm_compute in E. discriminate E. }
  pose proof (SharedFinalize_effect s cached (fresh_path 2) Hne) as Hsf.
  eexists _, _. split; [exact Hfull|]. split; [exact Hpart|].
  split; [reflexivity|]. split; [exact Hsf|].
  split; [vm_compute; reflexivity|]. split; [exact Hfull|].
  split; [reflexivity|exact Hpart].
Defined.
End Instances.

(** * Further properties of the code *)

(** ** The sparse node registry, continued *)

Section RegistryMore.
Context {T : Type} `{Element T}.
Import Sparse.

(* a first touch gives a slot no other identifier owns *)
Lemma insert_fresh_distinct (cap : nat) (d : SparseData T) (id : Z) :
  inv cap d -> sparse_at d id = Some 0 ->
  (forall i j s, i <> j -> sparseIndex d !! i = Some s ->
                 sparseIndex d !! j = Some s -> s = 0) ->
  forall i j s, i <> j ->
    <[Z.to_nat id := Z.of_nat (length (denseData d))]> (sparseIndex d) !! i
      = Some s ->
    <[Z.to_nat id := Z.of_nat (length (denseData d))]> (sparseIndex d) !! j
      = Some s ->
    s = 0.
Proof.
  intros (_ & _ & Hrange) Hs0 Hdist i j s Hij Hi Hj.
  destruct (sparse_at_Some _ _ _ Hs0) as [_ Hlk].
  assert (Hlt : (Z.to_nat id < length (sparseIndex d))%nat)
    by (by apply lookup_lt_Some in Hlk).
  destruct (decide (Z.to_nat id = i)) as [<-|Hni];
    destruct (decide (Z.to_nat id = j)) as [<-|Hnj]; try done.
  - rewrite list_lookup_insert_eq in Hi by done.
    rewrite list_lookup_insert_ne in Hj by done.
    injection Hi as <-. specialize (Hrange _ _ Hj). lia.
  - rewrite list_lookup_insert_ne in Hi by done.
    rewrite list_lookup_insert_eq in Hj by done.
    injection Hj as <-. specialize (Hrange _ _ Hi). lia.
  - rewrite list_lookup_insert_ne in Hi by done.
    rewrite list_lookup_insert_ne in Hj by done. eauto.
Qed.

Lemma step_distinct (cap : nat) (d d' : SparseData T) :
  Z.of_nat cap < 2 ^ 31 -> inv cap d -> step d d' ->
  (forall i j s, i <> j -> sparseIndex d !! i = Some s ->
                 sparseIndex d !! j = Some s -> s = 0) ->
  (forall i j s, i <> j -> sparseIndex d' !! i = Some s ->
                 sparseIndex d' !! j = Some s -> s = 0).
Proof.
  intros Hcap Hinv Hstep Hdist.
  destruct Hstep as [d0 id d1 k Hop | d0 id d1 k Hop | d0 k v Hk].
  - unfold InsertINode in Hop. destruct (Z.ltb_spec id 0).
    { destruct (dense_ref d0 0); simplify_eq/=. done. }
    destruct (InsertAtIndex d0 (T_of_id id) id) as [d2|] eqn:Hins;
      simplify_eq/=.
    destruct (at_index d2 id) eqn:Hat; simplify_eq/=.
    destruct (sparse_at d0 id) as [s0|] eqn:Hs0;
      [|unfold InsertAtIndex in Hins; rewrite Hs0 in Hins; done].
    destruct (decide (s0 = 0)) as [->|Hne].
    + destruct (InsertAtIndex_fresh cap d0 id (T_of_id id) Hcap Hinv Hs0)
        as (Hins' & _ & _). simpl in *.
      rewrite Hins in Hins'. injection Hins' as ->. simpl.
      by apply (insert_fresh_distinct cap).
    + destruct (InsertAtIndex_present cap d0 id s0 (T_of_id id) Hinv Hs0 Hne)
        as [Hins' _].
      rewrite Hins in Hins'. injection Hins' as ->. done.
  - unfold InsertINodeIfNotPresent in Hop. destruct (Z.ltb_spec id 0).
    { destruct (dense_ref d0 0); simplify_eq/=. done. }
    destruct (sparse_at d0 id) as [s0|] eqn:Hs0; simplify_eq/=.
    destruct (Z.eqb_spec s0 0) as [->|Hne].
    + destruct (InsertAtIndex_fresh cap d0 id (T_of_id id) Hcap Hinv Hs0)
        as (Hins' & _ & _). simpl in *.
      rewrite Hins' in Hop. simpl in Hop.
      match type of Hop with
      | context [at_index ?d2 id] =>
          destruct (at_index d2 id); simplify_eq/=
      end.
      by apply (insert_fresh_distinct cap).
    + simpl in Hop. destruct (at_index d0 id); simplify_eq/=. done.
  - done.
Qed.

Lemma reached_inv_distinct (cap : nat) (d : SparseData T) :
  Z.of_nat cap < 2 ^ 31 -> reached cap d ->
  inv cap d /\
  (forall i j s, i <> j -> sparseIndex d !! i = Some s ->
                 sparseIndex d !! j = Some s -> s = 0).
Proof.
  intros Hcap Hreach. unfold reached, evolves in Hreach.
  revert d Hreach. apply rtc_ind_r.
  2: intros d1 d2 Hprefix Hstep [Hinv Hdist].
  - split; [apply inv_Reset|].
    intros i j s _ Hi _. simpl in Hi.
    by apply lookup_replicate in Hi as [-> _].
  - split.
    + by destruct (step_preserves cap d1 d2 Hcap Hinv Hstep).
    + by apply (step_distinct cap d1 d2).
Qed.

(** X1. Between two resets the registry never hands the same slot to two
    identifiers: identifiers that own a slot own distinct ones, and the
    backing store holds the dummy and one record per identifier that owns
    a slot, so never more than the capacity plus one. *)
Theorem registry_slots_distinct (cap : nat) (d : SparseData T) :
  Z.of_nat cap < 2 ^ 31 -> reached cap d ->
  length (denseData d) = S (used (sparseIndex d))
  /\ (length (denseData d) <= S cap)%nat
  /\ forall id1 id2 k1 k2,
       at_index d id1 = Some k1 -> at_index d id2 = Some k2 ->
       isSet d id1 = Some true -> k1 = k2 -> id1 = id2.
Proof.
  intros Hcap Hreach.
  destruct (reached_inv_distinct cap d Hcap Hreach)
    as [(Hlen & Hused & Hrange) Hdist].
  split; [done|]. split.
  { rewrite Hused. pose proof (used_le (sparseIndex d)). lia. }
  intros id1 id2 k1 k2 H1' H2' Hset <-.
  unfold at_index in H1', H2'. unfold isSet in Hset.
  destruct (sparse_at d id1) as [s1|] eqn:Hs1; [|done].
  destruct (sparse_at d id2) as [s2|] eqn:Hs2; [|done].
  simpl in *. injection Hset as Hset.
  destruct (sparse_at_Some _ _ _ Hs1) as [Hid1 Hl1].
  destruct (sparse_at_Some _ _ _ Hs2) as [Hid2 Hl2].
  pose proof (Hrange _ _ Hl1) as Hr1. pose proof (Hrange _ _ Hl2) as Hr2.
  rewrite dense_ref_in_range in H1' by done.
  rewrite dense_ref_in_range in H2' by done.
  injection H1' as <-. injection H2' as Heq.
  assert (s2 = s1) by lia. subst s2.
  destruct (decide (Z.to_nat id1 = Z.to_nat id2)) as [E|Hne]; [lia|].
  specialize (Hdist _ _ _ Hne Hl1 Hl2). subst s1. done.
Qed.

(** X2. [InsertINode] on an identifier of the table puts the record
    [T(id)] at the identifier's slot and leaves every other record as it
    was.  On the first touch the slot is a new one, at the end of the
    backing store, which grows by this one record, and the index table
    changes at the identifier only; on a later touch the slot is the one
    the identifier owns, and the index table and the length of the store
    stay as they were.  The slot is never the dummy's, insert-or-fetch
    then returns it without changing anything, and inserting a second
    time changes nothing. *)
Theorem InsertINode_overwrites (cap : nat) (d : SparseData T) (id : Z) :
  Z.of_nat cap < 2 ^ 31 -> reached cap d -> 0 <= id < Z.of_nat cap ->
  exists d' k,
    InsertINode d id = Some (d', k)
    /\ (0 < k)%nat
    /\ denseData d' !! k = Some (T_of_id id)
    /\ (forall j, j <> k -> (j < length (denseData d))%nat ->
                  denseData d' !! j = denseData d !! j)
    /\ (isSet d id = Some false ->
        k = length (denseData d)
        /\ denseData d' = denseData d ++ [T_of_id id]
        /\ sparseIndex d'
           = <[Z.to_nat id := Z.of_nat (length (denseData d))]>
               (sparseIndex d))
    /\ (isSet d id = Some true ->
        at_index d id = Some k
        /\ sparseIndex d' = sparseIndex d
        /\ denseData d' = <[k := T_of_id id]> (denseData d)
        /\ length (denseData d') = length (denseData d))
    /\ InsertINodeIfNotPresent d' id = Some (d', k)
    /\ InsertINode d' id = Some (d', k).
Proof.
  intros Hcap Hreach Hid.
  destruct (reached_inv_distinct cap d Hcap Hreach) as [Hinv _].
  destruct (sparse_at_in_range d cap id) as [s Hs];
    [by destruct Hinv|done|].
  assert (Hagain : forall d1 k, inv cap d1 ->
            sparse_at d1 id = Some (Z.of_nat k) -> (0 < k)%nat ->
            denseData d1 !! k = Some (T_of_id id) ->
            InsertINodeIfNotPresent d1 id = Some (d1, k) /\
            InsertINode d1 id = Some (d1, k)).
  { intros d1 k Hinv1 Hs1 Hk Hrec. split.
    - destruct (InsertINodeIfNotPresent_present cap d1 id (Z.of_nat k))
        as [Hop _]; [done|done|lia|]. by rewrite Nat2Z.id in Hop.
    - unfold InsertINode. destruct (Z.ltb_spec id 0); [lia|].
      destruct (InsertAtIndex_present cap d1 id (Z.of_nat k) (T_of_id id))
        as [-> _]; [done|done|lia|].
      cbn [mbind option_bind]. rewrite Nat2Z.id.
      rewrite list_insert_id by done.
      unfold at_index. destruct d1 as [sp dn]. simpl in *. rewrite Hs1.
      cbn [mbind option_bind]. apply lookup_lt_Some in Hrec.
      rewrite dense_ref_in_range by (simpl; lia). by rewrite Nat2Z.id. }
  destruct (decide (s = 0)) as [->|Hne].
  - destruct (InsertAtIndex_fresh cap d id (T_of_id id) Hcap Hinv Hs)
      as (Hins & Hinv' & Hat). simpl in *.
    assert (Hlen1 : (1 <= length (denseData d))%nat)
      by (destruct Hinv as (_ & -> & _); lia).
    eexists _, (length (denseData d)). split.
    { unfold InsertINode. destruct (Z.ltb_spec id 0); [lia|].
      rewrite Hins. cbn [mbind option_bind]. rewrite Hat. done. }
    split; [lia|]. split.
    { simpl. rewrite lookup_app_r by lia. by rewrite Nat.sub_diag. }
    split.
    { intros j _ Hj. simpl. by rewrite lookup_app_l. }
    split; [done|]. split.
    { unfold isSet. rewrite Hs. done. }
    apply Hagain; [done| |lia|].
    + destruct (sparse_at_Some _ _ _ Hs) as [Hid0 Hlk].
      unfold sparse_at. simpl. destruct (Z.ltb_spec id 0); [lia|].
      apply list_lookup_insert_eq. by apply lookup_lt_Some in Hlk.
    + simpl. rewrite lookup_app_r by lia. by rewrite Nat.sub_diag.
  - destruct (InsertAtIndex_present cap d id s (T_of_id id) Hinv Hs Hne)
      as [Hins Hpos].
    assert (Hrange : 0 <= s < Z.of_nat (length (denseData d))).
    { destruct Hinv as (_ & _ & Hr).
      destruct (sparse_at_Some _ _ _ Hs) as [_ Hlk]. eauto. }
    assert (Hrec : <[Z.to_nat s := T_of_id id]> (denseData d) !! Z.to_nat s
                   = Some (T_of_id id))
      by (apply list_lookup_insert_eq; lia).
    eexists _, (Z.to_nat s). split.
    { unfold InsertINode. destruct (Z.ltb_spec id 0); [lia|].
      rewrite Hins. cbn [mbind option_bind]. unfold at_index. simpl.
      unfold sparse_at in Hs |- *. simpl.
      destruct (Z.ltb_spec id 0); [lia|]. rewrite Hs.
      cbn [mbind option_bind]. unfold dense_ref. simpl.
      rewrite length_insert.
      destruct (Z.ltb_spec s 0); [lia|].
      destruct (Z.ltb_spec s (Z.of_nat (length (denseData d)))); [done|lia]. }
    split; [done|]. split; [done|]. split.
    { intros j Hj _. simpl. by rewrite list_lookup_insert_ne. }
    split.
    { unfold isSet. rewrite Hs. cbn [mbind option_bind].
      destruct (Z.eqb_spec s 0); done. }
    split.
    { intros _. simpl. rewrite length_insert. split; [|done].
      unfold at_index. rewrite Hs. cbn [mbind option_bind].
      by rewrite dense_ref_in_range. }
    apply Hagain; [by apply inv_overwrite| |done|done].
    unfold sparse_at in Hs |- *. simpl. rewrite Hs. f_equal. lia.
Qed.

(** X3. Looking an identifier of the table up with [operator[]] never
    fails: an identifier that owns no slot yields the dummy record at slot
    zero, an identifier that owns one yields that slot, which is not zero;
    [isSet] tells the two apart. *)
Theorem lookup_unset_is_dummy (cap : nat) (d : SparseData T) (id : Z) :
  Z.of_nat cap < 2 ^ 31 -> reached cap d -> 0 <= id < Z.of_nat cap ->
  exists k set,
    at_index d id = Some k /\ isSet d id = Some set
    /\ (k < length (denseData d))%nat
    /\ (set = false <-> k = 0%nat)
    /\ (set = false -> denseData d !! k = Some T_default).
Proof.
  intros Hcap Hreach Hid.
  destruct (reached_inv_distinct cap d Hcap Hreach) as [Hinv _].
  destruct (evolves_preserves cap _ d Hcap (inv_Reset cap) Hreach)
    as (_ & _ & Hzero).
  destruct (sparse_at_in_range d cap id) as [s Hs];
    [by destruct Hinv|done|].
  assert (Hrange : 0 <= s < Z.of_nat (length (denseData d))).
  { destruct Hinv as (_ & _ & Hr).
    destruct (sparse_at_Some _ _ _ Hs) as [_ Hlk]. eauto. }
  exists (Z.to_nat s), (negb (s =? 0)).
  unfold at_index, isSet. rewrite Hs. cbn [mbind option_bind].
  rewrite dense_ref_in_range by done.
  split; [done|]. split; [done|]. split; [lia|]. split.
  - destruct (Z.eqb_spec s 0); simpl; split; intros; try done; lia.
  - destruct (Z.eqb_spec s 0) as [->|]; [|done]. intros _. by apply Hzero.
Qed.
End RegistryMore.

(** ** The path-sharing hash, continued *)

Section HashMore.
Context `{FloatOps} `{!Config}.

(** X4. [GetNextBitShift] returns 1 for every [int]: its loop shifts a
    counter that starts at zero, so the counter stays zero whatever the
    argument. *)
Theorem GetNextBitShift_is_one (n : Z) :
  - 2 ^ 31 <= n < 2 ^ 31 -> GetNextBitShift n = Some 1.
Proof. intros Hn. apply GetNextBitShift_constant. lia. Qed.

Lemma testbit_u32_high (x k : Z) :
  0 <= x < 2 ^ 32 -> 32 <= k -> Z.testbit x k = false.
Proof.
  intros Hx Hk. rewrite <- (Z.mod_small x (2 ^ 32)) by lia.
  apply Z.mod_pow2_bits_high. lia.
Qed.

Lemma testbit_not_mask (m k : Z) :
  0 <= k < 32 ->
  Z.testbit (wrap_u32 (Z.lnot m)) k = negb (Z.testbit m k).
Proof.
  intros Hk. unfold wrap_u32. rewrite Z.mod_pow2_bits_low by lia.
  apply Z.lnot_spec. lia.
Qed.

Lemma testbit_not_mask_high (m k : Z) :
  32 <= k -> Z.testbit (wrap_u32 (Z.lnot m)) k = false.
Proof. intros Hk. unfold wrap_u32. apply Z.mod_pow2_bits_high. lia. Qed.

(* the bits of x outside the mask, when x has none inside *)
Lemma land_not_mask_clear (m x : Z) :
  0 <= x < 2 ^ 32 -> Z.land m x = 0 ->
  Z.land (wrap_u32 (Z.lnot m)) x = x.
Proof.
  intros Hx Hclear. apply Z.bits_inj'. intros k Hk.
  rewrite Z.land_spec.
  destruct (Z.testbit x k) eqn:Hxk; [|by rewrite andb_false_r].
  rewrite andb_true_r.
  destruct (Z.lt_ge_cases k 32) as [Hlow|Hhigh].
  - rewrite testbit_not_mask by lia.
    assert (Hmk : Z.testbit (Z.land m x) k = false)
      by (rewrite Hclear; apply Z.bits_0).
    rewrite Z.land_spec, Hxk, andb_true_r in Hmk. by rewrite Hmk.
  - rewrite (testbit_u32_high x k) in Hxk by lia. done.
Qed.

Lemma land_not_mask_root (m n : Z) :
  Z.land (wrap_u32 (Z.lnot m)) (Z.land m n) = 0.
Proof.
  apply Z.bits_inj'. intros k Hk.
  rewrite !Z.land_spec, Z.bits_0.
  destruct (Z.lt_ge_cases k 32) as [Hlow|Hhigh].
  - rewrite testbit_not_mask by lia. by destruct (Z.testbit m k).
  - by rewrite testbit_not_mask_high.
Qed.

Lemma split_by_mask (m n : Z) :
  0 <= n < 2 ^ 32 ->
  n = Z.lor (Z.land m n) (Z.land (wrap_u32 (Z.lnot m)) n).
Proof.
  intros Hn. apply Z.bits_inj'. intros k Hk.
  rewrite Z.lor_spec, !Z.land_spec.
  destruct (Z.lt_ge_cases k 32) as [Hlow|Hhigh].
  - rewrite testbit_not_mask by lia.
    by destruct (Z.testbit m k), (Z.testbit n k).
  - rewrite (testbit_u32_high n k) by lia. by rewrite !andb_false_r.
Qed.

(** The child number, when the node part of the child stays clear of
    the root bits. *)
Lemma GetChildId_value (n i m : Z) :
  0 <= n < 2 ^ 32 -> 0 <= i <= 3 ->
  let child := 4 * Z.land (wrap_u32 (Z.lnot m)) n + i + 1 in
  child < 2 ^ 32 ->
  GetChildId n i m = Z.lor (Z.land m n) child.
Proof.
  intros Hn Hi child Hchild. unfold GetChildId.
  assert (Hnode : 0 <= Z.land (wrap_u32 (Z.lnot m)) n).
  { apply Z.land_nonneg. right. lia. }
  assert (Hsmall : forall z, 0 <= z < 2 ^ 32 -> wrap_u32 z = z)
    by (intros z Hz; by apply Z.mod_small).
  subst child. set (nodeId := Z.land (wrap_u32 (Z.lnot m)) n) in *.
  rewrite Z.shiftl_mul_pow2 by lia. change (2 ^ 2) with 4.
  rewrite (Hsmall (nodeId * 4)), (Hsmall (i + 1)) by lia.
  rewrite Hsmall by lia. f_equal. lia.
Qed.

(** X5. [GetChildId] numbers the child [i] of a node [4 * id + i + 1]
    in the bits outside the root mask, [id] being the part of the node
    number outside the mask, and keeps the bits of the root mask as they
    were, as long as the child's number stays clear of the root mask. *)
Theorem GetChildId_keeps_root_bits (n i m : Z) :
  0 <= n < 2 ^ 32 -> 0 <= i <= 3 ->
  let child := 4 * Z.land (wrap_u32 (Z.lnot m)) n + i + 1 in
  child < 2 ^ 32 -> Z.land m child = 0 ->
  Z.land m (GetChildId n i m) = Z.land m n /\
  Z.land (wrap_u32 (Z.lnot m)) (GetChildId n i m) = child.
Proof.
  intros Hn Hi child Hchild Hclear.
  assert (Hnode : 0 <= Z.land (wrap_u32 (Z.lnot m)) n).
  { apply Z.land_nonneg. right. lia. }
  rewrite GetChildId_value by done. fold child. split.
  - rewrite Z.land_lor_distr_r, Hclear, Z.lor_0_r.
    by rewrite Z.land_assoc, Z.land_diag.
  - rewrite Z.land_lor_distr_r, land_not_mask_root, Z.lor_0_l.
    apply land_not_mask_clear; [subst child; lia|done].
Qed.

(** X6. Distinct children get distinct numbers: two node numbers and
    quadrants whose child numbers stay clear of the root mask and are
    equal are the same node number and the same quadrant. *)
Theorem GetChildId_injective (n n' i i' m : Z) :
  0 <= n < 2 ^ 32 -> 0 <= n' < 2 ^ 32 -> 0 <= i <= 3 -> 0 <= i' <= 3 ->
  4 * Z.land (wrap_u32 (Z.lnot m)) n + i + 1 < 2 ^ 32 ->
  4 * Z.land (wrap_u32 (Z.lnot m)) n' + i' + 1 < 2 ^ 32 ->
  Z.land m (4 * Z.land (wrap_u32 (Z.lnot m)) n + i + 1) = 0 ->
  Z.land m (4 * Z.land (wrap_u32 (Z.lnot m)) n' + i' + 1) = 0 ->
  GetChildId n i m = GetChildId n' i' m ->
  n = n' /\ i = i'.
Proof.
  intros Hn Hn' Hi Hi' Hc Hc' Hm Hm' Heq.
  assert (Hnode : 0 <= Z.land (wrap_u32 (Z.lnot m)) n).
  { apply Z.land_nonneg. right. lia. }
  assert (Hnode' : 0 <= Z.land (wrap_u32 (Z.lnot m)) n').
  { apply Z.land_nonneg. right. lia. }
  rewrite (GetChildId_value n i m) in Heq by done.
  rewrite (GetChildId_value n' i' m) in Heq by done.
  assert (Hroot : Z.land m n = Z.land m n').
  { apply (f_equal (Z.land m)) in Heq.
    rewrite !Z.land_lor_distr_r, Hm, Hm', !Z.lor_0_r in Heq.
    by rewrite !Z.land_assoc, !Z.land_diag in Heq. }
  assert (Hchild : 4 * Z.land (wrap_u32 (Z.lnot m)) n + i + 1
                   = 4 * Z.land (wrap_u32 (Z.lnot m)) n' + i' + 1).
  { apply (f_equal (Z.land (wrap_u32 (Z.lnot m)))) in Heq.
    rewrite !Z.land_lor_distr_r, !land_not_mask_root, !Z.lor_0_l in Heq.
    rewrite (land_not_mask_clear m
               (4 * Z.land (wrap_u32 (Z.lnot m)) n + i + 1)),
            (land_not_mask_clear m
               (4 * Z.land (wrap_u32 (Z.lnot m)) n' + i' + 1)) in Heq
      by (done || lia).
    done. }
  assert (Hpart : Z.land (wrap_u32 (Z.lnot m)) n
                  = Z.land (wrap_u32 (Z.lnot m)) n') by lia.
  split; [|lia].
  rewrite (split_by_mask m n), (split_by_mask m n') by done.
  by rewrite Hroot, Hpart.
Qed.
End HashMore.

Section HashDescentFacts.
Context `{FloatOps} `{!Config}.

Lemma wrap_u32_small (z : Z) : 0 <= z < 2 ^ 32 -> wrap_u32 z = z.
Proof. intros Hz. by apply Z.mod_small. Qed.

Lemma half_of_double (k : nat) :
  Z.shiftr (2 ^ Z.of_nat (S k)) 1 = 2 ^ Z.of_nat k.
Proof.
  rewrite Z.shiftr_div_pow2 by lia. change (2 ^ 1) with 2.
  rewrite Nat2Z.inj_succ, Z.pow_succ_r by lia.
  rewrite Z.mul_comm. apply Z.div_mul. lia.
Qed.

(** The descent from a node of size [2 ^ k] that holds the source square. *)
Lemma descent_invariant (rootMask srcX srcZ : Z) (k : nat) :
  1 <= wrap_u32 QTPFS_SHARE_PATH_MAX_SIZE ->
  forall fuel num xoff zoff,
    (k <= fuel)%nat ->
    0 <= xoff -> 0 <= zoff ->
    xoff + 2 ^ Z.of_nat k <= 2 ^ 32 -> zoff + 2 ^ Z.of_nat k <= 2 ^ 32 ->
    xoff <= srcX < xoff + 2 ^ Z.of_nat k ->
    zoff <= srcZ < zoff + 2 ^ Z.of_nat k ->
    exists num' xoff' zoff' (j : nat),
      descend_state fuel rootMask srcX srcZ (2 ^ Z.of_nat k) num xoff zoff
        = Some (num', 2 ^ Z.of_nat j, xoff', zoff')
      /\ descend fuel rootMask srcX srcZ (2 ^ Z.of_nat k) num xoff zoff
          = Some num'
      /\ (j <= k)%nat
      /\ 2 ^ Z.of_nat j <= wrap_u32 QTPFS_SHARE_PATH_MAX_SIZE
      /\ xoff <= xoff' /\ xoff' + 2 ^ Z.of_nat j <= xoff + 2 ^ Z.of_nat k
      /\ zoff <= zoff' /\ zoff' + 2 ^ Z.of_nat j <= zoff + 2 ^ Z.of_nat k
      /\ xoff' <= srcX < xoff' + 2 ^ Z.of_nat j
      /\ zoff' <= srcZ < zoff' + 2 ^ Z.of_nat j.
Proof.
  intros Hmax.
  induction k as [|k IH]; intros fuel num xoff zoff Hfuel Hx0 Hz0 Hxb Hzb Hx Hz.
  - exists num, xoff, zoff, 0%nat. change (2 ^ Z.of_nat 0) with 1 in *.
    assert (Hg : (1 >? wrap_u32 QTPFS_SHARE_PATH_MAX_SIZE) = false)
      by (destruct (Z.gtb_spec 1 (wrap_u32 QTPFS_SHARE_PATH_MAX_SIZE)); lia).
    destruct fuel; cbn [descend_state descend]; rewrite Hg;
      repeat split; try done; lia.
  - destruct (Z.gtb_spec (2 ^ Z.of_nat (S k))
                (wrap_u32 QTPFS_SHARE_PATH_MAX_SIZE)) as [Hbig|Hsmall].
    2:{ exists num, xoff, zoff, (S k).
        assert (Hg : (2 ^ Z.of_nat (S k)
                      >? wrap_u32 QTPFS_SHARE_PATH_MAX_SIZE) = false)
          by (destruct (Z.gtb_spec (2 ^ Z.of_nat (S k))
                          (wrap_u32 QTPFS_SHARE_PATH_MAX_SIZE)); lia).
        destruct fuel; cbn [descend_state descend]; rewrite Hg;
          repeat split; try done; lia. }
    assert (Hg : (2 ^ Z.of_nat (S k)
                  >? wrap_u32 QTPFS_SHARE_PATH_MAX_SIZE) = true)
      by (destruct (Z.gtb_spec (2 ^ Z.of_nat (S k))
                      (wrap_u32 QTPFS_SHARE_PATH_MAX_SIZE)); lia).
    destruct fuel as [|fuel]; [lia|].
    cbn [descend_state descend]. rewrite Hg. unfold quadrant.
    rewrite half_of_double.
    assert (Hpow : 2 ^ Z.of_nat (S k) = 2 * 2 ^ Z.of_nat k)
      by (rewrite Nat2Z.inj_succ, Z.pow_succ_r by lia; done).
    assert (Hpos : 0 < 2 ^ Z.of_nat k) by (apply Z.pow_pos_nonneg; lia).
    rewrite Hpow in Hxb, Hzb, Hx, Hz.
    rewrite !(wrap_u32_small (_ + 2 ^ Z.of_nat k)) by lia.
    destruct (Z.geb_spec srcX (xoff + 2 ^ Z.of_nat k)) as [Hr|Hl];
      destruct (Z.geb_spec srcZ (zoff + 2 ^ Z.of_nat k)) as [Hd|Hu];
      cbn [Z.b2z];
      rewrite ?Z.mul_1_r, ?Z.mul_0_r, ?Z.add_0_r;
      rewrite ?(wrap_u32_small (xoff + _)), ?(wrap_u32_small (zoff + _)),
              ?(wrap_u32_small xoff), ?(wrap_u32_small zoff) by lia;
      match goal with
      | |- context [descend_state fuel _ _ _ _ ?n ?a ?b] =>
          destruct (IH fuel n a b)
            as (num' & xoff' & zoff' & j & Hst & Hd' & Hj & Hsz & Hrest);
            [lia..|]
      end;
      exists num', xoff', zoff', j; rewrite Hst, Hd', Hpow;
      (split; [done|]); (split; [done|]); (split; [lia|]);
      (split; [done|]); lia.
Qed.

(** X7. From a source node whose size is a power of two and which
    holds the source square, the descent of [GenerateHash] ends in a
    virtual node that lies inside the source node, still holds the source
    square, and whose size is a power of two of at most the maximum
    shareable size. *)
Theorem descent_contains_source (rootMask srcX srcZ num xoff zoff : Z)
  (k : nat) :
  1 <= wrap_u32 QTPFS_SHARE_PATH_MAX_SIZE -> (k <= 31)%nat ->
  0 <= xoff -> 0 <= zoff ->
  xoff + 2 ^ Z.of_nat k <= 2 ^ 32 -> zoff + 2 ^ Z.of_nat k <= 2 ^ 32 ->
  xoff <= srcX < xoff + 2 ^ Z.of_nat k ->
  zoff <= srcZ < zoff + 2 ^ Z.of_nat k ->
  exists num' xoff' zoff' (j : nat),
    descend_state 33 rootMask srcX srcZ (2 ^ Z.of_nat k) num xoff zoff
      = Some (num', 2 ^ Z.of_nat j, xoff', zoff')
    /\ descend 33 rootMask srcX srcZ (2 ^ Z.of_nat k) num xoff zoff
        = Some num'
    /\ (j <= k)%nat
    /\ 2 ^ Z.of_nat j <= wrap_u32 QTPFS_SHARE_PATH_MAX_SIZE
    /\ xoff <= xoff' /\ xoff' + 2 ^ Z.of_nat j <= xoff + 2 ^ Z.of_nat k
    /\ zoff <= zoff' /\ zoff' + 2 ^ Z.of_nat j <= zoff + 2 ^ Z.of_nat k
    /\ xoff' <= srcX < xoff' + 2 ^ Z.of_nat j
    /\ zoff' <= srcZ < zoff' + 2 ^ Z.of_nat j.
Proof.
  intros Hmax Hk. apply descent_invariant; [done|lia].
Qed.
End HashDescentFacts.

(** ** Binding a worker, seeding and probing *)

Section SearchMore.
Context `{FloatOps} `{!Float3Ops} `{!Config} `{!PathOps}.

Lemma sparse_at_Reset (cap : nat) (id : Z) :
  0 <= id < Z.of_nat cap ->
  Sparse.sparse_at (Sparse.Reset (T := SearchNode) cap) id = Some 0.
Proof.
  intros Hid. unfold Sparse.sparse_at. destruct (Z.ltb_spec id 0); [lia|].
  simpl. apply lookup_replicate. split; [done|lia].
Qed.

(** The registry and the two references [InitializeThread] leaves. *)
Lemma InitializeThread_registry (G : Globals) (L : NodeLayer)
  (s : PathSearch) :
  let cap := GetMaxNodesAlloced L in
  let srcId := GetIndex (GetNode L (square_of (vx (srcPoint s)))
                                   (square_of (vz (srcPoint s)))) in
  let tgtId := GetIndex (resolved_target G L s) in
  Z.of_nat cap < 2 ^ 31 ->
  0 <= srcId < Z.of_nat cap -> 0 <= tgtId < Z.of_nat cap ->
  exists s1,
    InitializeThread G L s = Some s1
    /\ srcSearchNode s1 = 1%nat
    /\ tgtSearchNode s1 = (if srcId =? tgtId then 1%nat else 2%nat)
    /\ Sparse.denseData (allSearchedNodes s1)
       = SearchNode_of_id 0 :: SearchNode_of_id srcId
           :: (if srcId =? tgtId then [] else [SearchNode_of_id tgtId])
    /\ Sparse.sparse_at (allSearchedNodes s1) srcId = Some 1
    /\ Sparse.sparse_at (allSearchedNodes s1) tgtId
       = Some (if srcId =? tgtId then 1 else 2)
    /\ (forall id k, Sparse.sparse_at (allSearchedNodes s1) id = Some k ->
          k <> 0 ->
          id = srcId /\ k = 1 \/ id = tgtId /\ k = 2 /\ srcId <> tgtId)
    /\ Sparse.reached cap (allSearchedNodes s1).
Proof.
  intros cap srcId tgtId Hcap Hsrc Htgt.
  pose proof (inv_Reset (T := SearchNode) cap) as Hinv0.
  pose proof (sparse_at_Reset cap srcId Hsrc) as Hs0.
  destruct (InsertAtIndex_fresh cap _ srcId (SearchNode_of_id srcId)
              Hcap Hinv0 Hs0) as (Hins & Hinv1 & Hat1).
  cbn zeta in Hins, Hinv1, Hat1.
  set (d1 := Sparse.mkSparseData _ _) in Hins, Hinv1, Hat1.
  assert (Hop1 : Sparse.InsertINode (Sparse.Reset cap) srcId
                 = Some (d1, 1%nat)).
  { unfold Sparse.InsertINode. destruct (Z.ltb_spec srcId 0); [lia|].
    change (T_of_id srcId) with (SearchNode_of_id srcId).
    rewrite Hins. cbn [mbind option_bind]. rewrite Hat1. done. }
  assert (Hstep1 : Sparse.step (Sparse.Reset cap) d1)
    by (by eapply Sparse.step_insert).
  assert (Hs1 : Sparse.sparse_at d1 srcId = Some 1).
  { unfold Sparse.sparse_at. destruct (Z.ltb_spec srcId 0); [lia|].
    subst d1. simpl. apply list_lookup_insert_eq.
    rewrite length_replicate. lia. }
  assert (Hother : forall id, Z.to_nat id <> Z.to_nat srcId -> 0 <= id ->
            Sparse.sparse_at d1 id
            = Sparse.sparse_at (Sparse.Reset (T := SearchNode) cap) id).
  { intros id Hne Hid. unfold Sparse.sparse_at.
    destruct (Z.ltb_spec id 0); [lia|]. subst d1. simpl.
    by rewrite list_lookup_insert_ne. }
  assert (Hzero : forall id k,
            Sparse.sparse_at (Sparse.Reset (T := SearchNode) cap) id = Some k ->
            k = 0).
  { intros id k Hk. apply sparse_at_Some in Hk as [_ Hk]. simpl in Hk.
    by apply lookup_replicate in Hk as [-> _]. }
  assert (Hbody : forall d2 tgt,
            Sparse.InsertINodeIfNotPresent d1 tgtId = Some (d2, tgt) ->
            InitializeThread G L s =
              Some (mkPathSearch (srcPoint s) (tgtPoint s) (rawPathCheck s)
                      (searchType s)
                      (let tgtNode := GetNode L (square_of (vx (tgtPoint s)))
                                        (square_of (vz (tgtPoint s))) in
                       if AllSquaresImpassable tgtNode then
                         match GetNearestNodeInArea L
                                 (mkSRectangle
                                    (Z.max (wrap_i32 (xmin tgtNode) - 16) 0)
                                    (Z.max (wrap_i32 (zmin tgtNode) - 16) 0)
                                    (Z.min (wrap_i32 (xmax tgtNode) + 16)
                                       (mapx G))
                                    (Z.min (wrap_i32 (zmax tgtNode) + 16)
                                       (mapy G)))
                                 (square_of (vx (tgtPoint s)),
                                  square_of (vz (tgtPoint s)))
                         with Some _ => true | None => false end
                       else false)
                      (haveFullPath s) (havePartPath s) (hCostMult s)
                      1%nat tgt None None 1%nat (netPoints s) (gDists s)
                      (hDists s) (gCosts s) (hCosts s) d2 [])).
  { intros d2 tgt Hop2. unfold InitializeThread.
    fold srcId. fold cap. rewrite Hop1. cbn [mbind option_bind].
    subst tgtId. unfold resolved_target in Hop2.
    destruct (AllSquaresImpassable _).
    - destruct (GetNearestNodeInArea _ _ _);
        rewrite Hop2; cbn [mbind option_bind]; done.
    - rewrite Hop2. cbn [mbind option_bind]. done. }
  destruct (Z.eqb_spec srcId tgtId) as [Heq|Hne].
  - destruct (InsertINodeIfNotPresent_present cap d1 tgtId 1) as [Hop2 _];
      [done|by rewrite <- Heq|done|].
    eexists. split; [apply (Hbody _ _ Hop2)|]. simpl.
    split; [done|]. split; [done|]. split; [done|]. split; [done|].
    split; [by rewrite <- Heq|]. split.
    + intros id k Hk Hk0. destruct (decide (Z.to_nat id = Z.to_nat srcId)).
      * apply sparse_at_Some in Hk as [Hid Hk].
        assert (id = srcId) by lia. subst id.
        apply sparse_at_Some in Hs1 as [_ Hs1]. left. split; [done|].
        congruence.
      * pose proof (sparse_at_Some _ _ _ Hk) as [Hid _].
        rewrite Hother in Hk by done. apply Hzero in Hk. done.
    + eapply rtc_l; [exact Hstep1|]. apply rtc_refl.
  - assert (Hne' : Z.to_nat tgtId <> Z.to_nat srcId) by lia.
    assert (Ht0 : Sparse.sparse_at d1 tgtId = Some 0).
    { rewrite Hother by (done || lia). by apply sparse_at_Reset. }
    pose proof (InsertINodeIfNotPresent_fresh cap d1 tgtId Hcap Hinv1 Ht0)
      as Hop2.
    change (T_of_id tgtId) with (SearchNode_of_id tgtId) in Hop2.
    eexists. split; [apply (Hbody _ _ Hop2)|]. simpl.
    split; [done|]. split; [done|]. split; [done|].
    assert (Hs2 : forall id, 0 <= id ->
              Sparse.sparse_at
                (Sparse.mkSparseData
                   (<[Z.to_nat tgtId := Z.of_nat (length (Sparse.denseData d1))]>
                      (Sparse.sparseIndex d1))
                   (Sparse.denseData d1 ++ [SearchNode_of_id tgtId])) id
              = if decide (Z.to_nat tgtId = Z.to_nat id) then Some 2
                else Sparse.sparse_at d1 id).
    { intros id Hid. unfold Sparse.sparse_at.
      destruct (Z.ltb_spec id 0); [lia|]. simpl.
      destruct (decide (Z.to_nat tgtId = Z.to_nat id)) as [E|E].
      - rewrite E. apply list_lookup_insert_eq.
        rewrite length_insert, length_replicate. lia.
      - by rewrite list_lookup_insert_ne. }
    split; [|split; [|split]].
    + rewrite Hs2 by lia. destruct (decide _); [lia|done].
    + rewrite Hs2 by lia. destruct (decide _); [done|lia].
    + intros id k Hk Hk0.
      pose proof (sparse_at_Some _ _ _ Hk) as [Hid _].
      rewrite Hs2 in Hk by done. destruct (decide _) as [E|E].
      * right. split; [lia|]. split; [congruence|done].
      * destruct (decide (Z.to_nat id = Z.to_nat srcId)).
        -- assert (id = srcId) by lia. subst id. left. split; [done|].
           congruence.
        -- rewrite Hother in Hk by done. apply Hzero in Hk. done.
    + eapply rtc_l; [exact Hstep1|]. eapply rtc_l; [|apply rtc_refl].
      eapply Sparse.step_fetch. exact Hop2.
Qed.

(** X8. On a layer whose source node and resolved target node are
    nodes of the pool, [InitializeThread] succeeds and leaves nothing of
    an earlier search: the registry holds the dummy, a new record for the
    source node at slot 1 and, when the target node is another node, a new
    record for it at slot 2; the open list is empty, nothing is current,
    and the lowest-heuristic record is the source record.  The request
    itself is as it was. *)
Theorem InitializeThread_slots (G : Globals) (L : NodeLayer)
  (s : PathSearch) :
  let cap := GetMaxNodesAlloced L in
  let srcId := GetIndex (GetNode L (square_of (vx (srcPoint s)))
                                   (square_of (vz (srcPoint s)))) in
  let tgtId := GetIndex (resolved_target G L s) in
  Z.of_nat cap < 2 ^ 31 ->
  0 <= srcId < Z.of_nat cap -> 0 <= tgtId < Z.of_nat cap ->
  exists s1,
    InitializeThread G L s = Some s1
    /\ srcSearchNode s1 = 1%nat
    /\ tgtSearchNode s1 = (if srcId =? tgtId then 1%nat else 2%nat)
    /\ Sparse.denseData (allSearchedNodes s1)
       = SearchNode_of_id 0 :: SearchNode_of_id srcId
           :: (if srcId =? tgtId then [] else [SearchNode_of_id tgtId])
    /\ Sparse.at_index (allSearchedNodes s1) srcId = Some (srcSearchNode s1)
    /\ Sparse.at_index (allSearchedNodes s1) tgtId = Some (tgtSearchNode s1)
    /\ openNodes s1 = []
    /\ curSearchNode s1 = None /\ nextSearchNode s1 = None
    /\ minSearchNode s1 = srcSearchNode s1
    /\ (srcPoint s1, tgtPoint s1, rawPathCheck s1, searchType s1)
       = (srcPoint s, tgtPoint s, rawPathCheck s, searchType s)
    /\ (srcSearchNode s1 = tgtSearchNode s1 <-> srcId = tgtId).
Proof.
  intros cap srcId tgtId Hcap Hsrc Htgt.
  destruct (InitializeThread_registry G L s Hcap Hsrc Htgt)
    as (s1 & Hinit & Hs & Ht & Hdense & Hss & Hst & _ & _).
  fold srcId tgtId in Hs, Ht, Hdense, Hss, Hst.
  exists s1. split; [done|]. split; [done|]. split; [done|].
  split; [done|].
  assert (Hlen : (2 <= length (Sparse.denseData (allSearchedNodes s1)))%nat)
    by (rewrite Hdense; simpl; lia).
  split; [|split].
  - unfold Sparse.at_index. rewrite Hss. cbn [mbind option_bind].
    rewrite dense_ref_in_range by lia. by rewrite Hs.
  - unfold Sparse.at_index. rewrite Hst.
    cbn [mbind option_bind]. rewrite Ht.
    destruct (srcId =? tgtId) eqn:E.
    + by rewrite dense_ref_in_range by lia.
    + rewrite dense_ref_in_range; [done|]. rewrite Hdense. simpl. lia.
  - unfold InitializeThread in Hinit.
    apply bind_Some in Hinit as ([d1 src] & _ & Hinit).
    apply bind_Some in Hinit as ([d2 tgt] & _ & Hinit).
    injection Hinit as <-. simpl. repeat (split; [done|]).
    simpl in Hs, Ht. rewrite Ht. subst src.
    destruct (Z.eqb_spec srcId tgtId); split; intros; try done; lia.
Qed.

(** X9. The seed of a graph search: whatever the open list held is
    dropped and a single entry, of priority zero, is pushed for the source
    node; the source record gets cost zero, the straight-line distance
    from source to target times the heuristic multiplier as heuristic
    cost, no predecessor and the source point as crossing point; no other
    record changes.  The multiplier is the reciprocal of the best speed
    modifier for A*, zero for Dijkstra. *)
Theorem seed_effect (G : Globals) (s : PathSearch) (src : SearchNode) :
  node_at s (srcSearchNode s) = Some src ->
  let mult := match searchType s with
              | PATH_SEARCH_ASTAR => f_div (f_of_Z 1) (maxRelSpeedMod G)
              | PATH_SEARCH_DIJKSTRA => f_of_Z 0
              end in
  let h := f_mul (distance (srcPoint s) (tgtPoint s)) mult in
  exists s',
    seed G s = Some s'
    /\ hCostMult s' = mult
    /\ openNodes s' = [mkSearchQueueNode (f_of_Z 0) (index src)]
    /\ node_at s' (srcSearchNode s)
       = Some (mkSearchNode (index src) (f_add (f_of_Z 0) h) (f_of_Z 0) h
                 None (mkFloat2 (vx (srcPoint s)) (vz (srcPoint s))))
    /\ (forall k, k <> srcSearchNode s -> node_at s' k = node_at s k)
    /\ Sparse.sparseIndex (allSearchedNodes s')
       = Sparse.sparseIndex (allSearchedNodes s)
    /\ length (Sparse.denseData (allSearchedNodes s'))
       = length (Sparse.denseData (allSearchedNodes s))
    /\ request_of s' = request_of s /\ cursor_of s' = cursor_of s.
Proof.
  intros Hsrc mult h. unfold seed, ResetState. fold mult.
  change (node_at (with_scratch _ _ _ _ _ _) ?k) with (node_at s k).
  simpl srcSearchNode. rewrite Hsrc. cbn [mbind option_bind].
  unfold UpdateNode.
  change (node_at (with_queue _ _) ?k) with (node_at s k).
  simpl srcSearchNode. rewrite Hsrc. cbn [mbind option_bind].
  simpl. eexists. split; [done|]. split; [done|]. split; [done|].
  assert (Hlt : (srcSearchNode s
                 < length (Sparse.denseData (allSearchedNodes s)))%nat)
    by (by apply lookup_lt_Some in Hsrc).
  split; [|split; [|split; [|split]]].
  - unfold node_at. simpl. by rewrite list_lookup_insert_eq.
  - intros k Hk. unfold node_at. simpl. by rewrite list_lookup_insert_ne.
  - done.
  - simpl. by rewrite length_insert.
  - done.
Qed.

(** X10. When the entry on top of the open list is the target's, the
    loop ends with this turn: the target node is not expanded, no record
    changes, the entries left on the open list are dropped without being
    looked at, and the search has its full path. *)
Theorem target_pop_ends_search (fuel : nat) (L : NodeLayer) (s : PathSearch)
  (e : SearchQueueNode) (q : SearchPriorityQueue) :
  openNodes s = e :: q ->
  Sparse.at_index (allSearchedNodes s) (nodeIndex e)
    = Some (tgtSearchNode s) ->
  exists s',
    search_loop (S fuel) L s = Some s'
    /\ haveFullPath s' = true
    /\ curSearchNode s' = Some (tgtSearchNode s)
    /\ openNodes s' = []
    /\ allSearchedNodes s' = allSearchedNodes s
    /\ minSearchNode s' = minSearchNode s
    /\ havePartPath s' = havePartPath s
    /\ request_of s' = request_of s.
Proof.
  intros Hq Hat. cbn [search_loop]. rewrite Hq.
  unfold IterateNodes. rewrite Hq, Hat. cbn [mbind option_bind].
  simpl tgtSearchNode. rewrite Nat.eqb_refl. cbn [mbind option_bind].
  simpl curSearchNode. simpl tgtSearchNode.
  rewrite bool_decide_eq_true_2 by done.
  eexists. split.
  - destruct fuel; cbn [search_loop]; simpl; done.
  - done.
Qed.

(** X11. A raw probe between distinct source and target records runs
    no graph search: [Execute] returns what the straight-line probe of
    the movement class says and touches neither the registry nor the open
    list, and [Finalize] then leaves the points of the route as they are,
    the literal source and target points not being written; it sets the
    bounding box and the flags, the full-path flag masked by a degraded
    goal, the partial-path flag unset. *)
Theorem raw_probe (fuel : nat) (G : Globals) (L : NodeLayer)
  (s : PathSearch) (path : IPath) :
  rawPathCheck s = true ->
  srcSearchNode s <> tgtSearchNode s ->
  let full := DoRawSearch G (srcPoint s) (tgtPoint s) in
  let s' := with_flags s full false in
  Execute fuel G L s = Some (full, s')
  /\ allSearchedNodes s' = allSearchedNodes s
  /\ openNodes s' = openNodes s
  /\ Finalize fuel L s' path
     = Some (s', mkIPath (pathID path) (pathHash path) (points path)
                   (bounds_of (points path)) (full && negb (badGoal s))
                   false).
Proof.
  intros Hraw Hne full s'. unfold Execute, ExecuteRawSearch. simpl.
  destruct (Nat.eqb_spec (srcSearchNode s) (tgtSearchNode s)); [done|].
  rewrite Hraw. split; [done|]. split; [done|]. split; [done|].
  unfold Finalize. simpl. rewrite Hraw. done.
Qed.
End SearchMore.

(** ** The registry and the open list during a search *)

Section SearchInvariant.
Context `{FloatOps} `{!Float3Ops} `{!Config} `{!PathOps}.

Lemma at_index_lt {T : Type} (d : Sparse.SparseData T) (i : Z) (k : nat) :
  Sparse.at_index d i = Some k -> (k < length (Sparse.denseData d))%nat.
Proof.
  unfold Sparse.at_index, Sparse.dense_ref. intros Hat.
  apply bind_Some in Hat as (s & _ & Hat).
  destruct (Z.ltb_spec s 0); [done|].
  destruct (Z.ltb_spec s (Z.of_nat (length (Sparse.denseData d)))); [|done].
  injection Hat as <-. lia.
Qed.

Lemma is_Some_lookup_app {A : Type} (l l' : list A) (m : nat) :
  is_Some (l !! m) -> is_Some ((l ++ l') !! m).
Proof. intros [x Hx]. exists x. by apply lookup_app_l_Some. Qed.

Lemma is_Some_lookup_insert {A : Type} (l : list A) (k m : nat) (v : A) :
  is_Some (l !! m) -> is_Some (<[k := v]> l !! m).
Proof.
  rewrite !lookup_lt_is_Some. by rewrite length_insert.
Qed.

(** Consistency depends on the registry, the open list and the three
    references only. *)
Lemma consistent_same_nodes (cap : nat) (s s' : PathSearch) :
  consistent cap s ->
  allSearchedNodes s' = allSearchedNodes s ->
  (forall e, e ∈ openNodes s' -> e ∈ openNodes s) ->
  (forall c, curSearchNode s' = Some c -> is_Some (node_at s c)) ->
  is_Some (node_at s (minSearchNode s')) ->
  is_Some (node_at s (tgtSearchNode s')) ->
  consistent cap s'.
Proof.
  intros (Hinv & Hrec & Hq & Hlinks & Hcur & Hmin & Htgt) Hn Hsub Hc Hm Ht.
  unfold consistent, node_at in *. rewrite Hn.
  split; [done|]. split; [done|]. split; [by auto|]. done.
Qed.

(** A write through a reference that keeps the identifier of the record
    and gives it a predecessor of the registry. *)
Lemma consistent_write (cap : nat) (s s' : PathSearch) (k : nat)
  (old new : SearchNode) :
  consistent cap s -> node_at s k = Some old -> index new = index old ->
  (forall m, prevNode new = Some m -> is_Some (node_at s m)) ->
  allSearchedNodes s'
    = Sparse.mkSparseData (Sparse.sparseIndex (allSearchedNodes s))
        (<[k := new]> (Sparse.denseData (allSearchedNodes s))) ->
  (forall e, e ∈ openNodes s' ->
     Sparse.isSet (allSearchedNodes s) (nodeIndex e) = Some true) ->
  curSearchNode s' = curSearchNode s ->
  minSearchNode s' = minSearchNode s ->
  tgtSearchNode s' = tgtSearchNode s ->
  consistent cap s'.
Proof.
  intros (Hinv & Hrec & Hq & Hlinks & Hcur & Hmin & Htgt)
         Hold Hidx Hprev Hn Hq' Hc Hm Ht.
  unfold consistent, node_at in *. rewrite Hn, Hc, Hm, Ht. simpl.
  assert (Hk : (k < length (Sparse.denseData (allSearchedNodes s)))%nat)
    by (by apply lookup_lt_Some in Hold).
  split; [by apply inv_overwrite|]. split; [|split; [|split; [|split]]].
  - intros id j Hj Hj0. destruct (Hrec id j Hj Hj0) as (r & Hr & Hri).
    destruct (decide (Z.to_nat j = k)) as [E|E].
    + exists new. rewrite E. rewrite list_lookup_insert_eq by done.
      split; [done|]. rewrite Hidx. rewrite E in Hr. congruence.
    + exists r. by rewrite list_lookup_insert_ne.
  - exact Hq'.
  - intros j r m Hj Hp. apply is_Some_lookup_insert.
    destruct (decide (j = k)) as [->|E].
    + rewrite list_lookup_insert_eq in Hj by done. injection Hj as <-.
      by apply Hprev.
    + rewrite list_lookup_insert_ne in Hj by done. by eapply Hlinks.
  - intros c Hcc. apply is_Some_lookup_insert. by apply Hcur.
  - split; by apply is_Some_lookup_insert.
Qed.

Lemma fetch_neighbor_consistent (cap : nat) (id : Z) (s s1 : PathSearch)
  (nxt : nat) :
  Z.of_nat cap < 2 ^ 31 -> 0 <= id < Z.of_nat cap ->
  consistent cap s -> fetch_neighbor id s = Some (s1, nxt) ->
  consistent cap s1 /\ nxt <> 0%nat /\
  Sparse.sparse_at (allSearchedNodes s1) id = Some (Z.of_nat nxt).
Proof.
  intros Hcap Hid Hcons Hfetch. unfold fetch_neighbor in Hfetch.
  apply bind_Some in Hfetch as ([d' n] & Hop & Hfetch).
  injection Hfetch as <- <-.
  pose proof Hcons as (Hinv & Hrec & Hq & Hlinks & Hcur & Hmin & Htgt).
  destruct (sparse_at_in_range (allSearchedNodes s) cap id) as [s0 Hs0];
    [by destruct Hinv|done|].
  destruct (decide (s0 = 0)) as [->|Hne].
  - rewrite (InsertINodeIfNotPresent_fresh cap _ id Hcap Hinv Hs0) in Hop.
    injection Hop as <- <-.
    destruct (InsertAtIndex_fresh cap _ id (T_of_id id) Hcap Hinv Hs0)
      as (_ & Hinv' & _). cbn zeta in Hinv'.
    assert (Hlen1 : (1 <= length (Sparse.denseData (allSearchedNodes s)))%nat)
      by (destruct Hinv as (_ & -> & _); lia).
    destruct (sparse_at_Some _ _ _ Hs0) as [_ Hlk0].
    assert (Hnew : Sparse.sparse_at
                     (Sparse.mkSparseData
                        (<[Z.to_nat id :=
                             Z.of_nat (length (Sparse.denseData
                                                 (allSearchedNodes s)))]>
                           (Sparse.sparseIndex (allSearchedNodes s)))
                        (Sparse.denseData (allSearchedNodes s)
                           ++ [T_of_id id])) id
                   = Some (Z.of_nat (length (Sparse.denseData
                                               (allSearchedNodes s))))).
    { unfold Sparse.sparse_at. destruct (Z.ltb_spec id 0); [lia|]. simpl.
      apply list_lookup_insert_eq. by apply lookup_lt_Some in Hlk0. }
    split; [|split; [lia|exact Hnew]].
    unfold consistent, node_at. simpl.
    split; [done|]. split; [|split; [|split; [|split]]].
    + intros id' k Hk Hk0.
      destruct (sparse_at_Some _ _ _ Hk) as [Hid' Hlk]. simpl in Hlk.
      destruct (decide (Z.to_nat id = Z.to_nat id')) as [E|E].
      * assert (id' = id) by lia. subst id'.
        rewrite list_lookup_insert_eq in Hlk
          by (by apply lookup_lt_Some in Hlk0).
        injection Hlk as <-. rewrite Nat2Z.id.
        exists (SearchNode_of_id id). split; [|done].
        rewrite lookup_app_r by lia. by rewrite Nat.sub_diag.
      * rewrite list_lookup_insert_ne in Hlk by done.
        destruct (Hrec id' k) as (r & Hr & Hri); [|done|].
        { unfold Sparse.sparse_at. by destruct (Z.ltb_spec id' 0); [lia|]. }
        exists r. split; [|done]. by apply lookup_app_l_Some.
    + intros e He. specialize (Hq e He). unfold Sparse.isSet in Hq |- *.
      apply bind_Some in Hq as (k & Hk & Hq). injection Hq as Hq.
      rewrite (sparse_at_insert_other _ id (nodeIndex e) _ k) by
        (done || by destruct (Z.eqb_spec k 0)).
      cbn [mbind option_bind]. by rewrite Hq.
    + intros k r m Hk Hp. apply is_Some_lookup_app.
      destruct (decide (k < length (Sparse.denseData (allSearchedNodes s)))%nat).
      * rewrite lookup_app_l in Hk by done. by eapply Hlinks.
      * apply lookup_lt_Some in Hk as Hlt. rewrite length_app in Hlt.
        simpl in Hlt.
        assert (k = length (Sparse.denseData (allSearchedNodes s))) by lia.
        subst k. rewrite lookup_app_r, Nat.sub_diag in Hk by lia.
        injection Hk as <-. done.
    + intros c Hc. apply is_Some_lookup_app. by apply Hcur.
    + split; by apply is_Some_lookup_app.
  - destruct (InsertINodeIfNotPresent_present cap _ id s0 Hinv Hs0 Hne)
      as [Hop' Hpos].
    rewrite Hop' in Hop. injection Hop as <- <-.
    assert (Hrange : 0 <= s0).
    { destruct Hinv as (_ & _ & Hr).
      destruct (sparse_at_Some _ _ _ Hs0) as [_ Hlk].
      specialize (Hr _ _ Hlk). lia. }
    split; [|split; [lia|simpl; rewrite Hs0; f_equal; lia]].
    apply (consistent_same_nodes cap s); try done.
Qed.

Lemma relax_consistent (cap : nat) (id : Z) (nxt k : nat)
  (s s' : PathSearch) :
  consistent cap s ->
  Sparse.sparse_at (allSearchedNodes s) id = Some (Z.of_nat nxt) ->
  nxt <> 0%nat ->
  relax nxt k s = Some s' -> consistent cap s'.
Proof.
  intros Hcons Hat Hnxt Hrelax. unfold relax in Hrelax.
  apply bind_Some in Hrelax as (g & Hg & Hrelax).
  apply bind_Some in Hrelax as (nxtRec & Hrec & Hrelax).
  destruct (f_ge g (gCost nxtRec)); [by injection Hrelax as <-|].
  apply bind_Some in Hrelax as (s1 & Hup & Hrelax).
  apply bind_Some in Hrelax as (n & Hn & Hrelax).
  injection Hrelax as <-.
  unfold UpdateNode in Hup. rewrite Hrec in Hup. cbn [mbind option_bind] in Hup.
  apply bind_Some in Hup as (g' & _ & Hup).
  apply bind_Some in Hup as (h' & _ & Hup).
  apply bind_Some in Hup as (p' & _ & Hup).
  injection Hup as <-.
  pose proof Hcons as (Hinv & Hrecs & Hq & Hlinks & Hcur & Hmin & Htgt).
  assert (Hlt : (nxt < length (Sparse.denseData (allSearchedNodes s)))%nat)
    by (by apply lookup_lt_Some in Hrec).
  unfold node_at in Hn. simpl in Hn.
  rewrite list_lookup_insert_eq in Hn by done. injection Hn as <-.
  destruct (Hrecs id (Z.of_nat nxt) Hat ltac:(lia)) as (r & Hr & Hri).
  rewrite Nat2Z.id in Hr. rewrite Hrec in Hr. injection Hr as <-.
  eapply (consistent_write cap s _ nxt nxtRec
            (SetNeighborEdgeTransitionPoint
               (SetPathCosts (SetPrevNode nxtRec (curSearchNode s)) g' h')
               p')); try done.
  simpl. intros e He. rewrite emplace_perm in He.
  apply elem_of_cons in He as [->|He]; [|by apply Hq].
  simpl. rewrite Hri. unfold Sparse.isSet. rewrite Hat.
  cbn [mbind option_bind]. f_equal.
  destruct (Z.eqb_spec (Z.of_nat nxt) 0); [lia|done].
Qed.

Lemma relax_neighbor_consistent (cap : nat) (L : NodeLayer)
  (curNode : INode) (curPoint : float3) (i : nat) (id : Z)
  (s s' : PathSearch) :
  Z.of_nat cap < 2 ^ 31 -> 0 <= id < Z.of_nat cap ->
  consistent cap s ->
  relax_neighbor L curNode curPoint i id s = Some s' -> consistent cap s'.
Proof.
  intros Hcap Hid Hcons Hr. unfold relax_neighbor in Hr.
  apply bind_Some in Hr as ([s1 nxt] & Hfetch & Hr).
  apply bind_Some in Hr as ([s2 k] & Hsel & Hr).
  destruct (fetch_neighbor_consistent cap id s s1 nxt Hcap Hid Hcons Hfetch)
    as (Hc1 & Hnxt & Hat).
  apply select_netpoint_frame, but_scratch_fields in Hsel
    as (Hreq & Hnodes & Hq & Hcur & _ & Hmin & _).
  unfold request_of in Hreq. injection Hreq as _ _ _ _ _ _ Htgt.
  pose proof Hc1 as (_ & _ & _ & _ & Hcur1 & Hmin1 & Htgt1).
  assert (Hc2 : consistent cap s2).
  { apply (consistent_same_nodes cap s1); try done.
    - intros e. by rewrite Hq.
    - intros c. rewrite Hcur. apply Hcur1.
    - by rewrite Hmin.
    - by rewrite Htgt. }
  apply (relax_consistent cap id nxt k s2); try done. by rewrite Hnodes.
Qed.

Lemma relax_neighbors_consistent (cap : nat) (L : NodeLayer)
  (curNode : INode) (curPoint : float3) (ids : list Z) :
  Z.of_nat cap < 2 ^ 31 ->
  Forall (fun n => 0 <= n < Z.of_nat cap) ids ->
  forall i s s',
    consistent cap s ->
    relax_neighbors L curNode curPoint i ids s = Some s' ->
    consistent cap s'.
Proof.
  intros Hcap Hids. induction Hids as [|id ids Hid _ IH];
    intros i s s' Hcons Hr; cbn [relax_neighbors] in Hr.
  - by injection Hr as <-.
  - apply bind_Some in Hr as (s1 & H1' & Hr).
    eapply IH; [|exact Hr]. by eapply relax_neighbor_consistent.
Qed.

Lemma IterateNodes_consistent (L : NodeLayer) (s s' : PathSearch) :
  let cap := GetMaxNodesAlloced L in
  Z.of_nat cap < 2 ^ 31 -> neighbors_in_pool L ->
  consistent cap s -> IterateNodes L s = Some s' -> consistent cap s'.
Proof.
  intros cap Hcap Hngb Hcons Hit. unfold IterateNodes in Hit.
  destruct (openNodes s) as [|e q] eqn:Hq; [done|].
  apply bind_Some in Hit as (cur & Hat & Hit).
  pose proof Hcons as (_ & _ & _ & _ & _ & Hmin & Htgt).
  assert (Hcur : is_Some (node_at s cur)).
  { apply lookup_lt_is_Some. by eapply at_index_lt. }
  set (s1 := with_queue _ q) in Hit.
  assert (Hc1 : consistent cap s1).
  { apply (consistent_same_nodes cap s); try done.
    - intros e' He'. simpl in He'. rewrite Hq. apply elem_of_cons. by right.
    - simpl. intros c Hc. by injection Hc as <-. }
  destruct (Nat.eqb cur (tgtSearchNode s1)); [by injection Hit as <-|].
  apply bind_Some in Hit as (curRec & _ & Hit).
  destruct (f_lt _ _); [by injection Hit as <-|].
  apply bind_Some in Hit as (s2 & Hs2 & Hit).
  assert (Hc2 : consistent cap s2).
  { destruct QTPFS_SUPPORT_PARTIAL_SEARCHES.
    - apply bind_Some in Hs2 as (minRec & _ & Hs2).
      destruct (f_lt _ _); injection Hs2 as <-; [|done].
      apply (consistent_same_nodes cap s1); try done.
      simpl. intros c Hc. by injection Hc as <-.
    - by injection Hs2 as <-. }
  unfold IterateNodeNeighbors in Hit.
  apply bind_Some in Hit as (c & _ & Hit).
  apply bind_Some in Hit as (r & _ & Hit).
  eapply relax_neighbors_consistent; [exact Hcap|apply Hngb|exact Hc2|exact Hit].
Qed.

Lemma turn_consistent (L : NodeLayer) (s s' : PathSearch) :
  let cap := GetMaxNodesAlloced L in
  Z.of_nat cap < 2 ^ 31 -> neighbors_in_pool L ->
  consistent cap s -> turn L s s' -> consistent cap s'.
Proof.
  intros cap Hcap Hngb Hcons Hturn. unfold turn, loop_turn in Hturn.
  apply bind_Some in Hturn as (s1 & Hit & Hturn). injection Hturn as <-.
  pose proof (IterateNodes_consistent L s s1 Hcap Hngb Hcons Hit) as Hc1.
  pose proof Hc1 as (_ & _ & _ & _ & Hcur & Hmin & Htgt).
  apply (consistent_same_nodes cap s1); try done;
    destruct (bool_decide _); try done.
  simpl. intros e He. by apply elem_of_nil in He.
Qed.

Lemma search_loop_turns (fuel : nat) (L : NodeLayer) :
  forall s s', search_loop fuel L s = Some s' -> rtc (turn L) s s'.
Proof.
  induction fuel as [|fuel IH]; intros s s' Hl; cbn [search_loop] in Hl.
  - destruct (openNodes s); [|done]. injection Hl as <-. apply rtc_refl.
  - destruct (openNodes s) as [|e q] eqn:Hq.
    { injection Hl as <-. apply rtc_refl. }
    apply bind_Some in Hl as (s1 & Hit & Hl).
    eapply rtc_l; [|by apply IH].
    unfold turn, loop_turn. rewrite Hit. done.
Qed.

Lemma seed_consistent (cap : nat) (G : Globals) (s s' : PathSearch)
  (id : Z) :
  consistent cap s ->
  Sparse.sparse_at (allSearchedNodes s) id
    = Some (Z.of_nat (srcSearchNode s)) ->
  srcSearchNode s <> 0%nat ->
  seed G s = Some s' -> consistent cap s'.
Proof.
  intros Hcons Hat Hsrc Hseed. unfold seed in Hseed.
  apply bind_Some in Hseed as (s1 & Hreset & Hup).
  unfold ResetState in Hreset.
  apply bind_Some in Hreset as (n & Hn & Hreset). injection Hreset as <-.
  unfold UpdateNode in Hup.
  apply bind_Some in Hup as (n' & Hn' & Hup).
  apply bind_Some in Hup as (g & _ & Hup).
  apply bind_Some in Hup as (h & _ & Hup).
  apply bind_Some in Hup as (p & _ & Hup). injection Hup as <-.
  change (node_at _ ?k) with (node_at s k) in Hn, Hn'.
  simpl srcSearchNode in Hn, Hn'. rewrite Hn in Hn'. injection Hn' as <-.
  pose proof Hcons as (Hinv & Hrecs & Hq & Hlinks & Hcur & Hmin & Htgt).
  destruct (Hrecs id _ Hat ltac:(lia)) as (r & Hr & Hri).
  rewrite Nat2Z.id in Hr. rewrite Hn in Hr. injection Hr as <-.
  eapply (consistent_write cap s _ (srcSearchNode s) n
            (SetNeighborEdgeTransitionPoint
               (SetPathCosts (SetPrevNode n None) g h) p)); try done.
  simpl. intros e He.
  apply elem_of_cons in He as [->|He]; [|by apply elem_of_nil in He]. simpl.
  rewrite Hri. unfold Sparse.isSet. rewrite Hat. cbn [mbind option_bind].
  f_equal. destruct (Z.eqb_spec (Z.of_nat (srcSearchNode s)) 0); [lia|done].
Qed.

Lemma InitializeThread_consistent (G : Globals) (L : NodeLayer)
  (s s1 : PathSearch) :
  let cap := GetMaxNodesAlloced L in
  let srcId := GetIndex (GetNode L (square_of (vx (srcPoint s)))
                                   (square_of (vz (srcPoint s)))) in
  let tgtId := GetIndex (resolved_target G L s) in
  Z.of_nat cap < 2 ^ 31 ->
  0 <= srcId < Z.of_nat cap -> 0 <= tgtId < Z.of_nat cap ->
  InitializeThread G L s = Some s1 ->
  consistent cap s1 /\
  Sparse.sparse_at (allSearchedNodes s1) srcId
    = Some (Z.of_nat (srcSearchNode s1)) /\
  srcSearchNode s1 <> 0%nat.
Proof.
  intros cap srcId tgtId Hcap Hsrc Htgt Hinit.
  destruct (InitializeThread_registry G L s Hcap Hsrc Htgt)
    as (s1' & Hinit' & Hs & Ht & Hdense & Hss & Hst & Hall & Hreach).
  fold srcId tgtId cap in Hs, Ht, Hdense, Hss, Hst, Hall, Hreach.
  rewrite Hinit in Hinit'. injection Hinit' as <-.
  split; [|split; [by rewrite Hs|by rewrite Hs]].
  destruct (evolves_preserves cap _ _ Hcap (inv_Reset cap) Hreach)
    as (Hinv & _ & _).
  assert (Hrest : openNodes s1 = [] /\ curSearchNode s1 = None /\
                  minSearchNode s1 = srcSearchNode s1).
  { unfold InitializeThread in Hinit.
    apply bind_Some in Hinit as ([d1 src] & _ & Hinit).
    apply bind_Some in Hinit as ([d2 tgt] & _ & Hinit).
    by injection Hinit as <-. }
  destruct Hrest as (Hq & Hcur & Hmin).
  unfold consistent, node_at. rewrite Hq, Hcur, Hmin, Hs, Ht, Hdense.
  split; [done|]. split; [|split; [|split; [|split; [|split]]]].
  - intros id k Hk Hk0. destruct (Hall id k Hk Hk0)
      as [[-> ->]|(-> & -> & Hne)].
    + by exists (SearchNode_of_id srcId).
    + exists (SearchNode_of_id tgtId). split; [|done].
      destruct (Z.eqb_spec srcId tgtId); done.
  - intros e He. by apply elem_of_nil in He.
  - intros k r m Hk Hp.
    destruct k as [|[|[|k]]]; simpl in Hk.
    + injection Hk as <-. done.
    + injection Hk as <-. done.
    + destruct (srcId =? tgtId); [done|]. injection Hk as <-. done.
    + destruct (srcId =? tgtId); done.
  - done.
  - by eexists.
  - destruct (srcId =? tgtId); by eexists.
Qed.

(** X12. On a layer whose nodes list nodes of the pool as neighbours,
    from the seed of a search on, and at every turn of its loop: the
    registry keeps its invariant; the entry on top of the open list is
    for an identifier that owns a slot, and the record there carries this
    identifier (the two [assert]s of [IterateNodes]); every predecessor
    link, the cursor and the lowest-heuristic and target references
    designate a record of the registry.  The states the loop of
    [ExecutePathSearch] goes through are such turns. *)
Theorem search_stays_consistent (G : Globals) (L : NodeLayer)
  (s s1 s2 : PathSearch) (full part : bool) :
  let cap := GetMaxNodesAlloced L in
  let srcId := GetIndex (GetNode L (square_of (vx (srcPoint s)))
                                   (square_of (vz (srcPoint s)))) in
  let tgtId := GetIndex (resolved_target G L s) in
  Z.of_nat cap < 2 ^ 31 ->
  0 <= srcId < Z.of_nat cap -> 0 <= tgtId < Z.of_nat cap ->
  neighbors_in_pool L ->
  InitializeThread G L s = Some s1 ->
  seed G (with_flags s1 full part) = Some s2 ->
  (forall s', rtc (turn L) s2 s' ->
     consistent cap s'
     /\ (forall e q, openNodes s' = e :: q ->
           Sparse.isSet (allSearchedNodes s') (nodeIndex e) = Some true
           /\ exists cur r,
                Sparse.at_index (allSearchedNodes s') (nodeIndex e)
                  = Some cur
                /\ (0 < cur)%nat
                /\ node_at s' cur = Some r /\ index r = nodeIndex e)
     /\ (length (Sparse.denseData (allSearchedNodes s')) <= S cap)%nat)
  /\ (forall fuel s', search_loop fuel L s2 = Some s' ->
        rtc (turn L) s2 s').
Proof.
  intros cap srcId tgtId Hcap Hsrc Htgt Hngb Hinit Hseed.
  split; [|intros fuel s'; apply search_loop_turns].
  destruct (InitializeThread_consistent G L s s1 Hcap Hsrc Htgt Hinit)
    as (Hc1 & Hat1 & Hsrc1).
  assert (Hc2 : consistent cap s2).
  { apply (seed_consistent cap G (with_flags s1 full part) s2 srcId);
      [|done|done|done].
    pose proof Hc1 as (_ & _ & _ & _ & Hcur & Hmin & Htgt1).
    by apply (consistent_same_nodes cap s1). }
  intros s' Hturns.
  assert (Hc : consistent cap s').
  { clear Hseed. induction Hturns as [|sa sb sc Hturn _ IH]; [done|].
    apply IH. by apply (turn_consistent L sa sb). }
  split; [done|].
  destruct Hc as ((Hlen & Hused & Hrange) & Hrecs & Hq & _). split.
  - intros e q Hq'. assert (He : e ∈ openNodes s')
      by (rewrite Hq'; apply elem_of_cons; by left).
    specialize (Hq e He). split; [done|].
    unfold Sparse.isSet in Hq. apply bind_Some in Hq as (k & Hk & Hq).
    injection Hq as Hq.
    assert (Hk0 : k <> 0) by (by destruct (Z.eqb_spec k 0)).
    destruct (Hrecs _ _ Hk Hk0) as (r & Hr & Hri).
    destruct (sparse_at_Some _ _ _ Hk) as [_ Hlk].
    specialize (Hrange _ _ Hlk).
    exists (Z.to_nat k), r. unfold Sparse.at_index. rewrite Hk.
    cbn [mbind option_bind]. rewrite dense_ref_in_range by done.
    split; [done|]. split; [lia|done].
  - rewrite Hused. pose proof (used_le (Sparse.sparseIndex (allSearchedNodes s'))).
    fold cap in Hlen. lia.
Qed.
End SearchInvariant.

(** ** The route a search writes *)

Section RouteMore.
Context `{FloatOps} `{!Float3Ops} `{!Config} `{!PathOps}.

(** X13. On a route that has a waypoint for every hop (its two ends
    and one point per record on the predecessor links from the target
    record to the source record) or has two points only, smoothing
    returns, reads and writes waypoints of the route only, and moves inner
    waypoints only: the route keeps its number of points, its first point
    and its last point, and everything but its points, whatever the
    number of passes and whatever the route does with other indices. *)
Theorem SmoothPath_keeps_endpoints (fuel : nat) (L : NodeLayer)
  (s : PathSearch) (path : IPath) (ns : list nat) :
  trail s (tgtSearchNode s) ns -> (length ns <= fuel)%nat ->
  roomy path ns ->
  exists path',
    SmoothPath fuel L s path = Some path'
    /\ NumPoints path' = NumPoints path
    /\ points path' !! 0%nat = points path !! 0%nat
    /\ last (points path') = last (points path)
    /\ (pathID path', pathHash path', boundingBox path', hasFullPath path',
        hasPartialPath path')
       = (pathID path, pathHash path, boundingBox path, hasFullPath path,
          hasPartialPath path).
Proof.
  intros Htrail Hfuel Hroomy.
  destruct (SmoothPath_roomy fuel L s path ns Htrail Hfuel Hroomy)
    as (path' & Hs & Hn & Hrest & Hfirst & Hlast).
  exists path'. split; [exact Hs|]. split; [exact Hn|].
  split; [exact Hfirst|]. split; [exact Hlast|].
  destruct path, path'. unfold with_points in Hrest. simpl in *.
  by injection Hrest as -> -> -> -> ->.
Qed.

(** X14. The route of a graph search whose predecessor links lead from
    the target record to the source record, finalized into a route of two
    points: if [TracePath] keeps every crossing point on the way or none
    (or smoothing is not compiled in), [Finalize] returns, and the route
    has its two ends and one point per crossing point kept, starts at the
    literal source point of the request and ends at its target point,
    smoothed or not; its bounding box is the one of its points; its
    identifier and its hash are as they were.  The search keeps its
    request and its outcome. *)
Theorem Finalize_route (fuel : nat) (L : NodeLayer) (s : PathSearch)
  (path : IPath) (ns : list nat) :
  rawPathCheck s = false ->
  trail s (tgtSearchNode s) ns -> (length ns <= fuel)%nat ->
  fits s path ns ->
  exists s' p',
    Finalize fuel L s path = Some (s', p')
    /\ NumPoints p' = (length (kept_points s ns) + 2)%nat
    /\ points p' !! 0%nat = Some (srcPoint s)
    /\ last (points p') = Some (tgtPoint s)
    /\ (QTPFS_SMOOTH_PATHS = false ->
        points p' = srcPoint s :: rev (kept_points s ns) ++ [tgtPoint s])
    /\ boundingBox p' = bounds_of (points p')
    /\ pathID p' = pathID path /\ pathHash p' = pathHash path
    /\ hasFullPath p' = haveFullPath s && negb (badGoal s)
    /\ hasPartialPath p' = havePartPath s
    /\ request_of s' = request_of s /\ cursor_of s' = cursor_of s.
Proof.
  intros Hraw Htrail Hfuel Hfits.
  destruct (Finalize_fits fuel L s path ns Hraw Htrail Hfuel Hfits)
    as (s' & p' & Hf & Hn & Hfirst & Hlast & Hpts & Hbox & Hid & Hhash
        & Hreq & Hcur).
  destruct (Finalize_flags _ _ _ _ _ _ Hf) as [Hfull Hpart].
  exists s', p'. split; [exact Hf|]. split; [exact Hn|].
  split; [exact Hfirst|]. split; [exact Hlast|]. split; [exact Hpts|].
  split; [exact Hbox|]. split; [exact Hid|]. split; [exact Hhash|].
  split; [exact Hfull|]. split; [exact Hpart|]. split; [exact Hreq|].
  exact Hcur.
Qed.
End RouteMore.

(** ** The cache of build-square tests *)

Section CacheFacts.
Import BuildSquareCache.
Context {KeyT Feature Status Pos : Type} (key_eqb : KeyT -> KeyT -> bool).
Local Abbreviation Item := (@Item KeyT Feature Status Pos).

Lemma find_if_le (P : Item -> bool) (l : list Item) :
  (find_if P l <= length l)%nat.
Proof. induction l as [|x l IH]; simpl; [lia|]. destruct (P x); lia. Qed.

Lemma find_if_found (P : Item -> bool) (l : list Item) :
  (find_if P l < length l)%nat ->
  exists x, l !! find_if P l = Some x /\ P x = true.
Proof.
  induction l as [|x l IH]; simpl; [lia|].
  destruct (P x) eqn:Hx; [by exists x|].
  intros Hlt. apply IH. lia.
Qed.

Lemma find_if_first (P : Item -> bool) (l : list Item) (j : nat) (x : Item) :
  (j < find_if P l)%nat -> l !! j = Some x -> P x = false.
Proof.
  revert j. induction l as [|y l IH]; intros j; simpl; [lia|].
  destruct (P y) eqn:Hy; [lia|].
  destruct j as [|j]; simpl.
  - intros _ E. by injection E as <-.
  - intros Hlt. apply IH. lia.
Qed.

Lemma find_if_app_match (P : Item -> bool) (l : list Item) (y : Item) :
  P y = true -> find_if P (l ++ [y]) = find_if P l.
Proof.
  intros Hy. induction l as [|x l IH]; simpl; [by rewrite Hy|].
  destruct (P x); [done|]. by rewrite IH.
Qed.

(** X15. Saving never replaces an item: after [SaveToCache] under a
    key equal to itself, the lookup of the key finds an item, the first
    one of the vector with an equal key; if the cache had one already,
    that older item is the one found, at the place it had, and the item
    just saved stays out of reach behind it; only if it had none is the
    item found the one just saved.  The overload without positions saves
    the item with three empty vectors. *)
Theorem saved_item_found_unless_shadowed (cache : list Item) (frame : Z)
  (k : KeyT) (f : Feature) (bss : Status) (canbuild featpos nobuild : list Pos) :
  key_eqb k k = true ->
  let saved := mkItem frame k f bss canbuild featpos nobuild in
  let cache' := SaveToCache_positions cache frame k f bss canbuild featpos
                  nobuild in
  let it := (GetCacheItem key_eqb cache k).1 in
  let found := (GetCacheItem key_eqb cache k).2 in
  GetCacheItem key_eqb cache' k = (it, true)
  /\ (forall j x, (j < it)%nat -> cache' !! j = Some x ->
        key_eqb (key x) k = false)
  /\ (if found
      then exists x, cache !! it = Some x /\ cache' !! it = Some x
                     /\ key_eqb (key x) k = true
      else it = length cache /\ cache' !! it = Some saved)
  /\ SaveToCache cache frame k f bss
     = SaveToCache_positions cache frame k f bss [] [] [].
Proof.
  intros Hrefl saved cache' it found.
  set (P := fun item : Item => key_eqb (key item) k).
  assert (Hit : it = find_if P cache) by done.
  assert (Hit' : find_if P cache' = it)
    by (subst cache'; unfold SaveToCache_positions; rewrite Hit;
        by apply find_if_app_match).
  pose proof (find_if_le P cache) as Hle. rewrite <- Hit in Hle.
  assert (Hlen' : length cache' = S (length cache)).
  { subst cache'. unfold SaveToCache_positions. rewrite length_app.
    simpl. lia. }
  split; [|split; [|split; [|done]]].
  - unfold GetCacheItem. fold P. rewrite Hit', Hlen'. f_equal.
    destruct (Nat.eqb_spec it (S (length cache))); [lia|done].
  - intros j x Hj Hx. rewrite <- Hit' in Hj.
    by apply (find_if_first P cache' j x).
  - subst found. unfold GetCacheItem. fold P. rewrite <- Hit. simpl.
    destruct (Nat.eqb_spec it (length cache)) as [E|E]; simpl.
    + split; [done|]. subst cache'. unfold SaveToCache_positions.
      rewrite lookup_app_r by lia. rewrite E, Nat.sub_diag. done.
    + destruct (find_if_found P cache) as (x & Hx & HPx); [lia|].
      rewrite <- Hit in Hx. exists x. split; [done|]. split; [|done].
      subst cache'. by apply lookup_app_l_Some.
Qed.
End CacheFacts.

(** ** The target of a partial result *)

Section OutcomeMore.
Context `{FloatOps} `{!Float3Ops} `{!Config} `{!PathOps}.

(** X16. With partial searches compiled in, an executed graph search
    between distinct records ends in one of three ways.  With a full
    path, the target record and the target point are those of the
    request (whether or not a partial path is flagged as well).  Without
    a full path but with a partial one, the search is retargeted: the
    target record becomes the lowest-heuristic record, which is not the
    source record, and the target point moves to the middle of that
    record's node, its height being kept; [Execute] returns true.
    Without either, [Execute] returns false, the lowest-heuristic record
    is still the source record and the target is as requested. *)
Theorem partial_result_retargets (fuel : nat) (G : Globals) (L : NodeLayer)
  (s s' : PathSearch) (found : bool) :
  QTPFS_SUPPORT_PARTIAL_SEARCHES = true ->
  rawPathCheck s = false ->
  srcSearchNode s <> tgtSearchNode s ->
  Execute fuel G L s = Some (found, s') ->
  srcPoint s' = srcPoint s /\ srcSearchNode s' = srcSearchNode s /\
  if haveFullPath s' then
    found = true /\ tgtSearchNode s' = tgtSearchNode s
    /\ tgtPoint s' = tgtPoint s
  else if havePartPath s' then
    found = true /\ tgtSearchNode s' = minSearchNode s'
    /\ minSearchNode s' <> srcSearchNode s
    /\ exists minRec,
         node_at s' (minSearchNode s') = Some minRec
         /\ tgtPoint s'
            = mkFloat3 (to_world (xmid (GetPoolNode L (index minRec))))
                       (vy (tgtPoint s))
                       (to_world (zmid (GetPoolNode L (index minRec))))
  else
    found = false /\ tgtSearchNode s' = tgtSearchNode s
    /\ tgtPoint s' = tgtPoint s /\ minSearchNode s' = srcSearchNode s.
Proof.
  intros Hpart Hraw Hne He. unfold Execute in He. simpl in He.
  destruct (Nat.eqb_spec (srcSearchNode s) (tgtSearchNode s)); [done|].
  rewrite Hraw in He. unfold ExecutePathSearch in He.
  apply bind_Some in He as (s2 & Hseed & He).
  apply bind_Some in He as (s3 & Hloop & He).
  apply seed_fields in Hseed as (Hr2 & _ & _).
  apply search_loop_outcome in Hloop as (Hr3 & _ & _ & _).
  unfold request_of in Hr2, Hr3. simpl in Hr2.
  injection Hr2 as Hsp2 Htp2 _ _ _ Hsrc2 Htgt2.
  injection Hr3 as Hsp3 Htp3 _ _ _ Hsrc3 Htgt3.
  rewrite Hsp2 in Hsp3. rewrite Htp2 in Htp3.
  rewrite Hsrc2 in Hsrc3. rewrite Htgt2 in Htgt3.
  clear Hsp2 Htp2 Hsrc2 Htgt2.
  unfold conclude in He. rewrite Hpart in He.
  apply bind_Some in He as (s5 & Hs5 & He). injection He as <- <-.
  destruct s3 as [sp tp raw ty bad full part mult src tgt cur nxt mn np gd hd
                  gc hc nodes q].
  simpl in *. subst sp tp src tgt.
  destruct full; simpl in Hs5.
  - injection Hs5 as <-. simpl. done.
  - destruct (Nat.eqb_spec mn (srcSearchNode s)) as [->|Hmin];
      simpl in Hs5.
    + injection Hs5 as <-. simpl. done.
    + apply bind_Some in Hs5 as (minRec & Hrec & Hs5).
      injection Hs5 as <-. simpl.
      split; [done|]. split; [done|]. split; [done|]. split; [done|].
      split; [done|]. exists minRec. split; [exact Hrec|done].
Qed.
End OutcomeMore.

(** ** The further statements at work on the maps of [Concrete] *)

Section MoreInstances.
Import Concrete.

Lemma touched_reached : Sparse.reached (H := plain_records) 4 touched.
Proof.
  unfold Sparse.reached, Sparse.evolves.
  apply (rtc_l _ _ (Sparse.mkSparseData [0; 0; 1; 0] [0; 2])).
  { apply (Sparse.step_insert (H := plain_records) _ 2 _ 1%nat).
    reflexivity. }
  apply (rtc_l _ _ touched).
  { apply (Sparse.step_fetch (H := plain_records) _ 0 _ 2%nat).
    reflexivity. }
  apply rtc_refl.
Qed.

(** In the registry of four identifiers, identifiers 2 and 0 own slots 1
    and 2: three records in all, and no slot is shared. *)
Lemma registry_slots_distinct_witness :
  length (Sparse.denseData touched) = 3%nat
  /\ Sparse.at_index touched 2 = Some 1%nat
  /\ Sparse.at_index touched 0 = Some 2%nat
  /\ forall id k, Sparse.at_index touched id = Some k ->
       Sparse.isSet touched 2 = Some true -> 1%nat = k -> 2 = id.
Proof.
  destruct (registry_slots_distinct (H := plain_records) 4 touched
              ltac:(lia) touched_reached) as (Hlen & _ & Hdist).
  split; [rewrite Hlen; reflexivity|]. split; [reflexivity|].
  split; [reflexivity|].
  intros id k Hk Hset. exact (Hdist 2 id 1%nat k eq_refl Hk Hset).
Defined.

(** Inserting identifier 2 again overwrites the record at its slot 1 and
    takes no new slot; inserting identifier 3, which owns none, takes the
    new slot 3 at the end of the store. *)
Lemma InsertINode_overwrites_witness :
  (exists d' k,
     Sparse.InsertINode (H := plain_records) touched 2 = Some (d', k)
     /\ k = 1%nat
     /\ Sparse.denseData d' !! k = Some 2
     /\ length (Sparse.denseData d') = 3%nat
     /\ Sparse.InsertINode (H := plain_records) d' 2 = Some (d', k))
  /\ (exists d' k,
        Sparse.InsertINode (H := plain_records) touched 3 = Some (d', k)
        /\ k = 3%nat
        /\ Sparse.denseData d' = Sparse.denseData touched ++ [3]).
Proof.
  split.
  - destruct (InsertINode_overwrites (H := plain_records) 4 touched 2
                ltac:(lia) touched_reached ltac:(lia))
      as (d' & k & Hop & _ & Hrec & _ & _ & Hsame & _ & Hagain).
    destruct (Hsame eq_refl) as (Hat & _ & _ & Hlen).
    vm_compute in Hat. injection Hat as <-.
    exists d', 1%nat. split; [exact Hop|]. split; [reflexivity|].
    split; [exact Hrec|]. split; [by rewrite Hlen|exact Hagain].
  - destruct (InsertINode_overwrites (H := plain_records) 4 touched 3
                ltac:(lia) touched_reached ltac:(lia))
      as (d' & k & Hop & _ & _ & _ & Hfresh & _).
    destruct (Hfresh eq_refl) as (Hk & Hdense & _).
    exists d', k. split; [exact Hop|]. split; [by rewrite Hk|exact Hdense].
Defined.

(** Identifier 1 owns no slot: looking it up yields the dummy. *)
Lemma lookup_unset_is_dummy_witness :
  exists k,
    Sparse.at_index touched 1 = Some k
    /\ Sparse.isSet touched 1 = Some false
    /\ k = 0%nat
    /\ Sparse.denseData touched !! k = Some 0.
Proof.
  destruct (lookup_unset_is_dummy (H := plain_records) 4 touched 1
              ltac:(lia) touched_reached ltac:(lia))
    as (k & set & Hat & Hset & _ & Hiff & Hdummy).
  assert (Hfalse : set = false)
    by (change (Some false = Some set) in Hset; by injection Hset).
  exists k. split; [exact Hat|]. split; [by rewrite Hset, Hfalse|].
  split; [by apply Hiff|]. by apply Hdummy.
Defined.

(** A footprint of 64 squares: the shift is 1, not 6. *)
Lemma GetNextBitShift_is_one_witness : GetNextBitShift 64 = Some 1.
Proof. apply GetNextBitShift_is_one. lia. Defined.

(** Child 2 of the node numbered 3 under the root 5 of the mask
    [0xFF000000] is numbered 15 under the same root. *)
Lemma GetChildId_keeps_root_bits_witness :
  GetChildId 0x05000003 2 0xFF000000 = 0x0500000F
  /\ Z.land 0xFF000000 (GetChildId 0x05000003 2 0xFF000000) = 0x05000000
  /\ Z.land (wrap_u32 (Z.lnot 0xFF000000))
            (GetChildId 0x05000003 2 0xFF000000) = 15.
Proof.
  pose proof (GetChildId_keeps_root_bits 0x05000003 2 0xFF000000
                ltac:(lia) ltac:(lia)) as Hk.
  cbv zeta in Hk.
  destruct Hk as [Hroot Hnode];
    [vm_compute; reflexivity | vm_compute; reflexivity |].
  split; [vm_compute; reflexivity|]. split.
  - rewrite Hroot. vm_compute. reflexivity.
  - rewrite Hnode. vm_compute. reflexivity.
Defined.

(** The children 1 and 2 of that node get different numbers. *)
Lemma GetChildId_injective_witness :
  GetChildId 0x05000003 1 0xFF000000 <> GetChildId 0x05000003 2 0xFF000000
  /\ (GetChildId 0x05000003 2 0xFF000000
      = GetChildId 0x05000003 2 0xFF000000 ->
      0x05000003 = 0x05000003 /\ 2 = 2).
Proof.
  split.
  - intros E.
    destruct (GetChildId_injective 0x05000003 0x05000003 1 2 0xFF000000
                ltac:(lia) ltac:(lia) ltac:(lia) ltac:(lia))
      as [_ Hi]; [vm_compute; reflexivity.. | exact E |].
    discriminate Hi.
  - intros E.
    apply (GetChildId_injective 0x05000003 0x05000003 2 2 0xFF000000
             ltac:(lia) ltac:(lia) ltac:(lia) ltac:(lia));
      [vm_compute; reflexivity.. | exact E].
Defined.

(** From the node of 64 by 64 squares at the origin, the square (5, 5):
    the descent ends in the node of 16 by 16 squares at the origin. *)
Lemma descent_contains_source_witness :
  exists num',
    descend_state 33 0xFF000000 5 5 64 5 0 0 = Some (num', 16, 0, 0)
    /\ descend 33 0xFF000000 5 5 64 5 0 0 = Some num'.
Proof.
  destruct (descent_contains_source 0xFF000000 5 5 5 0 0 6)
    as (num' & xoff' & zoff' & j & Hst & Hd & _);
    [vm_compute; discriminate | lia | lia | lia
    | vm_compute; discriminate | vm_compute; discriminate
    | split; vm_compute; [discriminate|reflexivity]
    | split; vm_compute; [discriminate|reflexivity] |].
  exists num'. split; [|exact Hd].
  change (2 ^ Z.of_nat 6) with 64 in Hst.
  assert (Hrun : (fun r : Z * Z * Z * Z => (r.1.1.2, r.1.2, r.2))
                   <$> descend_state 33 0xFF000000 5 5 64 5 0 0
                 = Some (16, 0, 0)) by (vm_compute; reflexivity).
  rewrite Hst in Hrun. simpl in Hrun. injection Hrun as Hsz Hx Hz.
  rewrite Hsz, Hx, Hz in Hst. exact Hst.
Defined.

Lemma corridor_neighbors : neighbors_in_pool corridor.
Proof.
  intros id. simpl. destruct (id =? 0); [|destruct (id =? 1)];
    repeat constructor; lia.
Qed.

(** Binding a worker to the corridor request: the source record at
    slot 1, the target record at slot 2. *)
Lemma InitializeThread_slots_witness :
  exists s1,
    InitializeThread corridor_globals corridor across = Some s1
    /\ srcSearchNode s1 = 1%nat /\ tgtSearchNode s1 = 2%nat
    /\ length (Sparse.denseData (allSearchedNodes s1)) = 3%nat
    /\ openNodes s1 = [].
Proof.
  destruct (InitializeThread_slots corridor_globals corridor across)
    as (s1 & Hinit & Hs & Ht & Hdense & _ & _ & Hq & _);
    [vm_compute; reflexivity
    | split; vm_compute; [discriminate|reflexivity]
    | split; vm_compute; [discriminate|reflexivity] |].
  exists s1. split; [exact Hinit|]. split; [exact Hs|].
  split; [rewrite Ht; vm_compute; reflexivity|].
  split; [rewrite Hdense; vm_compute; reflexivity|exact Hq].
Defined.

(** The seed of the corridor search: one entry of priority 0 for node 0,
    whose record gets the costs 0 and 40. *)
Lemma seed_effect_witness :
  let s := bound corridor_globals corridor across in
  exists s',
    seed corridor_globals s = Some s'
    /\ entries (openNodes s') = [(of_Z 0, 0)]
    /\ costs <$> node_at s' 1
       = Some (0, (of_Z 40, of_Z 0, of_Z 40), None, (of_Z 4, of_Z 8)).
Proof.
  intros s.
  set (src := default (SearchNode_of_id 0) (node_at s (srcSearchNode s))).
  assert (Hsrc : node_at s (srcSearchNode s) = Some src)
    by (apply returns_Some; vm_compute; reflexivity).
  assert (Hslot : srcSearchNode s = 1%nat) by (vm_compute; reflexivity).
  destruct (seed_effect corridor_globals s src Hsrc)
    as (s' & Hseed & _ & Hq & Hrec & _).
  exists s'. split; [exact Hseed|]. split.
  - rewrite Hq. vm_compute. reflexivity.
  - rewrite Hslot in Hrec. rewrite Hrec. vm_compute. reflexivity.
Defined.

(** The entry of the target node on top: one turn ends the search, the
    entry behind it is dropped. *)
Lemma target_pop_ends_search_witness :
  exists s',
    search_loop 1 corridor arrived = Some s'
    /\ haveFullPath s' = true
    /\ openNodes s' = []
    /\ allSearchedNodes s' = allSearchedNodes arrived.
Proof.
  assert (Hat : Sparse.at_index (allSearchedNodes arrived) 2
                = Some (tgtSearchNode arrived))
    by (vm_compute; reflexivity).
  destruct (target_pop_ends_search 0 corridor arrived
              (@mkSearchQueueNode floats (of_Z 0) 2)
              [@mkSearchQueueNode floats (of_Z 5) 0] eq_refl Hat)
    as (s' & Hloop & Hfull & _ & Hq & Hnodes & _).
  exists s'. split; [exact Hloop|]. split; [exact Hfull|].
  split; [exact Hq|exact Hnodes].
Defined.

(** The corridor request as a raw probe that succeeds: no record is
    created and the route keeps the two null points it came with. *)
Lemma raw_probe_witness :
  exists s' p',
    Execute 10 open_globals corridor probe = Some (true, s')
    /\ allSearchedNodes s' = allSearchedNodes probe
    /\ Finalize 10 corridor s' (fresh_path 1) = Some (s', p')
    /\ waypoints p' = [(of_Z 0, of_Z 0, of_Z 0); (of_Z 0, of_Z 0, of_Z 0)]
    /\ hasFullPath p' = true /\ hasPartialPath p' = false.
Proof.
  assert (Hraw : rawPathCheck probe = true) by (vm_compute; reflexivity).
  assert (Hne : srcSearchNode probe <> tgtSearchNode probe)
    by (vm_compute; discriminate).
  destruct (raw_probe 10 open_globals corridor probe (fresh_path 1) Hraw Hne)
    as (He & Hnodes & _ & Hf).
  change (DoRawSearch open_globals (srcPoint probe) (tgtPoint probe))
    with true in He, Hnodes, Hf.
  eexists _, _. split; [exact He|]. split; [exact Hnodes|].
  split; [exact Hf|]. split; [vm_compute; reflexivity|].
  split; [vm_compute; reflexivity|reflexivity].
Defined.

(** The corridor search after its first turn: the entry on top is for
    node 1, which owns slot 3. *)
Lemma search_stays_consistent_witness :
  let s2 := seeded corridor_globals corridor across in
  exists s',
    loop_turn corridor s2 = Some s'
    /\ entries (openNodes s') = [(of_Z 40, 1)]
    /\ Sparse.isSet (allSearchedNodes s') 1 = Some true
    /\ exists cur r,
         Sparse.at_index (allSearchedNodes s') 1 = Some cur
         /\ node_at s' cur = Some r /\ index r = 1.
Proof.
  intros s2.
  set (s1 := bound corridor_globals corridor across).
  assert (Hinit : InitializeThread corridor_globals corridor across = Some s1)
    by (apply returns_Some; vm_compute; reflexivity).
  assert (Hseed : seed corridor_globals (with_flags s1 false false) = Some s2)
    by (apply returns_Some; vm_compute; reflexivity).
  set (s' := default s2 (loop_turn corridor s2)).
  assert (Hturn : loop_turn corridor s2 = Some s')
    by (apply returns_Some; vm_compute; reflexivity).
  assert (Hq : entries (openNodes s') = [(of_Z 40, 1)])
    by (vm_compute; reflexivity).
  destruct (search_stays_consistent corridor_globals corridor across s1 s2
              false false) as [Hinv _];
    [vm_compute; reflexivity
    | split; vm_compute; [discriminate|reflexivity]
    | split; vm_compute; [discriminate|reflexivity]
    | exact corridor_neighbors | exact Hinit | exact Hseed |].
  destruct (Hinv s' (rtc_once _ _ Hturn)) as (_ & Hpop & _).
  exists s'. split; [exact Hturn|]. split; [exact Hq|].
  destruct (openNodes s') as [|e q] eqn:Hopen; [discriminate Hq|].
  simpl in Hq. injection Hq as _ Hidx _.
  destruct (Hpop e q eq_refl) as (Hset & cur & r & Hat & _ & Hr & Hri).
  rewrite Hidx in Hset, Hat, Hri.
  split; [exact Hset|]. exists cur, r.
  split; [exact Hat|]. split; [exact Hr|exact Hri].
Defined.

(** Smoothing the route of the corridor search, four points for two
    hops: four points before and after, from (4, 8) to (44, 8). *)
Lemma SmoothPath_keeps_endpoints_witness :
  let s := executed 10 corridor_globals corridor across in
  exists path',
    SmoothPath 10 corridor s traced = Some path'
    /\ NumPoints path' = 4%nat
    /\ coords <$> points path' !! 0%nat = Some (of_Z 4, of_Z 0, of_Z 8)
    /\ coords <$> last (points path') = Some (of_Z 44, of_Z 0, of_Z 8).
Proof.
  intros s.
  destruct (SmoothPath_keeps_endpoints 10 corridor s traced [2; 3]%nat)
    as (path' & Hsmooth & Hn & Hfirst & Hlast & _);
    [apply on_trail_sound; vm_compute; reflexivity
    | simpl; lia
    | right; vm_compute; lia |].
  exists path'. split; [exact Hsmooth|].
  split; [rewrite Hn; vm_compute; reflexivity|].
  split; [rewrite Hfirst|rewrite Hlast]; vm_compute; reflexivity.
Defined.

(** Where the first crossing point was skipped the route is a point
    short: three points for two hops.  The last turn of smoothing then
    asks for the point before the first, and writes the first: on a route
    that takes a missing point for its last, the source point (4, 8) of
    the corridor request to the west edge is moved to (4, 16). *)
Lemma short_route_loses_source_point :
  let s := executed 10 corridor_globals corridor to_the_edge in
  let route :=
    default (fresh_path 1) (snd <$> TracePath 10 s (fresh_path 1)) in
  on_trail s (tgtSearchNode s) [2; 3]%nat = true
  /\ waypoints route
     = [(of_Z 4, of_Z 0, of_Z 8); (of_Z 16, of_Z 0, of_Z 8);
        (of_Z 32, of_Z 0, of_Z 8)]
  /\ waypoints <$> SmoothPath 10 corridor s route
     = Some [(of_Z 4, of_Z 0, of_Z 16); (of_Z 16, of_Z 0, of_Z 8);
             (of_Z 32, of_Z 0, of_Z 8)].
Proof.
  intros s route. split; [vm_compute; reflexivity|].
  split; vm_compute; reflexivity.
Qed.

(** The finalized route of the corridor search runs from the source
    point (4, 8) to the target point (44, 8), over four points. *)
Lemma Finalize_route_witness :
  let s := executed 10 corridor_globals corridor across in
  exists s' p',
    Finalize 10 corridor s (fresh_path 1) = Some (s', p')
    /\ NumPoints p' = 4%nat
    /\ coords <$> points p' !! 0%nat = Some (of_Z 4, of_Z 0, of_Z 8)
    /\ coords <$> last (points p') = Some (of_Z 44, of_Z 0, of_Z 8)
    /\ boundingBox p' = bounds_of (points p')
    /\ pathID p' = 1.
Proof.
  intros s.
  assert (Hraw : rawPathCheck s = false) by (vm_compute; reflexivity).
  destruct (Finalize_route 10 corridor s (fresh_path 1) [2; 3]%nat Hraw)
    as (s' & p' & Hf & Hn & Hfirst & Hlast & _ & Hbox & Hid & _);
    [apply on_trail_sound; vm_compute; reflexivity
    | simpl; lia
    | split; [reflexivity|]; right; right; vm_compute; reflexivity |].
  exists s', p'. split; [exact Hf|].
  split; [rewrite Hn; vm_compute; reflexivity|].
  split; [rewrite Hfirst; vm_compute; reflexivity|].
  split; [rewrite Hlast; vm_compute; reflexivity|].
  split; [exact Hbox|exact Hid].
Defined.

(** A cache with items under the keys 5 and 7, saved under 7 again: the
    lookup of 7 still finds the item of frame 2, not the one of frame 3;
    saved under 9, the lookup of 9 finds the new item. *)
Lemma saved_item_found_unless_shadowed_witness :
  let cache := [cache_item 1 5; cache_item 2 7] in
  let again := BuildSquareCache.SaveToCache_positions cache 3 7 tt false
                 [] [] [] in
  let fresh := BuildSquareCache.SaveToCache_positions cache 3 9 tt false
                 [] [] [] in
  BuildSquareCache.GetCacheItem Z.eqb again 7 = (1%nat, true)
  /\ BuildSquareCache.createFrame <$> again !! 1%nat = Some 2
  /\ BuildSquareCache.GetCacheItem Z.eqb fresh 9 = (2%nat, true)
  /\ BuildSquareCache.createFrame <$> fresh !! 2%nat = Some 3.
Proof.
  intros cache again fresh.
  destruct (saved_item_found_unless_shadowed Z.eqb cache 3 7 tt false
              [] [] [] eq_refl) as (Hget & _ & Hfound & _).
  destruct (saved_item_found_unless_shadowed Z.eqb cache 3 9 tt false
              [] [] [] eq_refl) as (Hget' & _ & Hfound' & _).
  simpl in Hfound, Hfound'.
  destruct Hfound as (x & Hx & Hx' & _). destruct Hfound' as [_ Hnew].
  split; [exact Hget|]. split.
  - change (again !! 1%nat) with
      (BuildSquareCache.SaveToCache_positions cache 3 7 tt false [] [] []
         !! 1%nat).
    simpl in Hx. injection Hx as <-. reflexivity.
  - split; [exact Hget'|]. reflexivity.
Defined.

(** Across the severed corridor: the middle node is expanded and the
    open list runs empty; the search is retargeted to the middle of the
    middle node, (24, 8). *)
Lemma partial_result_retargets_witness :
  let s := bound corridor_globals severed across in
  exists s',
    Execute 10 corridor_globals severed s = Some (true, s')
    /\ haveFullPath s' = false /\ havePartPath s' = true
    /\ tgtSearchNode s' = minSearchNode s'
    /\ coords (tgtPoint s') = (of_Z 24, of_Z 0, of_Z 8).
Proof.
  intros s.
  assert (Hraw : rawPathCheck s = false) by (vm_compute; reflexivity).
  assert (Hne : srcSearchNode s <> tgtSearchNode s)
    by (vm_compute; discriminate).
  assert (Hrun : (fun r : bool * PathSearch =>
                    (r.1, haveFullPath r.2, havePartPath r.2,
                     coords (tgtPoint r.2)))
                   <$> Execute 10 corridor_globals severed s
                 = Some (true, false, true, (of_Z 24, of_Z 0, of_Z 8)))
    by (vm_compute; reflexivity).
  destruct (Execute 10 corridor_globals severed s) as [[b s']|] eqn:He;
    [|discriminate Hrun].
  simpl in Hrun. injection Hrun as -> Hfull Hpart Hx Hy Hz.
  assert (Hcfg : QTPFS_SUPPORT_PARTIAL_SEARCHES = true) by reflexivity.
  destruct (partial_result_retargets 10 corridor_globals severed s s' true
              Hcfg Hraw Hne He) as (_ & _ & Hcase).
  rewrite Hfull, Hpart in Hcase. destruct Hcase as (_ & Htgt & _).
  exists s'. split; [reflexivity|]. split; [exact Hfull|].
  split; [exact Hpart|]. split; [exact Htgt|].
  unfold coords. rewrite Hx, Hy, Hz. vm_compute. reflexivity.
Defined.
End MoreInstances.
